(** * Quantum_chemistry.py: Jordan-Wigner operators, qubit Hamiltonian and
    the variational driver, as a shallow embedding.

    The Python module works on qiskit's [SparsePauliOp] and on numpy arrays.
    The parts of those libraries that the module calls are embedded first,
    from the library code that the module's imports run (qiskit before 1.0,
    which still has [QuantumCircuit.bind_parameters]):
    [quantum_info/operators/symplectic/base_pauli.py], [pauli_list.py] and
    [sparse_pauli_op.py] for the symplectic rows, [compose], [adjoint],
    [simplify], [_add] and [_multiply], and [operators/mixins/linear.py] for
    [0 + op].  The functions of [Quantum_chemistry.py] follow, each under
    the name it has in the source.

    Numbers.  numpy's [complex128] and [float64] are modelled by exact
    rationals ([Qc], and pairs of them for complex values): every
    operation is the one the library performs, without rounding.  The one
    sum whose value is returned as such, that of [add_repulsion_energy],
    takes numpy's rounding float64 addition as an argument.

    Exceptions.  A function that can raise returns a [result]; raising
    aborts the loops around it, as in Python. *)

From Stdlib Require Import QArith Qcanon Ring.
From stdpp Require Import base list numbers strings.

Local Open Scope Qc_scope.

(** ** Complex coefficients *)

Module Complex.

Record complex : Type := Cx { re : Qc; im : Qc }.

Definition czero : complex := Cx 0 0.
Definition cone : complex := Cx 1 0.
Definition of_real (r : Qc) : complex := Cx r 0.

Definition cadd (a b : complex) : complex :=
  Cx (re a + re b) (im a + im b).

Definition cmul (a b : complex) : complex :=
  Cx (re a * re b - im a * im b) (re a * im b + im a * re b).

(** [numpy.conj] *)
Definition cconj (a : complex) : complex := Cx (re a) (- im a).

(** The Python literals [0.5] and [0.5j]. *)
Definition half : Qc := Q2Qc (1 # 2).
Definition c_half : complex := Cx half 0.
Definition c_half_j : complex := Cx 0 half.

(** [(-1j) ** k] for an integer [k]; the value only depends on [k mod 4]. *)
Definition pow_minus_j (k : Z) : complex :=
  match (k mod 4)%Z with
  | 0%Z => Cx 1 0
  | 1%Z => Cx 0 (-1)
  | 2%Z => Cx (-1) 0
  | _ => Cx 0 1
  end.

(** [numpy.isclose(c, 0, atol, rtol)] with qiskit's default
    [atol = 1e-8]: [|c| <= atol + rtol * |0|], stated on the squares. *)
Definition atol : Qc := Q2Qc (1 # 100000000).

Definition is_close_zero (c : complex) : bool :=
  bool_decide (re c * re c + im c * im c ≤ atol * atol).

(** Python's [other == 0] on a number. *)
Definition is_zero (c : complex) : bool :=
  bool_decide (re c = 0) && bool_decide (im c = 0).

Definition is_real (c : complex) : Prop := im c = 0.

#[global] Instance complex_eq_dec : EqDecision complex.
Proof. solve_decision. Defined.

End Complex.

Import Complex.

(** ** Python exceptions that the embedded code can raise *)

Inductive exn : Type :=
| IndexError      (* sequence or array index out of range *)
| QiskitError     (* operators on different numbers of qubits *)
| AttributeError  (* method looked up on a plain number *)
| ValueError      (* numpy shape mismatch, [min] of an empty sequence *)
| CircuitError.   (* qubit index outside the circuit *)

Inductive result (A : Type) : Type :=
| Ok (a : A)
| Err (e : exn).
Arguments Ok {A} a.
Arguments Err {A} e.

#[global] Instance exn_eq_dec : EqDecision exn.
Proof. solve_decision. Defined.

#[global] Instance result_eq_dec {A} `{EqDecision A} : EqDecision (result A).
Proof. solve_decision. Defined.

#[global] Instance result_ret : MRet result := λ A a, Ok a.

#[global] Instance result_bind : MBind result := λ A B f m,
  match m with
  | Ok a => f a
  | Err e => Err e
  end.

(** [xs[i]] on a Python list or numpy array, for an index [0 <= i]. *)
Definition index {A} (xs : list A) (i : nat) : result A :=
  match xs !! i with
  | Some x => Ok x
  | None => Err IndexError
  end.

(** A loop [for a in xs: s = body(s, a)] in which the body may raise. *)
Fixpoint for_each {S A} (body : S → A → result S) (xs : list A) (s : S)
  : result S :=
  match xs with
  | [] => Ok s
  | a :: xs' => s' ← body s a; for_each body xs' s'
  end.

(** ** qiskit.quantum_info: symplectic Pauli rows and [SparsePauliOp] *)

Module Pauli.

(** A row of Boolean flags, one per qubit (index 0 first). *)
Abbreviation bits := (list bool).

Definition popcount (b : bits) : nat := sum_list (Nat.b2n <$> b).

Definition bxor (a b : bits) : bits := zip_with xorb a b.
Definition band (a b : bits) : bits := zip_with andb a b.

(** The (Z, X) bit pattern of one Pauli string. *)
Abbreviation pattern := (bits * bits)%type.

(** [_count_y]: qubits where both flags are set. *)
Definition count_y (p : pattern) : Z := Z.of_nat (popcount (band p.1 p.2)).

(** A row of a [PauliList]: the pattern and the internal phase exponent
    [q], the row standing for [(-i)^q Z^z X^x]. *)
Record pauli : Type := Pauli { ppat : pattern; pphase : Z }.

(** [PauliList.from_symplectic(z, x)] with the default [phase = 0]: the
    group phase 0 is stored as the internal exponent [count_y mod 4], so
    that a qubit with both flags set is the matrix Y. *)
Definition from_symplectic (zs xs : list bits) : list pauli :=
  zip_with (λ z x, Pauli (z, x) (count_y (z, x) mod 4)) zs xs.

Abbreviation term := (pattern * complex)%type.

Record SparsePauliOp : Type := Op { num_qubits : nat; terms : list term }.

#[global] Instance SparsePauliOp_eq_dec : EqDecision SparsePauliOp.
Proof. solve_decision. Defined.

(** [SparsePauliOp(paulis, coeffs)]: the phase of every row moves into its
    coefficient, [coeff * (-1j) ** (phase - count_y)], and the row keeps the
    pattern alone. *)
Definition absorb_phase (p : pauli) (c : complex) : term :=
  (ppat p, cmul (pow_minus_j (pphase p - count_y (ppat p))) c).

Definition sparse_pauli_op (n : nat) (ps : list pauli) (coeffs : list complex)
  : SparsePauliOp :=
  Op n (zip_with absorb_phase ps coeffs).

Definition paulis (a : SparsePauliOp) : list pattern := fst <$> terms a.
Definition coeffs (a : SparsePauliOp) : list complex := snd <$> terms a.

(** The all-identity pattern on [n] qubits. *)
Definition identity_pattern (n : nat) : pattern :=
  (replicate n false, replicate n false).

(** [SparsePauliOp.adjoint]: the coefficients are conjugated. *)
Definition adjoint (a : SparsePauliOp) : SparsePauliOp :=
  Op (num_qubits a) ((λ t : term, (t.1, cconj t.2)) <$> terms a).

(** One pair of rows of [a.compose(b)] ([front=False]): the patterns are
    added bitwise, the phase exponents are added with [2 * |z1 & x2|], and
    the constructor moves the phase into the product of the coefficients.
    The row is the matrix product (row of [b]) . (row of [a]). *)
Definition compose_term (t1 t2 : term) : term :=
  let '((z1, x1), c1) := t1 in
  let '((z2, x2), c2) := t2 in
  let p3 : pattern := (bxor z1 z2, bxor x1 x2) in
  let phase := (count_y (z1, x1) mod 4 + count_y (z2, x2) mod 4
                + 2 * Z.of_nat (popcount (band z1 x2)))%Z in
  absorb_phase (Pauli p3 phase) (cmul c1 c2).

(** [a.compose(b)]: all pairs of rows, the rows of [a] in the outer loop.
    Operators on different numbers of qubits are refused. *)
Definition compose (a b : SparsePauliOp) : result SparsePauliOp :=
  if decide (num_qubits a = num_qubits b) then
    Ok (Op (num_qubits b)
          (t1 ← terms a; (λ t2, compose_term t1 t2) <$> terms b))
  else Err QiskitError.

(** [a.dot(b)], that is [a.compose(b, front=True)]: the matrix product
    (row of [a]) . (row of [b]); the sign comes from [|x1 & z2|]. *)
Definition dot_term (t1 t2 : term) : term :=
  let '((z1, x1), c1) := t1 in
  let '((z2, x2), c2) := t2 in
  let p3 : pattern := (bxor z1 z2, bxor x1 x2) in
  let phase := (count_y (z1, x1) mod 4 + count_y (z2, x2) mod 4
                + 2 * Z.of_nat (popcount (band x1 z2)))%Z in
  absorb_phase (Pauli p3 phase) (cmul c1 c2).

Definition dot (a b : SparsePauliOp) : result SparsePauliOp :=
  if decide (num_qubits a = num_qubits b) then
    Ok (Op (num_qubits b)
          (t1 ← terms a; (λ t2, dot_term t1 t2) <$> terms b))
  else Err QiskitError.

(** [a + b]: the rows of [b] are appended to those of [a]. *)
Definition add (a b : SparsePauliOp) : result SparsePauliOp :=
  if decide (num_qubits a = num_qubits b) then
    Ok (Op (num_qubits a) (terms a ++ terms b))
  else Err QiskitError.

(** The operator with the single row (identity, 0). *)
Definition zero_op (n : nat) : SparsePauliOp :=
  Op n [(identity_pattern n, czero)].

(** [c * a] for a number [c]: a zero scalar gives [zero_op], any other
    scalar multiplies every coefficient. *)
Definition scalar_mul (c : complex) (a : SparsePauliOp) : SparsePauliOp :=
  if is_zero c then zero_op (num_qubits a)
  else Op (num_qubits a) ((λ t : term, (t.1, cmul c t.2)) <$> terms a).

(** [numpy.add.at(sums, inverses, coeffs)] over the groups found by
    [unordered_unique]: one entry per distinct pattern, in the order of
    first occurrence, each starting at 0 and receiving the coefficients in
    row order. *)
Fixpoint add_at (acc : list term) (p : pattern) (c : complex) : list term :=
  match acc with
  | [] => [(p, cadd czero c)]
  | (q, s) :: acc' =>
      if decide (q = p) then (q, cadd s c) :: acc'
      else (q, s) :: add_at acc' p c
  end.

Definition group_sums (ts : list term) : list term :=
  foldl (λ acc (t : term), add_at acc t.1 t.2) [] ts.

Definition non_zero (t : term) : bool := negb (is_close_zero t.2).

(** [SparsePauliOp.simplify()] with the default tolerances. *)
Definition simplify (a : SparsePauliOp) : SparsePauliOp :=
  let nz := filter (λ t, non_zero t = true) (terms a) in
  let sums := group_sums nz in
  if bool_decide (length nz = length (terms a))
     && bool_decide (length sums = length nz)
  then a
  else
    match filter (λ t, non_zero t = true) sums with
    | [] => zero_op (num_qubits a)
    | kept => Op (num_qubits a) kept
    end.

End Pauli.

Import Pauli.

(** ** numpy array constructors used by the module *)

(** Row [i] of [numpy.tri(N, M, k)]: ones at the columns [j <= i + k]. *)
Definition tri_row (M : nat) (k : Z) (i : nat) : bits :=
  (λ j, bool_decide (Z.of_nat j ≤ Z.of_nat i + k)%Z) <$> seq 0 M.

Definition tri (N M : nat) (k : Z) : list bits := tri_row M k <$> seq 0 N.

(** Row [i] of [numpy.eye(N, M, k)]: a one at the column [j = i + k]. *)
Definition eye_row (M : nat) (k : Z) (i : nat) : bits :=
  (λ j, bool_decide (Z.of_nat j = Z.of_nat i + k)%Z) <$> seq 0 M.

Definition eye (N M : nat) (k : Z) : list bits := eye_row M k <$> seq 0 N.

(** Python's [zip] of three sequences. *)
Definition zip3 {A B C} (xs : list A) (ys : list B) (zs : list C)
  : list (A * B * C) :=
  zip (zip xs ys) zs.

(** ** Quantum_chemistry.py *)

(** [annihilation_operators_with_jordan_wigner(num_states)] *)
Definition annihilation_operators_with_jordan_wigner (num_states : nat)
  : list SparsePauliOp :=
  let z1_bits := tri num_states num_states (-1) in
  let z2_bits := tri num_states num_states 0 in
  let x_bits := eye num_states num_states 0 in
  (λ '(z1, z2, x),
     sparse_pauli_op num_states (from_symplectic [z1; z2] [x; x])
       [c_half; c_half_j])
  <$> zip3 z1_bits z2_bits x_bits.

(** A Python variable that starts as the integer [0] and receives
    operators through [+=]. *)
Inductive accumulator : Type :=
| Zero
| Sum (a : SparsePauliOp).

(** [s += a]: [0 + a] is [a] itself, an operator plus [a] appends rows. *)
Definition iadd (s : accumulator) (a : SparsePauliOp) : result accumulator :=
  match s with
  | Zero => Ok (Sum a)
  | Sum s => r ← add s a; Ok (Sum r)
  end.

Abbreviation one_body_tensor := (list (list complex)).
Abbreviation two_body_tensor := (list (list (list (list complex)))).

(** [one_body[i][j]] and [two_body[i][j][k][l]] *)
Definition entry2 (one_body : one_body_tensor) (i j : nat) : result complex :=
  h_i ← index one_body i;
  index h_i j.

Definition entry4 (two_body : two_body_tensor) (i j k l : nat)
  : result complex :=
  g_i ← index two_body i;
  g_ij ← index g_i j;
  g_ijk ← index g_ij k;
  index g_ijk l.

(** The innermost statement pair of [build_qubit_hamiltonian]. *)
Definition two_body_step (two_body : two_body_tensor)
    (annihilation_operators : list SparsePauliOp) (a_ij : SparsePauliOp)
    (i j k : nat) (two_body_sum : accumulator) (l : nat) : result accumulator :=
  a_k ← index annihilation_operators k;
  a_l ← index annihilation_operators l;
  a_kl ← compose a_k a_l;
  g ← entry4 two_body i j k l;
  prod ← compose a_ij a_kl;
  iadd two_body_sum (scalar_mul g prod).

(** The body of the loop over [j]. *)
Definition pair_step (one_body : one_body_tensor) (two_body : two_body_tensor)
    (annihilation_operators creation_operators : list SparsePauliOp)
    (i : nat) (sums : accumulator * accumulator) (j : nat)
  : result (accumulator * accumulator) :=
  let n := length annihilation_operators in
  h ← entry2 one_body i j;
  c_i ← index creation_operators i;
  a_j ← index annihilation_operators j;
  ca ← compose c_i a_j;
  one_body_sum ← iadd sums.1 (scalar_mul h ca);
  c_i' ← index creation_operators i;
  c_j ← index creation_operators j;
  a_ij ← compose c_i' c_j;
  two_body_sum ←
    for_each (λ tbs k,
        for_each (two_body_step two_body annihilation_operators a_ij i j k)
          (seq 0 n) tbs)
      (seq 0 n) sums.2;
  Ok (one_body_sum, two_body_sum).

(** [one_body_sum + 0.5*two_body_sum] followed by [.simplify()].  With no
    operator at all both sums are still the integer 0, and [0 + 0.5*0] is
    a float without [simplify]; after one pass of the loops both are
    operators (the two mixed cases cannot arise from the loops; they
    follow [0 + op] and [op + 0]). *)
Definition finish (one_body_sum two_body_sum : accumulator)
  : result SparsePauliOp :=
  match one_body_sum, two_body_sum with
  | Zero, Zero => Err AttributeError
  | Sum a, Zero => Ok (simplify a)
  | Zero, Sum b => Ok (simplify (scalar_mul c_half b))
  | Sum a, Sum b => q ← add a (scalar_mul c_half b); Ok (simplify q)
  end.

(** [build_qubit_hamiltonian(one_body, two_body, annihilation_operators,
    creation_operators)] *)
Definition build_qubit_hamiltonian (one_body : one_body_tensor)
    (two_body : two_body_tensor)
    (annihilation_operators creation_operators : list SparsePauliOp)
  : result SparsePauliOp :=
  let n := length annihilation_operators in
  sums ←
    for_each (λ sums i,
        for_each (pair_step one_body two_body annihilation_operators
                    creation_operators i) (seq 0 n) sums)
      (seq 0 n) (Zero, Zero);
  finish sums.1 sums.2.

(** *** The Hamiltonian as the spec writes it

    The spec's formula, with [compose(A, B)] read as the operator product
    [A . B] taken left to right (qiskit's [A.dot(B)]), creators on the
    left:  the one-body double sum, the two-body quadruple sum, their
    combination with the factor 0.5, then [simplify]. *)
Definition formula_hamiltonian (one_body : one_body_tensor)
    (two_body : two_body_tensor) (annihilators creators : list SparsePauliOp)
  : result SparsePauliOp :=
  let n := length annihilators in
  let range := seq 0 n in
  one_body_term ←
    for_each (λ s '(i, j),
        h ← entry2 one_body i j;
        c_i ← index creators i; a_j ← index annihilators j;
        p ← dot c_i a_j;
        iadd s (scalar_mul h p))
      (i ← range; j ← range; [(i, j)]) Zero;
  two_body_term ←
    for_each (λ s '(i, j, k, l),
        g ← entry4 two_body i j k l;
        c_i ← index creators i; c_j ← index creators j;
        a_k ← index annihilators k; a_l ← index annihilators l;
        cc ← dot c_i c_j; aa ← dot a_k a_l;
        p ← dot cc aa;
        iadd s (scalar_mul g p))
      (i ← range; j ← range; k ← range; l ← range; [(i, j, k, l)]) Zero;
  finish one_body_term two_body_term.

(** The one-body double sum of the spec alone, with the module's own
    [compose], simplified. *)
Definition one_body_step (one_body : one_body_tensor)
    (annihilators creators : list SparsePauliOp)
    (i : nat) (s : accumulator) (j : nat) : result accumulator :=
  h ← entry2 one_body i j;
  c_i ← index creators i;
  a_j ← index annihilators j;
  ca ← compose c_i a_j;
  iadd s (scalar_mul h ca).

Definition one_body_hamiltonian (one_body : one_body_tensor)
    (annihilators creators : list SparsePauliOp) : result SparsePauliOp :=
  let n := length annihilators in
  s ←
    for_each (λ s i,
        for_each (one_body_step one_body annihilators creators i) (seq 0 n) s)
      (seq 0 n) Zero;
  match s with
  | Zero => Err AttributeError
  | Sum a => Ok (simplify a)
  end.

(** The spec's formula over a product of operators: the one-body double
    sum, the two-body quadruple sum, their combination with the factor
    0.5, then [simplify]. *)
Definition formula_with
    (product : SparsePauliOp → SparsePauliOp → result SparsePauliOp)
    (one_body : one_body_tensor) (two_body : two_body_tensor)
    (annihilators creators : list SparsePauliOp) : result SparsePauliOp :=
  let n := length annihilators in
  let range := seq 0 n in
  one_body_term ←
    for_each (λ s '(i, j),
        h ← entry2 one_body i j;
        c_i ← index creators i; a_j ← index annihilators j;
        p ← product c_i a_j;
        iadd s (scalar_mul h p))
      (i ← range; j ← range; [(i, j)]) Zero;
  two_body_term ←
    for_each (λ s '(i, j, k, l),
        g ← entry4 two_body i j k l;
        c_i ← index creators i; c_j ← index creators j;
        a_k ← index annihilators k; a_l ← index annihilators l;
        cc ← product c_i c_j; aa ← product a_k a_l;
        p ← product cc aa;
        iadd s (scalar_mul g p))
      (i ← range; j ← range; k ← range; l ← range; [(i, j, k, l)]) Zero;
  finish one_body_term two_body_term.

(** ** qiskit.QuantumCircuit, as far as the module uses it *)

Module Circuit.

(** The angle of a rotation: a free [Parameter] or a bound number. *)
Inductive angle : Type :=
| Free (name : string)
| Bound (value : Qc).

Inductive gate : Type :=
| RY (theta : angle) (q : nat)
| X (q : nat)
| CX (control target : nat).

Record QuantumCircuit : Type :=
  Circ { circ_qubits : nat; circ_data : list gate }.

(** [QuantumCircuit(num_qubits)] *)
Definition empty_circuit (n : nat) : QuantumCircuit := Circ n [].

(** Appending a gate checks every qubit index against the register, and
    that a gate does not name a qubit twice. *)
Definition gate_qubits (g : gate) : list nat :=
  match g with
  | RY _ q => [q]
  | X q => [q]
  | CX c t => [c; t]
  end.

Definition append (qc : QuantumCircuit) (g : gate) : result QuantumCircuit :=
  if forallb (λ q, bool_decide (q < circ_qubits qc)%nat) (gate_qubits g)
     && bool_decide (NoDup (gate_qubits g))
  then Ok (Circ (circ_qubits qc) (circ_data qc ++ [g]))
  else Err CircuitError.

Definition gate_parameter (g : gate) : list string :=
  match g with
  | RY (Free name) _ => [name]
  | _ => []
  end.

(** [qc.parameters]: the free parameters, each listed once (qiskit sorts
    them by name; the circuit of this module holds a single one). *)
Definition parameters (qc : QuantumCircuit) : list string :=
  remove_dups (g ← circ_data qc; gate_parameter g).

Definition bind_gate (env : list (string * Qc)) (g : gate) : gate :=
  match g with
  | RY (Free name) q =>
      match list_find (λ nv, nv.1 = name) env with
      | Some (_, (_, v)) => RY (Bound v) q
      | None => g
      end
  | _ => g
  end.

(** [qc.bind_parameters(values)] for a sequence of values: one value per
    free parameter, refused when the counts differ. *)
Definition bind_parameters (qc : QuantumCircuit) (values : list Qc)
  : result QuantumCircuit :=
  if decide (length values = length (parameters qc)) then
    Ok (Circ (circ_qubits qc)
          (bind_gate (zip (parameters qc) values) <$> circ_data qc))
  else Err ValueError.

End Circuit.

Import Circuit.

(** [create_initial_quantum_circuit(num_qubits)]; the [print] of the
    circuit is left out. *)
Definition create_initial_quantum_circuit (num_qubits : nat)
  : result QuantumCircuit :=
  let qc := empty_circuit num_qubits in
  let ry_param := Free "theta" in
  qc ← append qc (RY ry_param 1);
  qc ← append qc (X 1);
  qc ← append qc (CX 1 0);
  qc ← append qc (X 1);
  qc ← append qc (CX 0 2);
  qc ← append qc (CX 1 3);
  Ok qc.

(** ** Dense matrices: [SparsePauliOp.to_matrix] and numpy's [dot] *)

Module Dense.

Abbreviation matrix := (list (list complex)).

Definition pauli_matrix (z x : bool) : matrix :=
  match z, x with
  | false, false => [[cone; czero]; [czero; cone]]
  | false, true => [[czero; cone]; [cone; czero]]
  | true, false => [[cone; czero]; [czero; Cx (-1) 0]]
  | true, true => [[czero; Cx 0 (-1)]; [Cx 0 1; czero]]
  end.

(** [numpy.kron] *)
Definition kron (a b : matrix) : matrix :=
  ra ← a; (λ rb : list complex, x ← ra; cmul x <$> rb) <$> b.

(** The matrix of a pattern: qubit 0 is the rightmost Kronecker factor. *)
Definition pattern_matrix (p : pattern) : matrix :=
  foldl (λ m zx, kron (pauli_matrix zx.1 zx.2) m) [[cone]] (zip p.1 p.2).

Definition madd (a b : matrix) : matrix := zip_with (zip_with cadd) a b.
Definition mscale (c : complex) (a : matrix) : matrix :=
  (λ r : list complex, cmul c <$> r) <$> a.

Definition zeros (n : nat) : matrix := replicate n (replicate n czero).

Definition to_matrix (a : SparsePauliOp) : matrix :=
  foldl (λ m (t : term), madd m (mscale t.2 (pattern_matrix t.1)))
    (zeros (2 ^ num_qubits a)) (terms a).

(** The matrix product [a @ b]. *)
Definition column (b : matrix) (j : nat) : list complex :=
  (λ r : list complex, default czero (r !! j)) <$> b.

Definition matmul (a b : matrix) : matrix :=
  (λ ra : list complex,
     (λ j, foldl cadd czero (zip_with cmul ra (column b j)))
     <$> seq 0 (length (default [] (head b))))
  <$> a.

(** [numpy.dot(coeffs, values)] of a complex and a real vector. *)
Definition np_dot (cs : list complex) (vs : list Qc) : result complex :=
  if decide (length cs = length vs) then
    Ok (foldl cadd czero (zip_with (λ c v, cmul c (of_real v)) cs vs))
  else Err ValueError.

(** Python's [min] over a sequence of reals. *)
Definition py_min (xs : list Qc) : result Qc :=
  match xs with
  | [] => Err ValueError
  | x :: xs' => Ok (foldl (λ m y, if bool_decide (y < m) then y else m) x xs')
  end.

End Dense.

Import Dense.

(** ** numpy's [add] and the repulsion energy *)

(** [numpy.add(xs, ys)] on one-dimensional arrays of floats: arrays of one
    length are added slot by slot, an array of length 1 is broadcast over
    the other, and any other pair of lengths is refused.  The sum of two
    slots is the float64 sum, which rounds ([0.1 + 0.2] is
    [0.30000000000000004]): it is the function [float_add], an argument of
    the model. *)
Definition np_add (float_add : Qc → Qc → Qc) (xs ys : list Qc)
  : result (list Qc) :=
  if decide (length xs = length ys) then Ok (zip_with float_add xs ys)
  else
    match xs, ys with
    | [x], _ => Ok ((λ y, float_add x y) <$> ys)
    | _, [y] => Ok ((λ x, float_add x y) <$> xs)
    | _, _ => Err ValueError
    end.

(** [add_repulsion_energy(original_system, repulsion_energy_list)] *)
Definition add_repulsion_energy (float_add : Qc → Qc → Qc)
    (original_system repulsion_energy_list : list Qc) : result (list Qc) :=
  np_add float_add original_system repulsion_energy_list.

(** ** The variational driver

    The module calls four capabilities that live outside of it: the
    reader of integral files ([Utils.extract_data]), the estimator of
    expectation values ([Pauli_operations.estimate_expectation_values]),
    scipy's [minimize] and numpy's [linalg.eigh].  They are parameters of
    the development.  The first three act on the outside world (files, a
    sampling backend), which is threaded through every call; [eigh] is a
    function of its matrix. *)

(** A call that leaves the module, with the arguments it was given. *)
Inductive event : Type :=
| ExtractData (file : string)
| Minimize (starting_params : list Qc) (method : string).

(** An array whose slots from [k] on were overwritten by [vs]. *)
Definition fill {X} (k : nat) (vs xs : list X) : list X :=
  take k xs ++ vs ++ drop (k + length vs) xs.

Section Driver.

Context {World Backend ExecuteOpts OptimizeResult : Type}.

(** An external capability: it may raise, and it changes the world. *)
Definition extern (A : Type) : Type := World → result A * World.

(** The module's own state: the world and the record of the calls made. *)
Record state : Type := State { world : World; calls : list event }.

Definition M (A : Type) : Type := state → result A * state.

#[global] Instance M_ret : MRet M := λ A a s, (Ok a, s).

#[global] Instance M_bind : MBind M := λ A B f m s,
  match m s with
  | (Ok a, s') => f a s'
  | (Err e, s') => (Err e, s')
  end.

(** A pure computation that may raise. *)
Definition lift {A} (r : result A) : M A := λ s, (r, s).

(** A call of an external capability, recorded before it runs. *)
Definition call {A} (ev : event) (f : extern A) : M A := λ s,
  let '(r, w) := f (world s) in (r, State w (calls s ++ [ev])).

Fixpoint for_each_M {S A} (body : S → A → M S) (xs : list A) (s : S) : M S :=
  match xs with
  | [] => mret s
  | a :: xs' => s' ← body s a; for_each_M body xs' s'
  end.

Definition cost_fn : Type := list Qc → extern complex.
Definition minimizer_fn : Type := cost_fn → list Qc → string → extern OptimizeResult.

Variable extract_data :
  string → extern (Qc * one_body_tensor * two_body_tensor * Qc).
Variable estimate_expectation_values :
  list pattern → QuantumCircuit → Backend → ExecuteOpts → extern (list Qc).
Variable minimize : minimizer_fn.
Variable eigh : matrix → result (list Qc).

(** The content of a fresh [numpy.empty] array of floats. *)
Variable uninitialized : nat → Qc.

Definition np_empty (n : nat) : list Qc := uninitialized <$> seq 0 n.

(** The closure [cost_function(params)] of [minimize_expectation_value]. *)
Definition cost_function (observable : SparsePauliOp) (ansatz : QuantumCircuit)
    (backend : Backend) (execute_opts : ExecuteOpts) : cost_fn := λ params w,
  match bind_parameters ansatz params with
  | Err e => (Err e, w)
  | Ok circuit =>
      match estimate_expectation_values (paulis observable) circuit backend
              execute_opts w with
      | (Err e, w') => (Err e, w')
      | (Ok estimated_values, w') =>
          let estimated_energy := np_dot (coeffs observable) estimated_values in
          (estimated_energy, w')
      end
  end.

(** [minimize_expectation_value(observable, ansatz, starting_params,
    backend, minimizer, execute_opts)] *)
Definition minimize_expectation_value (observable : SparsePauliOp)
    (ansatz : QuantumCircuit) (starting_params : list Qc) (backend : Backend)
    (minimizer : minimizer_fn) (execute_opts : ExecuteOpts) : M OptimizeResult :=
  call (Minimize starting_params "COBYLA")
    (minimizer (cost_function observable ansatz backend execute_opts)
       starting_params "COBYLA").

(** [exact_minimal_eigenvalue(observable)] *)
Definition exact_minimal_eigenvalue (observable : SparsePauliOp) : result Qc :=
  eigenvalues ← eigh (to_matrix observable);
  py_min eigenvalues.

(** The four arrays that [calculate_hamiltonian_energy] fills. *)
Record arrays : Type := Arrays {
  distances : list Qc;
  repulsions : list Qc;
  optimized_results : list (option OptimizeResult);
  minimal_exact_eigenvalues : list Qc
}.

(** One iteration of the loop over [enumerate(data_file_Paths)]. *)
Definition file_step (annihilators creators : list SparsePauliOp)
    (state_circuit : QuantumCircuit) (backend : Backend)
    (execute_opts : ExecuteOpts) (arr : arrays) (entry : nat * string)
  : M arrays :=
  let '(index, file) := entry in
  '(distance, one_body, two_body, repulsion_energy) ←
    call (ExtractData file) (extract_data file);
  hamiltonian ←
    lift (build_qubit_hamiltonian one_body two_body annihilators creators);
  minimized_result ←
    minimize_expectation_value hamiltonian state_circuit [0] backend minimize
      execute_opts;
  let distances := <[index := distance]> (distances arr) in
  let repulsions := <[index := repulsion_energy]> (repulsions arr) in
  let optimized_results :=
    <[index := Some minimized_result]> (optimized_results arr) in
  eigenvalue ← lift (exact_minimal_eigenvalue hamiltonian);
  mret (Arrays distances repulsions optimized_results
          (<[index := eigenvalue]> (minimal_exact_eigenvalues arr))).

(** [calculate_hamiltonian_energy(data_file_Paths, annihilators,
    state_circuit, backend, execute_opts)]; the returned tuple is
    (distances, optimized_results, minimal_exact_eigenvalues, repulsions). *)
Definition calculate_hamiltonian_energy (data_file_Paths : list string)
    (annihilators : list SparsePauliOp) (state_circuit : QuantumCircuit)
    (backend : Backend) (execute_opts : ExecuteOpts)
  : M (list Qc * list (option OptimizeResult) * list Qc * list Qc) :=
  let n := length data_file_Paths in
  let creators := adjoint <$> annihilators in
  arr ←
    for_each_M
      (file_step annihilators creators state_circuit backend execute_opts)
      (zip (seq 0 n) data_file_Paths)
      (Arrays (np_empty n) (np_empty n) (replicate n None) (np_empty n));
  mret (distances arr, optimized_results arr, minimal_exact_eigenvalues arr,
        repulsions arr).

(** [get_dissociation_curve_parameters(data_file_Paths, num_orbitals,
    backend, execute_opts)] *)
Definition get_dissociation_curve_parameters (data_file_Paths : list string)
    (num_orbitals : nat) (backend : Backend) (execute_opts : ExecuteOpts)
  : M (list Qc * list (option OptimizeResult) * list Qc * list Qc) :=
  state_circuit ← lift (create_initial_quantum_circuit num_orbitals);
  let annihilators := annihilation_operators_with_jordan_wigner num_orbitals in
  calculate_hamiltonian_energy data_file_Paths annihilators state_circuit
    backend execute_opts.

(** *** The driver, one file at a time

    What one pass of the loop computes for its file, without the arrays:
    the distance, the result of the minimizer, the exact eigenvalue and the
    repulsion energy. *)
Definition process_file (annihilators creators : list SparsePauliOp)
    (state_circuit : QuantumCircuit) (backend : Backend)
    (execute_opts : ExecuteOpts) (file : string)
  : M (Qc * OptimizeResult * Qc * Qc) :=
  '(distance, one_body, two_body, repulsion_energy) ←
    call (ExtractData file) (extract_data file);
  hamiltonian ←
    lift (build_qubit_hamiltonian one_body two_body annihilators creators);
  minimized_result ←
    minimize_expectation_value hamiltonian state_circuit [0] backend minimize
      execute_opts;
  eigenvalue ← lift (exact_minimal_eigenvalue hamiltonian);
  mret (distance, minimized_result, eigenvalue, repulsion_energy).

(** The elements of a list handled one after the other, in order. *)
Fixpoint map_M {A B} (f : A → M B) (xs : list A) : M (list B) :=
  match xs with
  | [] => mret []
  | a :: xs' => b ← f a; bs ← map_M f xs'; mret (b :: bs)
  end.

(** The four assignments [array[index] = value] of one pass. *)
Definition store (arr : arrays) (k : nat)
    (v : Qc * OptimizeResult * Qc * Qc) : arrays :=
  Arrays (<[k:=v.1.1.1]> (distances arr)) (<[k:=v.2]> (repulsions arr))
    (<[k:=Some v.1.1.2]> (optimized_results arr))
    (<[k:=v.1.2]> (minimal_exact_eigenvalues arr)).

(** The arrays once the slots from [k] on hold the values of [rs]. *)
Definition fill_arrays (k : nat) (rs : list (Qc * OptimizeResult * Qc * Qc))
    (arr : arrays) : arrays :=
  Arrays (fill k ((λ v, v.1.1.1) <$> rs) (distances arr))
    (fill k ((λ v, v.2) <$> rs) (repulsions arr))
    (fill k ((λ v, Some v.1.1.2) <$> rs) (optimized_results arr))
    (fill k ((λ v, v.1.2) <$> rs) (minimal_exact_eigenvalues arr)).

(** Arrays of at least [m] slots each. *)
Definition arrays_at_least (m : nat) (arr : arrays) : Prop :=
  (m ≤ length (distances arr) ∧ m ≤ length (repulsions arr)
   ∧ m ≤ length (optimized_results arr)
   ∧ m ≤ length (minimal_exact_eigenvalues arr))%nat.

End Driver.

(** The calls a complete run over the files makes, in order. *)
Definition expected_calls (files : list string) : list event :=
  file ← files; [ExtractData file; Minimize [0] "COBYLA"].

(** [Σ r_k * v_k] over two real vectors. *)
Definition real_dot (rs vs : list Qc) : Qc :=
  foldr Qcplus 0%Qc (zip_with Qcmult rs vs).

(** *** A small instance of the outside world

    A world without state, an estimator that answers 1 for every Pauli
    string, and an observable with an imaginary coefficient. *)
Definition unit_estimator (ps : list pattern) (_ : QuantumCircuit)
    (_ _ : unit) : @extern unit (list Qc) :=
  λ w, (Ok (replicate (length ps) 1%Qc), w).

Definition one_parameter_circuit : QuantumCircuit :=
  Circ 1 [RY (Free "theta") 0].

Definition imaginary_z : SparsePauliOp := Op 1 [(([true], [false]), Cx 0 1)].

(** [numpy.zeros((n, n, n, n))] *)
Definition zero_two_body (n : nat) : two_body_tensor :=
  replicate n (replicate n (replicate n (replicate n czero))).

(** ** Notions used to state the properties *)

(** The row whose flag at qubit [k] is [f k]. *)
Definition tab (n : nat) (f : nat → bool) : bits := f <$> seq 0 n.

(** Flags on the qubits [0, i), on [0, i], and on qubit [i] alone. *)
Definition z_below (n i : nat) : bits := tab n (λ k, bool_decide (k < i)%nat).
Definition z_upto (n i : nat) : bits := tab n (λ k, bool_decide (k ≤ i)%nat).
Definition x_at (n i : nat) : bits := tab n (λ k, bool_decide (k = i)).

(** The operator that [annihilation_operators_with_jordan_wigner] builds
    for the orbital [i], in closed form (see [jordan_wigner_lookup]). *)
Definition jw (n i : nat) : SparsePauliOp :=
  Op n [((z_below n i, x_at n i), c_half); ((z_upto n i, x_at n i), c_half_j)].

(** An operator on [nq] qubits with at least one row. *)
Definition acts_on (nq : nat) (a : SparsePauliOp) : Prop :=
  num_qubits a = nq ∧ terms a ≠ [].

(** Two loops over the same sequence whose bodies keep their states
    related: they raise the same exception or end in related states. *)
Definition sim {S1 S2} (R : S1 → S2 → Prop) (r1 : result S1) (r2 : result S2)
  : Prop :=
  match r2 with
  | Err e => r1 = Err e
  | Ok s2 => ∃ s1, r1 = Ok s1 ∧ R s1 s2
  end.

(** An accumulator that holds rows with zero coefficients only. *)
Definition zero_rows (nq : nat) (s : accumulator) : Prop :=
  match s with
  | Zero => True
  | Sum a => num_qubits a = nq ∧ Forall (λ t : term, t.2 = czero) (terms a)
  end.

(** The pair of sums of the module against the one-body sum alone. *)
Definition sums_rel (nq : nat) (sums : accumulator * accumulator)
    (s : accumulator) : Prop :=
  sums.1 = s ∧
  match s with
  | Zero => sums.2 = Zero
  | Sum a => acts_on nq a ∧ zero_rows nq sums.2
  end.

(** Conjugation of a row, and the sum of the coefficients that a list of
    rows gives to one pattern. *)
Definition conj_term (t : term) : term := (t.1, cconj t.2).
Definition coefficients_of (p : pattern) (ts : list term) : list complex :=
  snd <$> filter (λ t : term, t.1 = p) ts.
Definition coefficient_sum (p : pattern) (ts : list term) : complex :=
  foldl cadd czero (coefficients_of p ts).

(** A list of rows that is its own conjugate, up to the order of the rows. *)
Definition self_conjugate (ts : list term) : Prop := ts ≡ₚ conj_term <$> ts.

(** The rows of [compose(adjoint(a_i), a_j)] for Jordan-Wigner operators. *)
Definition jw_pair (n i j : nat) : SparsePauliOp :=
  Op n (t1 ← terms (adjoint (jw n i)); compose_term t1 <$> terms (jw n j)).

(** The rows an accumulator holds. *)
Definition acc_terms (s : accumulator) : list term :=
  match s with
  | Zero => []
  | Sum a => terms a
  end.

Definition acc_on (nq : nat) (s : accumulator) : Prop :=
  match s with
  | Zero => True
  | Sum a => num_qubits a = nq
  end.

(** The rows that the pair [(i, j)] adds to the one-body sum. *)
Definition pair_rows (n : nat) (h : nat → nat → complex) (i j : nat)
  : list term :=
  terms (scalar_mul (h i j) (jw_pair n i j)).

(** [one_body[i][j]], or zero where the tensor has no such entry. *)
Definition entry_or_zero (one_body : one_body_tensor) (i j : nat) : complex :=
  match entry2 one_body i j with
  | Ok c => c
  | Err _ => czero
  end.

(** The spec's reading of a Hermitian sum: every coefficient is real, or
    is the conjugate of the coefficient of another pattern. *)
Definition conjugate_paired (a : SparsePauliOp) : Prop :=
  Forall (λ t : term,
      is_real t.2 ∨ Exists (λ u : term, u.1 ≠ t.1 ∧ u.2 = cconj t.2) (terms a))
    (terms a).

#[global] Instance is_real_dec c : Decision (is_real c).
Proof. unfold is_real. apply _. Defined.

#[global] Instance conjugate_paired_dec a : Decision (conjugate_paired a).
Proof. unfold conjugate_paired. apply _. Defined.

(** The outcome of a step that may only raise [e] and otherwise keeps [Inv]. *)
Definition ok_or {S} (e : exn) (Inv : S → Prop) (r : result S) : Prop :=
  match r with
  | Ok s => Inv s
  | Err e' => e' = e
  end.

(** Both sums of the module act on [nq] qubits. *)
Definition sums_on (nq : nat) (sums : accumulator * accumulator) : Prop :=
  acc_on nq sums.1 ∧ acc_on nq sums.2.

(** The pattern with a Z on qubit [i] alone. *)
Definition z_only (n i : nat) : pattern :=
  (tab n (λ k, bool_decide (k = i)), replicate n false).

(** An operator in the form [simplify] leaves behind: no pattern twice,
    and either the single row (identity, 0) or no coefficient close to 0. *)
Definition simplified (a : SparsePauliOp) : Prop :=
  NoDup (paulis a)
  ∧ (terms a = [(identity_pattern (num_qubits a), czero)]
     ∨ Forall (λ t : term, is_close_zero t.2 = false) (terms a)).

(** The tensor entry [1] at [(i, i)] and [0] elsewhere. *)
Definition unit_entry (i a b : nat) : complex :=
  if decide (a = i ∧ b = i) then cone else czero.

(** An operator on [nq] qubits whose rows have [nq] Z flags and [nq] X
    flags each. *)
Definition rows_on (nq : nat) (ts : list term) : Prop :=
  Forall (λ t : term, length t.1.1 = nq ∧ length t.1.2 = nq) ts.

Definition well_formed (nq : nat) (a : SparsePauliOp) : Prop :=
  num_qubits a = nq ∧ rows_on nq (terms a).

Definition acc_well_formed (nq : nat) (s : accumulator) : Prop :=
  match s with
  | Zero => True
  | Sum a => well_formed nq a
  end.

(** A matrix with [d] rows of [d] entries. *)
Definition square (d : nat) (m : matrix) : Prop :=
  length m = d ∧ Forall (λ r : list complex, length r = d) m.

(** The entry [m[i][j]] of a matrix, zero outside of it. *)
Definition matrix_entry (m : matrix) (i j : nat) : complex :=
  default czero (r ← m !! i; r !! j).

(** A matrix that equals its conjugate transpose on the indices below [d]. *)
Definition hermitian (d : nat) (m : matrix) : Prop :=
  ∀ i j, (i < d)%nat → (j < d)%nat →
    matrix_entry m i j = cconj (matrix_entry m j i).

(** An accumulator that holds an operator with a row or more. *)
Definition holds_rows (s : accumulator) : Prop :=
  match s with
  | Zero => False
  | Sum a => terms a ≠ []
  end.




(** * Properties *)

Local Open Scope nat_scope.

(** *** Rows given by a function of the qubit index *)

Lemma length_tab n f : length (tab n f) = n.
Proof. unfold tab. by rewrite length_fmap, length_seq. Qed.

Lemma lookup_tab n f k : k < n → tab n f !! k = Some (f k).
Proof.
  intros Hk. unfold tab. rewrite list_lookup_fmap, lookup_seq_lt by done.
  done.
Qed.

Lemma tab_ext n f g : (∀ k, k < n → f k = g k) → tab n f = tab n g.
Proof.
  intros H. unfold tab. apply list_fmap_ext.
  intros i k Hik. apply lookup_seq in Hik as [-> ?]. by apply H.
Qed.

Lemma tab_inj n f g k : tab n f = tab n g → k < n → f k = g k.
Proof.
  intros H Hk. pose proof (lookup_tab n f k Hk) as Hf.
  rewrite H, lookup_tab in Hf by done. congruence.
Qed.

Lemma zip_with_fmap_seq {A B C} (op : A → B → C) (f : nat → A) (g : nat → B) a n :
  zip_with op (f <$> seq a n) (g <$> seq a n)
  = (λ k, op (f k) (g k)) <$> seq a n.
Proof. revert a. induction n as [|n IH]; intros a; simpl; [done|]. by rewrite IH. Qed.

Lemma bxor_tab n f g : bxor (tab n f) (tab n g) = tab n (λ k, xorb (f k) (g k)).
Proof. apply zip_with_fmap_seq. Qed.

Lemma band_tab n f g : band (tab n f) (tab n g) = tab n (λ k, f k && g k).
Proof. apply zip_with_fmap_seq. Qed.

Lemma popcount_cons b l : popcount (b :: l) = Nat.b2n b + popcount l.
Proof. reflexivity. Qed.

Lemma popcount_fmap_false (h : nat → bool) a n :
  (∀ k, h k = false) → popcount (h <$> seq a n) = 0.
Proof.
  intros H. revert a. induction n as [|n IH]; intros a; [done|].
  cbn [seq]. rewrite fmap_cons, popcount_cons, H, IH. done.
Qed.

Lemma popcount_fmap_remove (h : nat → bool) i a n :
  a ≤ i < a + n →
  popcount (h <$> seq a n)
  = Nat.b2n (h i)
    + popcount ((λ k, h k && negb (bool_decide (k = i))) <$> seq a n).
Proof.
  revert a. induction n as [|n IH]; intros a Hi; [lia|].
  cbn [seq]. rewrite !fmap_cons, !popcount_cons.
  destruct (decide (a = i)) as [->|Hne].
  - rewrite bool_decide_eq_true_2 by done. rewrite andb_false_r. simpl.
    do 2 f_equal. apply list_fmap_ext. intros ? k Hk.
    apply lookup_seq in Hk as [-> _].
    rewrite bool_decide_eq_false_2 by lia. by rewrite andb_true_r.
  - rewrite bool_decide_eq_false_2 by done. rewrite andb_true_r.
    rewrite (IH (S a)) by lia. lia.
Qed.

Lemma popcount_tab_zero n h : (∀ k, h k = false) → popcount (tab n h) = 0.
Proof. apply popcount_fmap_false. Qed.

Lemma popcount_tab_ext n f g :
  (∀ k, k < n → f k = g k) → popcount (tab n f) = popcount (tab n g).
Proof. intros H. by rewrite (tab_ext n f g). Qed.

(** A row with flags at [i] and [j] at most. *)
Lemma popcount_tab_two n h i j :
  i < n → j < n → i ≠ j → (∀ k, k ≠ i → k ≠ j → h k = false) →
  popcount (tab n h) = Nat.b2n (h i) + Nat.b2n (h j).
Proof.
  intros Hi Hj Hij H. unfold tab.
  rewrite (popcount_fmap_remove h i) by lia.
  rewrite (popcount_fmap_remove _ j) by lia.
  rewrite popcount_fmap_false.
  - rewrite (bool_decide_eq_false_2 (j = i)) by done. rewrite andb_true_r. lia.
  - intros k. destruct (decide (k = i)) as [->|]; [by rewrite bool_decide_eq_true_2, andb_false_r|].
    destruct (decide (k = j)) as [->|]; [by rewrite (bool_decide_eq_true_2 (j = j)), andb_false_r|].
    by rewrite H.
Qed.

(** A row with a flag at [i] at most. *)
Lemma popcount_tab_one n h i :
  i < n → (∀ k, k ≠ i → h k = false) → popcount (tab n h) = Nat.b2n (h i).
Proof.
  intros Hi H. unfold tab.
  rewrite (popcount_fmap_remove h i) by lia.
  rewrite popcount_fmap_false; [lia|].
  intros k. destruct (decide (k = i)) as [->|]; [by rewrite bool_decide_eq_true_2, andb_false_r|].
  by rewrite H.
Qed.

Lemma tri_row_below n i : tri_row n (-1) i = z_below n i.
Proof.
  apply list_fmap_ext. intros _ k _. apply bool_decide_ext. lia.
Qed.

Lemma tri_row_upto n i : tri_row n 0 i = z_upto n i.
Proof.
  apply list_fmap_ext. intros _ k _. apply bool_decide_ext. lia.
Qed.

Lemma eye_row_at n i : eye_row n 0 i = x_at n i.
Proof.
  apply list_fmap_ext. intros _ k _. apply bool_decide_ext. lia.
Qed.

(** *** Complex arithmetic *)

Lemma complex_eq a b : re a = re b → im a = im b → a = b.
Proof. destruct a, b; simpl; congruence. Qed.

Lemma cmul_one_l c : cmul cone c = c.
Proof. apply complex_eq; simpl; ring. Qed.

Lemma cadd_zero_l c : cadd czero c = c.
Proof. apply complex_eq; simpl; ring. Qed.

Lemma pow_minus_j_cancel c : pow_minus_j (c mod 4 - c) = cone.
Proof.
  unfold pow_minus_j. rewrite Zminus_mod_idemp_l, Z.sub_diag. reflexivity.
Qed.

Lemma absorb_phase_from_symplectic p c :
  absorb_phase (Pauli p (count_y p mod 4)) c = (p, c).
Proof.
  unfold absorb_phase. simpl. by rewrite pow_minus_j_cancel, cmul_one_l.
Qed.

Lemma jordan_wigner_unfold n :
  annihilation_operators_with_jordan_wigner n = jw n <$> seq 0 n.
Proof.
  unfold annihilation_operators_with_jordan_wigner, zip3, tri, eye.
  cbv zeta. rewrite !zip_with_fmap_seq. rewrite <- list_fmap_compose.
  apply list_fmap_ext. intros _ i _. simpl.
  unfold sparse_pauli_op, from_symplectic. simpl.
  rewrite !absorb_phase_from_symplectic.
  by rewrite tri_row_below, tri_row_upto, eye_row_at.
Qed.

Lemma jordan_wigner_lookup n i :
  i < n → annihilation_operators_with_jordan_wigner n !! i = Some (jw n i).
Proof.
  intros Hi. rewrite jordan_wigner_unfold, list_lookup_fmap.
  by rewrite lookup_seq_lt.
Qed.

Lemma length_jordan_wigner n :
  length (annihilation_operators_with_jordan_wigner n) = n.
Proof. by rewrite jordan_wigner_unfold, length_fmap, length_seq. Qed.

Lemma cconj_half : cconj c_half = c_half.
Proof. apply complex_eq; simpl; [done|]. apply Qc_is_canon. reflexivity. Qed.

(** C3: for [i < n] the [i]-th annihilation operator has exactly two
    rows over [n] qubits, with the coefficients 0.5 and 0.5j; the first row
    has its Z flags on the qubits below [i] and its X flag on qubit [i]
    alone, the second row has the Z flag on qubit [i] as well; the adjoint
    keeps both patterns and has the coefficients 0.5 and -0.5j; the list
    holds [n] operators (4 for [n = 4]). *)
Theorem jordan_wigner_operator_shape (n i : nat) :
  i < n →
  length (annihilation_operators_with_jordan_wigner n) = n ∧
  ∃ zA zB x : bits,
    annihilation_operators_with_jordan_wigner n !! i
      = Some (Op n [((zA, x), c_half); ((zB, x), c_half_j)]) ∧
    adjoint (Op n [((zA, x), c_half); ((zB, x), c_half_j)])
      = Op n [((zA, x), c_half); ((zB, x), Cx 0 (- half))] ∧
    length zA = n ∧ length zB = n ∧ length x = n ∧
    ∀ k, k < n →
      zA !! k = Some (bool_decide (k < i)) ∧
      zB !! k = Some (bool_decide (k < i) || bool_decide (k = i)) ∧
      x !! k = Some (bool_decide (k = i)).
Proof.
  intros Hi. split; [apply length_jordan_wigner|].
  exists (z_below n i), (z_upto n i), (x_at n i).
  split; [by apply jordan_wigner_lookup|].
  split; [unfold adjoint; simpl; by rewrite cconj_half|].
  unfold z_below, z_upto, x_at. rewrite !length_tab.
  repeat split; try done; rewrite lookup_tab by done; try done.
  f_equal. repeat case_bool_decide; simpl; try done; lia.
Qed.

Lemma jordan_wigner_operator_shape_witness :
  length (annihilation_operators_with_jordan_wigner 4) = 4 ∧
  ∃ zA zB x : bits,
    annihilation_operators_with_jordan_wigner 4 !! 2
      = Some (Op 4 [((zA, x), c_half); ((zB, x), c_half_j)]) ∧
    adjoint (Op 4 [((zA, x), c_half); ((zB, x), c_half_j)])
      = Op 4 [((zA, x), c_half); ((zB, x), Cx 0 (- half))] ∧
    length zA = 4 ∧ length zB = 4 ∧ length x = 4 ∧
    ∀ k, k < 4 →
      zA !! k = Some (bool_decide (k < 2)) ∧
      zB !! k = Some (bool_decide (k < 2) || bool_decide (k = 2)) ∧
      x !! k = Some (bool_decide (k = 2)).
Proof. apply (jordan_wigner_operator_shape 4 2). lia. Defined.

(** *** Products of rows given by functions *)

Lemma compose_term_tab n f1 g1 c1 f2 g2 c2 :
  compose_term ((tab n f1, tab n g1), c1) ((tab n f2, tab n g2), c2)
  = ((tab n (λ k, xorb (f1 k) (f2 k)), tab n (λ k, xorb (g1 k) (g2 k))),
     cmul
       (pow_minus_j
          (Z.of_nat (popcount (tab n (λ k, f1 k && g1 k))) mod 4
           + Z.of_nat (popcount (tab n (λ k, f2 k && g2 k))) mod 4
           + 2 * Z.of_nat (popcount (tab n (λ k, f1 k && g2 k)))
           - Z.of_nat
               (popcount
                  (tab n (λ k, xorb (f1 k) (f2 k) && xorb (g1 k) (g2 k))))))
       (cmul c1 c2)).
Proof.
  unfold compose_term, absorb_phase, count_y. simpl.
  by rewrite !bxor_tab, !band_tab.
Qed.

Lemma compose_two_rows n t1 t2 u1 u2 :
  compose (Op n [t1; t2]) (Op n [u1; u2])
  = Ok (Op n [compose_term t1 u1; compose_term t1 u2;
              compose_term t2 u1; compose_term t2 u2]).
Proof. unfold compose. simpl. by rewrite decide_True. Qed.

Lemma add_same_qubits n l1 l2 : add (Op n l1) (Op n l2) = Ok (Op n (l1 ++ l2)).
Proof. unfold add. simpl. by rewrite decide_True. Qed.

Lemma tab_false n : tab n (λ _, false) = replicate n false.
Proof.
  unfold tab. generalize 0. induction n as [|n IH]; intros a; [done|].
  simpl. by rewrite IH.
Qed.

(** *** [simplify] on the two shapes met by the anticommutator *)

Lemma add_at_nil p c : add_at [] p c = [(p, cadd czero c)].
Proof. reflexivity. Qed.

Lemma add_at_cons_eq acc p s c : add_at ((p, s) :: acc) p c = (p, cadd s c) :: acc.
Proof. simpl. by rewrite decide_True. Qed.

Lemma add_at_cons_ne acc p q s c :
  q ≠ p → add_at ((q, s) :: acc) p c = (q, s) :: add_at acc p c.
Proof. intros. simpl. by rewrite decide_False. Qed.

Lemma simplify_cancel_pairs n (P1 P2 P3 P4 Q1 Q2 Q3 Q4 : pattern)
    c1 c2 c3 c4 d1 d2 d3 d4 :
  Q1 = P1 → Q2 = P3 → Q3 = P2 → Q4 = P4 →
  P1 ≠ P2 → P1 ≠ P3 → P1 ≠ P4 → P2 ≠ P3 → P2 ≠ P4 → P3 ≠ P4 →
  is_close_zero c1 = false → is_close_zero c2 = false →
  is_close_zero c3 = false → is_close_zero c4 = false →
  is_close_zero d1 = false → is_close_zero d2 = false →
  is_close_zero d3 = false → is_close_zero d4 = false →
  is_close_zero (cadd (cadd czero c1) d1) = true →
  is_close_zero (cadd (cadd czero c2) d3) = true →
  is_close_zero (cadd (cadd czero c3) d2) = true →
  is_close_zero (cadd (cadd czero c4) d4) = true →
  simplify (Op n [(P1, c1); (P2, c2); (P3, c3); (P4, c4);
                  (Q1, d1); (Q2, d2); (Q3, d3); (Q4, d4)])
  = zero_op n.
Proof.
  intros -> -> -> -> H12 H13 H14 H23 H24 H34.
  intros Hc1 Hc2 Hc3 Hc4 Hd1 Hd2 Hd3 Hd4 H1 H2 H3 H4.
  unfold simplify. cbn [terms num_qubits].
  rewrite !filter_cons_True by (unfold non_zero; cbn [snd]; by rewrite ?Hc1, ?Hc2, ?Hc3, ?Hc4, ?Hd1, ?Hd2, ?Hd3, ?Hd4).
  rewrite filter_nil.
  unfold group_sums. cbn [foldl fst snd].
  repeat first [ rewrite add_at_nil | rewrite add_at_cons_eq
               | rewrite add_at_cons_ne by congruence ].
  cbn [length]. rewrite (bool_decide_eq_false_2 (4 = 8)) by lia.
  rewrite andb_false_r.
  rewrite !filter_cons_False by (unfold non_zero; cbn [snd]; by rewrite ?H1, ?H2, ?H3, ?H4).
  by rewrite filter_nil.
Qed.

Lemma simplify_two_patterns n (P1 P2 Q1 Q2 Q3 Q4 Q5 Q6 Q7 Q8 : pattern)
    c1 c2 c3 c4 c5 c6 c7 c8 :
  Q1 = P1 → Q2 = P2 → Q3 = P2 → Q4 = P1 →
  Q5 = P1 → Q6 = P2 → Q7 = P2 → Q8 = P1 →
  P1 ≠ P2 →
  is_close_zero c1 = false → is_close_zero c2 = false →
  is_close_zero c3 = false → is_close_zero c4 = false →
  is_close_zero c5 = false → is_close_zero c6 = false →
  is_close_zero c7 = false → is_close_zero c8 = false →
  is_close_zero (cadd (cadd (cadd (cadd czero c1) c4) c5) c8) = false →
  is_close_zero (cadd (cadd (cadd (cadd czero c2) c3) c6) c7) = true →
  simplify (Op n [(Q1, c1); (Q2, c2); (Q3, c3); (Q4, c4);
                  (Q5, c5); (Q6, c6); (Q7, c7); (Q8, c8)])
  = Op n [(P1, cadd (cadd (cadd (cadd czero c1) c4) c5) c8)].
Proof.
  intros -> -> -> -> -> -> -> -> H12.
  intros Hc1 Hc2 Hc3 Hc4 Hc5 Hc6 Hc7 Hc8 H1 H2.
  unfold simplify. cbn [terms num_qubits].
  rewrite !filter_cons_True
    by (unfold non_zero; cbn [snd];
        by rewrite ?Hc1, ?Hc2, ?Hc3, ?Hc4, ?Hc5, ?Hc6, ?Hc7, ?Hc8).
  rewrite filter_nil.
  unfold group_sums. cbn [foldl fst snd].
  repeat first [ rewrite add_at_nil | rewrite add_at_cons_eq
               | rewrite add_at_cons_ne by congruence ].
  cbn [length]. rewrite (bool_decide_eq_false_2 (2 = 8)) by lia.
  rewrite andb_false_r.
  rewrite filter_cons_True by (unfold non_zero; cbn [snd]; by rewrite H1).
  rewrite filter_cons_False by (unfold non_zero; cbn [snd]; by rewrite H2).
  by rewrite filter_nil.
Qed.

(** *** The anticommutator of Jordan-Wigner operators *)

(** Flags of a row supported on the qubits [i] and [j]. *)
Ltac eval_flags := repeat (case_bool_decide; try lia); simpl.

Ltac solve_support := intros; eval_flags; try reflexivity.

Ltac closed_coeff := vm_compute; reflexivity.

Lemma pattern_z_ne n (f g : nat → bool) (x y : bits) k :
  k < n → f k ≠ g k → (tab n f, x) ≠ (tab n g, y).
Proof. intros Hk Hne [= H _]. by apply Hne, (tab_inj n). Qed.

Lemma pattern_ext n f g f' g' :
  (∀ k, k < n → f k = f' k) → (∀ k, k < n → g k = g' k) →
  (tab n f, tab n g) = (tab n f', tab n g').
Proof. intros Hf Hg. by rewrite (tab_ext n f f'), (tab_ext n g g'). Qed.

Ltac solve_pattern_eq n :=
  unfold identity_pattern; rewrite <- ?(tab_false n);
  apply pattern_ext; solve_support.

Ltac solve_pattern_ne n k :=
  unfold identity_pattern; rewrite <- ?(tab_false n);
  apply (pattern_z_ne n _ _ _ _ k); [lia | eval_flags; done].

Ltac solve_coeff := eval_flags; closed_coeff.

Lemma anticommutator_same n i :
  i < n →
  (x ← compose (jw n i) (adjoint (jw n i));
   y ← compose (adjoint (jw n i)) (jw n i);
   s ← add x y; Ok (simplify s))
  = Ok (Op n [(identity_pattern n, cone)]).
Proof.
  intros Hi. unfold jw, adjoint. cbn [terms num_qubits fmap list_fmap fst snd].
  rewrite !compose_two_rows. cbn [mbind result_bind].
  rewrite add_same_qubits. cbn [mbind result_bind app].
  unfold z_below, z_upto, x_at. rewrite !compose_term_tab.
  repeat (rewrite (popcount_tab_one n _ i) by (done || solve_support)).
  f_equal.
  erewrite (simplify_two_patterns n (identity_pattern n)
              (tab n (λ k, bool_decide (k = i)), replicate n false)).
  - do 3 f_equal. eval_flags.
    apply complex_eq; simpl; apply Qc_is_canon; closed_coeff.
  - solve_pattern_eq n.
  - solve_pattern_eq n.
  - solve_pattern_eq n.
  - solve_pattern_eq n.
  - solve_pattern_eq n.
  - solve_pattern_eq n.
  - solve_pattern_eq n.
  - solve_pattern_eq n.
  - solve_pattern_ne n i.
  - solve_coeff.
  - solve_coeff.
  - solve_coeff.
  - solve_coeff.
  - solve_coeff.
  - solve_coeff.
  - solve_coeff.
  - solve_coeff.
  - solve_coeff.
  - solve_coeff.
Qed.

Lemma anticommutator_distinct n i j :
  i < n → j < n → i ≠ j →
  (x ← compose (jw n i) (adjoint (jw n j));
   y ← compose (adjoint (jw n j)) (jw n i);
   s ← add x y; Ok (simplify s))
  = Ok (Op n [(identity_pattern n, czero)]).
Proof.
  intros Hi Hj Hij. unfold jw, adjoint.
  cbn [terms num_qubits fmap list_fmap fst snd].
  rewrite !compose_two_rows. cbn [mbind result_bind].
  rewrite add_same_qubits. cbn [mbind result_bind app].
  unfold z_below, z_upto, x_at. rewrite !compose_term_tab.
  repeat (rewrite (popcount_tab_two n _ i j) by (done || solve_support)).
  f_equal.
  apply simplify_cancel_pairs.
  all: try solve_pattern_eq n.
  all: try first [solve_pattern_ne n i | solve_pattern_ne n j].
  all: destruct (decide (i < j)); solve_coeff.
Qed.

(** C1: for all orbitals [i, j < n] the Jordan-Wigner annihilation
    operators and their adjoints satisfy
    [compose(a_i, a_j†) + compose(a_j†, a_i) = δ_ij · I] after
    [simplify]: the result is the single identity row, with coefficient 1
    when [i = j] and 0 otherwise. *)
Theorem jordan_wigner_anticommutation (n i j : nat) :
  i < n → j < n →
  ∃ a_i a_j,
    annihilation_operators_with_jordan_wigner n !! i = Some a_i ∧
    annihilation_operators_with_jordan_wigner n !! j = Some a_j ∧
    (x ← compose a_i (adjoint a_j);
     y ← compose (adjoint a_j) a_i;
     s ← add x y; Ok (simplify s))
    = Ok (Op n [(identity_pattern n, if decide (i = j) then cone else czero)]).
Proof.
  intros Hi Hj. exists (jw n i), (jw n j).
  split; [by apply jordan_wigner_lookup|].
  split; [by apply jordan_wigner_lookup|].
  destruct (decide (i = j)) as [->|Hij].
  - by apply anticommutator_same.
  - by apply anticommutator_distinct.
Qed.

Lemma jordan_wigner_anticommutation_witness :
  ∃ a_i a_j,
    annihilation_operators_with_jordan_wigner 3 !! 0 = Some a_i ∧
    annihilation_operators_with_jordan_wigner 3 !! 2 = Some a_j ∧
    (x ← compose a_i (adjoint a_j);
     y ← compose (adjoint a_j) a_i;
     s ← add x y; Ok (simplify s))
    = Ok (Op 3 [(identity_pattern 3, czero)]).
Proof. apply (jordan_wigner_anticommutation 3 0 2); lia. Defined.

(** *** The product order of [build_qubit_hamiltonian] *)

Ltac decide_by_computation :=
  apply (bool_decide_eq_true_1 _); vm_compute; reflexivity.

(** On one qubit, [a.compose(b)] is the matrix product [b . a] and
    [a.dot(b)] is [a . b], for all sixteen pairs of Pauli matrices. *)
Lemma compose_is_right_to_left (z1 x1 z2 x2 : bool) :
  let p := Op 1 [(([z1], [x1]), cone)] in
  let q := Op 1 [(([z2], [x2]), cone)] in
  (r ← compose p q; Ok (to_matrix r))
  = Ok (matmul (pauli_matrix z2 x2) (pauli_matrix z1 x1))
  ∧ (r ← dot p q; Ok (to_matrix r))
    = Ok (matmul (pauli_matrix z1 x1) (pauli_matrix z2 x2)).
Proof.
  destruct z1, x1, z2, x2; split; decide_by_computation.
Qed.

(** C2 as stated fails: at one orbital with [one_body = [[1]]] and a zero
    two-body tensor the module returns [0.5 I + 0.5 Z], whose matrix is
    the product [a . a†], while the formula with the creators as the left
    factors gives [0.5 I - 0.5 Z], whose matrix is [a† . a]. *)
Theorem build_qubit_hamiltonian_one_orbital :
  let a := annihilation_operators_with_jordan_wigner 1 in
  let built := Op 1 [(([false], [false]), c_half); (([true], [false]), c_half)] in
  let stated :=
    Op 1 [(([false], [false]), c_half); (([true], [false]), Cx (- half) 0)] in
  build_qubit_hamiltonian [[cone]] [[[[czero]]]] a (adjoint <$> a) = Ok built
  ∧ formula_hamiltonian [[cone]] [[[[czero]]]] a (adjoint <$> a) = Ok stated
  ∧ built ≠ stated
  ∧ ∀ a_0, a !! 0 = Some a_0 →
      to_matrix built = matmul (to_matrix a_0) (to_matrix (adjoint a_0))
      ∧ to_matrix stated = matmul (to_matrix (adjoint a_0)) (to_matrix a_0).
Proof.
  intros a built stated. subst a.
  split; [decide_by_computation|]. split; [decide_by_computation|].
  split; [by intros [=]|].
  intros a_0. rewrite jordan_wigner_lookup by lia. intros [= <-].
  split; decide_by_computation.
Qed.

(** *** Loops that may raise *)

Lemma for_each_sim {S1 S2 A} (R : S1 → S2 → Prop)
    (body1 : S1 → A → result S1) (body2 : S2 → A → result S2) xs s1 s2 :
  (∀ s1 s2 a, a ∈ xs → R s1 s2 → sim R (body1 s1 a) (body2 s2 a)) →
  R s1 s2 →
  sim R (for_each body1 xs s1) (for_each body2 xs s2).
Proof.
  revert s1 s2. induction xs as [|a xs IH]; intros s1 s2 Hbody HR.
  - simpl. eauto.
  - simpl. pose proof (Hbody s1 s2 a (list_elem_of_here _ _) HR) as Ha.
    unfold sim in Ha. destruct (body2 s2 a) as [s2'|e]; simpl.
    + destruct Ha as (s1' & -> & HR'). simpl. apply IH; [|done].
      intros ???? ?. apply Hbody; [by apply list_elem_of_further|done].
    + rewrite Ha. done.
Qed.

(** A loop whose body never raises and keeps an invariant. *)
Lemma for_each_inv {S A} (P : S → Prop) (body : S → A → result S) xs s :
  (∀ s a, a ∈ xs → P s → ∃ s', body s a = Ok s' ∧ P s') →
  P s → ∃ s', for_each body xs s = Ok s' ∧ P s'.
Proof.
  revert s. induction xs as [|a xs IH]; intros s Hbody HP.
  - simpl. eauto.
  - simpl. destruct (Hbody s a (list_elem_of_here _ _) HP) as (s' & -> & HP').
    simpl. apply IH; [|done].
    intros ??? ?. apply Hbody; [by apply list_elem_of_further|done].
Qed.

Lemma elem_of_seq_0 n k : k ∈ seq 0 n → k < n.
Proof. rewrite elem_of_seq. lia. Qed.

Lemma index_lt {A} (xs : list A) i :
  i < length xs → ∃ x, xs !! i = Some x ∧ index xs i = Ok x.
Proof.
  intros Hi. destruct (lookup_lt_is_Some_2 xs i Hi) as [x Hx].
  exists x. unfold index. by rewrite Hx.
Qed.

(** *** Operators on a common register *)

Lemma compose_acts_on nq a b :
  acts_on nq a → acts_on nq b → ∃ c, compose a b = Ok c ∧ acts_on nq c.
Proof.
  intros [Ha Hta] [Hb Htb]. unfold compose. rewrite decide_True by congruence.
  eexists. split; [done|]. split; [done|]. simpl.
  destruct (terms a) as [|t1 ?]; [done|]. destruct (terms b) as [|t2 ?]; [done|].
  done.
Qed.

Lemma scalar_mul_acts_on nq c a : acts_on nq a → acts_on nq (scalar_mul c a).
Proof.
  intros [Ha Hta]. unfold scalar_mul. destruct (is_zero c); split; simpl; try done.
  by destruct (terms a).
Qed.

Lemma acts_on_lookup nq (ops : list SparsePauliOp) i a :
  Forall (acts_on nq) ops → ops !! i = Some a → acts_on nq a.
Proof. intros H Hi. by eapply Forall_lookup_1. Qed.

Lemma is_zero_czero : is_zero czero = true.
Proof. reflexivity. Qed.

Lemma iadd_zero_rows nq s a :
  zero_rows nq s → num_qubits a = nq →
  ∃ s', iadd s (scalar_mul czero a) = Ok s' ∧ zero_rows nq s' ∧ s' ≠ Zero.
Proof.
  intros Hs Ha. unfold scalar_mul. rewrite is_zero_czero.
  destruct s as [|b]; simpl.
  - eexists. split; [done|]. split; [|done]. split; [done|].
    simpl. by repeat constructor.
  - destruct Hs as [Hb Hz]. unfold add. simpl. rewrite decide_True by congruence.
    simpl. eexists. split; [done|]. split; [|done]. split; [done|]. simpl.
    apply Forall_app. split; [done|]. by repeat constructor.
Qed.

(** *** [simplify] ignores appended rows that are close to zero *)

Lemma filter_all {A} (P : A → Prop) `{∀ x, Decision (P x)} (l : list A) :
  length (filter P l) = length l → filter P l = l.
Proof.
  induction l as [|x l IH]; [done|].
  rewrite filter_cons. destruct (decide (P x)); simpl.
  - intros [= Hl]. by rewrite IH.
  - pose proof (length_filter P l). lia.
Qed.

Lemma filter_none {A} (P : A → Prop) `{∀ x, Decision (P x)} (l : list A) :
  Forall (λ x, ¬ P x) l → filter P l = [].
Proof.
  induction 1 as [|x l Hx _ IH]; [done|]. by rewrite filter_cons_False.
Qed.

Lemma length_add_at acc p c :
  length acc ≤ length (add_at acc p c) ≤ S (length acc).
Proof.
  induction acc as [|[q s] acc IH]; simpl; [lia|].
  destruct (decide (q = p)); simpl; lia.
Qed.

Lemma add_at_fresh acc p c :
  length (add_at acc p c) = S (length acc) → add_at acc p c = acc ++ [(p, c)].
Proof.
  induction acc as [|[q s] acc IH]; simpl.
  - by rewrite cadd_zero_l.
  - destruct (decide (q = p)); simpl; [lia|]. intros [= Hl]. by rewrite IH.
Qed.

Lemma length_foldl_add_at (ts acc : list term) :
  length acc ≤ length (foldl (λ acc (t : term), add_at acc t.1 t.2) acc ts)
  ≤ length acc + length ts.
Proof.
  revert acc. induction ts as [|t ts IH]; intros acc; simpl; [lia|].
  pose proof (IH (add_at acc t.1 t.2)). pose proof (length_add_at acc t.1 t.2).
  lia.
Qed.

Lemma foldl_add_at_fresh (ts acc : list term) :
  length (foldl (λ acc (t : term), add_at acc t.1 t.2) acc ts)
  = length acc + length ts →
  foldl (λ acc (t : term), add_at acc t.1 t.2) acc ts = acc ++ ts.
Proof.
  revert acc. induction ts as [|[p c] ts IH]; intros acc; simpl.
  - by rewrite app_nil_r.
  - intros Hl.
    pose proof (length_foldl_add_at ts (add_at acc p c)) as Hb.
    pose proof (length_add_at acc p c) as Ha. simpl in *.
    rewrite IH by lia. rewrite add_at_fresh by lia.
    by rewrite <- app_assoc.
Qed.

Lemma group_sums_all ts : length (group_sums ts) = length ts → group_sums ts = ts.
Proof. intros H. unfold group_sums in *. by rewrite foldl_add_at_fresh. Qed.

Lemma simplify_app_zeros nq (ta zs : list term) :
  ta ≠ [] → Forall (λ t : term, is_close_zero t.2 = true) zs →
  simplify (Op nq (ta ++ zs)) = simplify (Op nq ta).
Proof.
  intros Hta Hzs. destruct zs as [|z zs]; [by rewrite app_nil_r|].
  unfold simplify. cbn [terms num_qubits].
  rewrite filter_app.
  rewrite (filter_none _ (z :: zs)), app_nil_r; [|].
  2:{ eapply Forall_impl; [done|]. intros t Ht. unfold non_zero. by rewrite Ht. }
  rewrite (bool_decide_eq_false_2 (_ = length (ta ++ z :: zs))); [simpl|].
  2:{ pose proof (length_filter (λ t, non_zero t = true) ta).
      rewrite length_app. simpl. lia. }
  destruct (bool_decide (length (filter _ ta) = length ta)) eqn:H1; simpl; [|done].
  destruct (bool_decide (length (group_sums (filter _ ta)) = _)) eqn:H2; simpl; [|done].
  apply bool_decide_eq_true_1 in H1, H2.
  pose proof (filter_all _ _ H1) as Hf.
  rewrite (group_sums_all _ H2), !Hf. by destruct ta.
Qed.

(** *** A zero two-body tensor *)

Section ZeroTwoBody.

Context (one_body : one_body_tensor) (two_body : two_body_tensor).
Context (annihilators creators : list SparsePauliOp) (nq : nat).

Let n := length annihilators.

Hypothesis same_length : length creators = n.
Hypothesis annihilators_ok : Forall (acts_on nq) annihilators.
Hypothesis creators_ok : Forall (acts_on nq) creators.
Hypothesis two_body_zero :
  ∀ i j k l, i < n → j < n → k < n → l < n →
    entry4 two_body i j k l = Ok czero.

Lemma index_annihilator k :
  k < n → ∃ a, index annihilators k = Ok a ∧ acts_on nq a.
Proof.
  intros Hk. destruct (index_lt annihilators k Hk) as (a & Ha & ->).
  exists a. split; [done|].
  exact (acts_on_lookup nq annihilators k a annihilators_ok Ha).
Qed.

Lemma index_creator k :
  k < n → ∃ c, index creators k = Ok c ∧ acts_on nq c.
Proof.
  intros Hk. rewrite <- same_length in Hk.
  destruct (index_lt creators k Hk) as (c & Hc & ->).
  exists c. split; [done|].
  exact (acts_on_lookup nq creators k c creators_ok Hc).
Qed.

Lemma two_body_step_zero a_ij i j k l s :
  acts_on nq a_ij → i < n → j < n → k < n → l < n → zero_rows nq s →
  ∃ s', two_body_step two_body annihilators a_ij i j k s l = Ok s'
        ∧ zero_rows nq s'.
Proof.
  intros Hij Hi Hj Hk Hl Hs. unfold two_body_step.
  destruct (index_annihilator k Hk) as (a_k & -> & Hak).
  destruct (index_annihilator l Hl) as (a_l & -> & Hal). cbn [mbind result_bind].
  destruct (compose_acts_on nq a_k a_l Hak Hal) as (a_kl & -> & Hakl).
  cbn [mbind result_bind]. rewrite two_body_zero by done. cbn [mbind result_bind].
  destruct (compose_acts_on nq a_ij a_kl Hij Hakl) as (p & -> & [Hp _]).
  cbn [mbind result_bind].
  destruct (iadd_zero_rows nq s p Hs Hp) as (s' & -> & Hs' & _). eauto.
Qed.

Lemma two_body_loops_zero a_ij i j s :
  acts_on nq a_ij → i < n → j < n → zero_rows nq s →
  ∃ s',
    for_each (λ tbs k,
        for_each (two_body_step two_body annihilators a_ij i j k) (seq 0 n) tbs)
      (seq 0 n) s = Ok s'
    ∧ zero_rows nq s'.
Proof.
  intros Hij Hi Hj Hs. apply for_each_inv; [|done].
  intros s1 k Hk%elem_of_seq_0 Hs1. apply for_each_inv; [|done].
  intros s2 l Hl%elem_of_seq_0 Hs2. by apply two_body_step_zero.
Qed.

Lemma iadd_acts_on s a :
  match s with Zero => True | Sum b => acts_on nq b end →
  acts_on nq a →
  ∃ b, iadd s a = Ok (Sum b) ∧ acts_on nq b.
Proof.
  intros Hs Ha. destruct s as [|b]; simpl; [by exists a|].
  destruct Ha as [Ha Hta], Hs as [Hb Htb].
  unfold add. rewrite decide_True by congruence.
  simpl. eexists. split; [done|]. split; [done|]. simpl. by destruct (terms b).
Qed.

Lemma pair_step_sim i j sums s :
  i < n → j < n → sums_rel nq sums s →
  sim (sums_rel nq)
    (pair_step one_body two_body annihilators creators i sums j)
    (one_body_step one_body annihilators creators i s j).
Proof.
  intros Hi Hj [Hs1 Hs2]. unfold pair_step, one_body_step.
  destruct (entry2 one_body i j) as [h|e]; [|done]. cbn [mbind result_bind].
  destruct (index_creator i Hi) as (c_i & Hci & Hci_ok). rewrite Hci.
  destruct (index_annihilator j Hj) as (a_j & -> & Haj_ok).
  cbn [mbind result_bind].
  destruct (compose_acts_on nq c_i a_j Hci_ok Haj_ok) as (ca & -> & Hca).
  cbn [mbind result_bind].
  destruct (iadd_acts_on s (scalar_mul h ca)) as (b & Hb & Hb_ok).
  { destruct s; [done|]. by destruct Hs2. }
  { by apply scalar_mul_acts_on. }
  rewrite Hs1, Hb. cbn [mbind result_bind sim].
  destruct (index_creator j Hj) as (c_j & -> & Hcj_ok). cbn [mbind result_bind].
  destruct (compose_acts_on nq c_i c_j Hci_ok Hcj_ok) as (a_ij & -> & Haij).
  cbn [mbind result_bind].
  destruct (two_body_loops_zero a_ij i j sums.2 Haij Hi Hj) as (t & Ht & Ht_ok).
  { destruct s; [by rewrite Hs2|]. by destruct Hs2. }
  fold n. rewrite Ht. cbn [mbind result_bind].
  eexists. split; [done|]. by split.
Qed.

Lemma is_close_zero_half_zero : is_close_zero (cmul c_half czero) = true.
Proof. vm_compute. reflexivity. Qed.

Lemma finish_zero_rows a s :
  acts_on nq a → zero_rows nq s → finish (Sum a) s = Ok (simplify a).
Proof.
  intros [Ha Hta] Hs. destruct s as [|b]; simpl; [done|].
  destruct Hs as [Hb Hz]. unfold scalar_mul, add.
  replace (is_zero c_half) with false by (symmetry; vm_compute; reflexivity).
  simpl. rewrite decide_True by congruence. simpl. f_equal.
  destruct a as [na ta]. simpl in *. subst na.
  apply simplify_app_zeros; [done|].
  apply Forall_fmap. eapply Forall_impl; [done|].
  intros t Ht. simpl. rewrite Ht. apply is_close_zero_half_zero.
Qed.

Lemma build_zero_two_body :
  build_qubit_hamiltonian one_body two_body annihilators creators
  = one_body_hamiltonian one_body annihilators creators.
Proof.
  unfold build_qubit_hamiltonian, one_body_hamiltonian. fold n.
  assert (sim (sums_rel nq)
    (for_each (λ sums i,
        for_each (pair_step one_body two_body annihilators creators i)
          (seq 0 n) sums) (seq 0 n) (Zero, Zero))
    (for_each (λ s i,
        for_each (one_body_step one_body annihilators creators i) (seq 0 n) s)
      (seq 0 n) Zero)) as Hsim.
  { apply for_each_sim; [|done].
    intros s1 s2 i Hi%elem_of_seq_0 HR. apply for_each_sim; [|done].
    intros s1' s2' j Hj%elem_of_seq_0 HR'. by apply pair_step_sim. }
  unfold sim in Hsim.
  destruct (for_each (λ s i, for_each (one_body_step _ _ _ i) _ s) _ Zero)
    as [s|e]; [|by rewrite Hsim].
  destruct Hsim as ([s1 s2] & -> & Hs1 & Hs2). simpl in *. subst s1.
  destruct s as [|a]; [by subst s2|].
  destruct Hs2 as [Ha Hz]. by apply finish_zero_rows.
Qed.

End ZeroTwoBody.

(** *** What [group_sums] holds *)

Lemma keys_add_at acc q c :
  (add_at acc q c).*1 = if decide (q ∈ acc.*1) then acc.*1 else acc.*1 ++ [q].
Proof.
  induction acc as [|[r s] acc IH].
  - case_decide as H; [by apply elem_of_nil in H|done].
  - cbn [add_at]. rewrite !fmap_cons. cbn [fst].
    destruct (decide (r = q)) as [->|Hne].
    + clear IH. case_decide as H; [done|]. exfalso. apply H, list_elem_of_here.
    + rewrite fmap_cons, IH. cbn [fst].
      case_decide as H1; case_decide as H2; try done.
      * exfalso. apply H2. by apply list_elem_of_further.
      * exfalso. apply elem_of_cons in H2 as [->|?]; done.
Qed.

Lemma NoDup_keys_add_at acc q c : NoDup acc.*1 → NoDup (add_at acc q c).*1.
Proof.
  intros Hnd. rewrite keys_add_at. destruct (decide (q ∈ acc.*1)); [done|].
  apply NoDup_app. split; [done|]. split; [|apply NoDup_singleton].
  intros x Hx ->%list_elem_of_singleton. done.
Qed.

Lemma elem_of_add_at acc q c p s :
  NoDup acc.*1 → (p, s) ∈ add_at acc q c →
  (p ≠ q ∧ (p, s) ∈ acc)
  ∨ (p = q ∧ ((∃ s1, (p, s1) ∈ acc ∧ s = cadd s1 c)
              ∨ ((p ∉ acc.*1) ∧ s = cadd czero c))).
Proof.
  induction acc as [|[r s0] acc IH]; simpl; intros Hnd Hin.
  - apply list_elem_of_singleton in Hin as [= -> ->]. right. split; [done|].
    right. split; [apply not_elem_of_nil|done].
  - apply NoDup_cons in Hnd as [Hr Hnd].
    destruct (decide (r = q)) as [->|Hne].
    + apply elem_of_cons in Hin as [[= -> ->]|Hin].
      * right. split; [done|]. left. exists s0. split; [apply list_elem_of_here|done].
      * left. split; [|by apply list_elem_of_further].
        intros ->. apply Hr. apply list_elem_of_fmap. by exists (q, s).
    + apply elem_of_cons in Hin as [[= -> ->]|Hin].
      * left. split; [done|apply list_elem_of_here].
      * destruct (IH Hnd Hin) as [[? ?]|[-> [(s1 & ? & ->)|[Hni ->]]]].
        -- left. split; [done|by apply list_elem_of_further].
        -- right. split; [done|]. left. exists s1.
           split; [by apply list_elem_of_further|done].
        -- right. split; [done|]. right. split; [|done].
           intros [?|?]%elem_of_cons; [congruence|done].
Qed.

Lemma coefficients_of_cons_eq p c ts :
  coefficients_of p ((p, c) :: ts) = c :: coefficients_of p ts.
Proof. unfold coefficients_of. by rewrite filter_cons_True. Qed.

Lemma coefficients_of_cons_ne p q c ts :
  p ≠ q → coefficients_of p ((q, c) :: ts) = coefficients_of p ts.
Proof. intros. unfold coefficients_of. rewrite filter_cons_False; [done|]. simpl. congruence. Qed.

Lemma elem_of_foldl_add_at ts acc p s :
  NoDup acc.*1 →
  (p, s) ∈ foldl (λ acc (t : term), add_at acc t.1 t.2) acc ts →
  (∃ s0, (p, s0) ∈ acc ∧ s = foldl cadd s0 (coefficients_of p ts))
  ∨ ((p ∉ acc.*1) ∧ s = foldl cadd czero (coefficients_of p ts)).
Proof.
  revert acc. induction ts as [|[q c] ts IH]; intros acc Hnd Hin; simpl in *.
  - left. by exists s.
  - destruct (IH _ (NoDup_keys_add_at acc q c Hnd) Hin)
      as [(s0 & Hs0 & ->)|[Hni ->]].
    + destruct (elem_of_add_at _ _ _ _ _ Hnd Hs0)
        as [[Hne ?]|[-> [(s1 & ? & ->)|[Hni ->]]]].
      * left. exists s0. by rewrite coefficients_of_cons_ne.
      * left. exists s1. by rewrite coefficients_of_cons_eq.
      * right. by rewrite coefficients_of_cons_eq.
    + rewrite keys_add_at in Hni. right.
      destruct (decide (q ∈ acc.*1)) as [Hq|Hq].
      * rewrite coefficients_of_cons_ne by (intros ->; done). done.
      * rewrite not_elem_of_app, list_elem_of_singleton in Hni.
        destruct Hni as [? ?]. by rewrite coefficients_of_cons_ne.
Qed.

Lemma elem_of_group_sums ts p s :
  (p, s) ∈ group_sums ts → s = coefficient_sum p ts.
Proof.
  intros Hin. apply elem_of_foldl_add_at in Hin; [|apply NoDup_nil_2].
  destruct Hin as [(s0 & []%elem_of_nil & _)|[_ ->]]. done.
Qed.

(** *** Sums of coefficients under conjugation *)

Lemma cadd_comm a b : cadd a b = cadd b a.
Proof. apply complex_eq; simpl; ring. Qed.

Lemma cadd_assoc a b c : cadd a (cadd b c) = cadd (cadd a b) c.
Proof. apply complex_eq; simpl; ring. Qed.

Lemma cconj_add a b : cconj (cadd a b) = cadd (cconj a) (cconj b).
Proof. apply complex_eq; simpl; ring. Qed.

Lemma cconj_mul a b : cconj (cmul a b) = cmul (cconj a) (cconj b).
Proof. apply complex_eq; simpl; ring. Qed.

Lemma cconj_zero : cconj czero = czero.
Proof. apply complex_eq; simpl; ring. Qed.

Lemma is_close_zero_conj c : is_close_zero (cconj c) = is_close_zero c.
Proof.
  unfold is_close_zero. apply bool_decide_ext. simpl.
  replace (- im c * - im c)%Qc with (im c * im c)%Qc by ring. done.
Qed.

Lemma self_conjugate_real c : c = cconj c → is_real c.
Proof.
  unfold is_real. intros H. apply (f_equal im) in H. simpl in H.
  assert ((1 + 1) * im c = 0)%Qc as H2.
  { transitivity (im c + im c)%Qc; [ring|]. rewrite H at 1. ring. }
  apply Qcmult_integral in H2 as [H2|H2]; [|done].
  apply (f_equal this) in H2. vm_compute in H2. discriminate H2.
Qed.

Lemma foldl_cadd a l : foldl cadd a l = cadd a (foldr cadd czero l).
Proof.
  revert a. induction l as [|x l IH]; intros a; simpl.
  - apply complex_eq; simpl; ring.
  - rewrite IH. by rewrite cadd_assoc.
Qed.

Lemma foldr_cadd_perm l1 l2 :
  l1 ≡ₚ l2 → foldr cadd czero l1 = foldr cadd czero l2.
Proof.
  induction 1 as [|x l1 l2 _ IH|x y l|l1 l2 l3 _ IH1 _ IH2]; simpl.
  - done.
  - by rewrite IH.
  - by rewrite !cadd_assoc, (cadd_comm y x).
  - by rewrite IH1.
Qed.

Lemma coefficient_sum_perm p ts1 ts2 :
  ts1 ≡ₚ ts2 → coefficient_sum p ts1 = coefficient_sum p ts2.
Proof.
  intros H. unfold coefficient_sum, coefficients_of. rewrite !foldl_cadd.
  f_equal. apply foldr_cadd_perm. by rewrite H.
Qed.

Lemma coefficients_of_conj p ts :
  coefficients_of p (conj_term <$> ts) = cconj <$> coefficients_of p ts.
Proof.
  unfold coefficients_of. induction ts as [|[q c] ts IH]; [done|].
  rewrite fmap_cons. unfold conj_term at 1. cbn [fst snd].
  destruct (decide (q = p)) as [->|Hne].
  - rewrite !filter_cons_True by done. rewrite !fmap_cons. by rewrite IH.
  - rewrite !filter_cons_False by done. done.
Qed.

Lemma coefficient_sum_conj p ts :
  coefficient_sum p (conj_term <$> ts) = cconj (coefficient_sum p ts).
Proof.
  unfold coefficient_sum. rewrite coefficients_of_conj, !foldl_cadd.
  rewrite cconj_add, cconj_zero. f_equal.
  induction (coefficients_of p ts) as [|c l IH].
  - symmetry. apply cconj_zero.
  - rewrite fmap_cons. cbn [foldr]. by rewrite cconj_add, IH.
Qed.

Lemma filter_non_zero_conj (ts : list term) :
  filter (λ t, non_zero t = true) (conj_term <$> ts)
  = conj_term <$> filter (λ t, non_zero t = true) ts.
Proof.
  induction ts as [|t ts IH]; [done|]. rewrite fmap_cons.
  assert (non_zero (conj_term t) = non_zero t) as Hnz.
  { unfold non_zero, conj_term. simpl. by rewrite is_close_zero_conj. }
  destruct (non_zero t) eqn:Ht.
  - rewrite !filter_cons_True by congruence. by rewrite fmap_cons, IH.
  - rewrite !filter_cons_False by congruence. done.
Qed.

Lemma group_sums_real (ts : list term) p s :
  self_conjugate ts →
  (p, s) ∈ group_sums (filter (λ t, non_zero t = true) ts) → is_real s.
Proof.
  intros Hts Hin%elem_of_group_sums. apply self_conjugate_real.
  subst s. rewrite <- coefficient_sum_conj, <- filter_non_zero_conj.
  apply coefficient_sum_perm. unfold self_conjugate in Hts. by rewrite <- Hts.
Qed.

Lemma simplify_real nq ts :
  self_conjugate ts →
  Forall (λ t : term, is_real t.2) (terms (simplify (Op nq ts))).
Proof.
  intros Hts. apply Forall_forall. intros [p s] Hin. simpl.
  unfold simplify in Hin. cbn [terms num_qubits] in Hin.
  destruct (bool_decide (length (filter _ ts) = length ts)) eqn:H1; simpl in Hin.
  - destruct (bool_decide (length (group_sums (filter _ ts)) = _)) eqn:H2;
      simpl in Hin.
    + apply bool_decide_eq_true_1 in H1, H2.
      apply (group_sums_real ts p s Hts).
      rewrite (group_sums_all _ H2). by rewrite (filter_all _ _ H1).
    + destruct (filter _ (group_sums _)) as [|k ks] eqn:Hk; simpl in Hin.
      * apply list_elem_of_singleton in Hin as [= _ ->]. done.
      * rewrite <- Hk in Hin. apply list_elem_of_filter in Hin as [_ Hin].
        by apply (group_sums_real ts p s Hts).
  - destruct (filter _ (group_sums _)) as [|k ks] eqn:Hk; simpl in Hin.
    + apply list_elem_of_singleton in Hin as [= _ ->]. done.
    + rewrite <- Hk in Hin. apply list_elem_of_filter in Hin as [_ Hin].
      by apply (group_sums_real ts p s Hts).
Qed.

(** *** Permutations of nested comprehensions *)

Lemma bind_nil_r {A B} (l : list A) : l ≫= (λ _, @nil B) = [].
Proof. induction l as [|a l IH]; [done|]. by rewrite bind_cons, IH. Qed.

Lemma bind_app_perm {A B} (f g : A → list B) (l : list A) :
  l ≫= (λ a, f a ++ g a) ≡ₚ (l ≫= f) ++ (l ≫= g).
Proof.
  induction l as [|a l IH]; [done|]. rewrite !bind_cons, IH.
  rewrite <- !app_assoc. apply Permutation_app_head.
  rewrite !app_assoc. apply Permutation_app_tail, Permutation_app_comm.
Qed.

Lemma bind_swap {A B C} (F : A → B → list C) (l1 : list A) (l2 : list B) :
  (a ← l1; b ← l2; F a b) ≡ₚ (b ← l2; a ← l1; F a b).
Proof.
  induction l1 as [|a l1 IH].
  - simpl. by rewrite bind_nil_r.
  - rewrite bind_cons, IH.
    rewrite <- (bind_app_perm (F a) (λ b, l1 ≫= (λ a, F a b))).
    apply Permutation_refl'. apply list_bind_ext; [|done].
    intros b. by rewrite bind_cons.
Qed.

Lemma bind_perm_ext {A B} (f g : A → list B) (l : list A) :
  (∀ a, a ∈ l → f a ≡ₚ g a) → l ≫= f ≡ₚ l ≫= g.
Proof.
  induction l as [|a l IH]; intros H; [done|]. rewrite !bind_cons.
  apply Permutation_app.
  - apply H, list_elem_of_here.
  - apply IH. intros b Hb. by apply H, list_elem_of_further.
Qed.

Lemma fmap_bind_list {A B C} (h : B → C) (f : A → list B) (l : list A) :
  h <$> (l ≫= f) = l ≫= (λ a, h <$> f a).
Proof.
  induction l as [|a l IH]; [done|]. by rewrite !bind_cons, fmap_app, IH.
Qed.

(** *** Loops that append rows *)

Lemma for_each_collect {A} nq (F : A → list term)
    (body : accumulator → A → result accumulator) xs s :
  (∀ s a, a ∈ xs → acc_on nq s →
     ∃ s', body s a = Ok s' ∧ acc_on nq s' ∧ acc_terms s' = acc_terms s ++ F a) →
  acc_on nq s →
  ∃ s', for_each body xs s = Ok s' ∧ acc_on nq s'
        ∧ acc_terms s' = acc_terms s ++ (xs ≫= F).
Proof.
  revert s. induction xs as [|a xs IH]; intros s Hbody Hs.
  - exists s. simpl. by rewrite app_nil_r.
  - destruct (Hbody s a (list_elem_of_here _ _) Hs) as (s1 & H1 & Hs1 & Ht1).
    destruct (IH s1) as (s2 & H2 & Hs2 & Ht2); [|done|].
    { intros ??? ?. apply Hbody; [by apply list_elem_of_further|done]. }
    exists s2. split; [simpl; by rewrite H1|]. split; [done|].
    by rewrite Ht2, Ht1, bind_cons, app_assoc.
Qed.

Lemma iadd_collect nq s a :
  acc_on nq s → num_qubits a = nq →
  ∃ s', iadd s a = Ok s' ∧ acc_on nq s' ∧ acc_terms s' = acc_terms s ++ terms a.
Proof.
  intros Hs Ha. destruct s as [|b]; simpl.
  - by exists (Sum a).
  - simpl in Hs. unfold add. rewrite decide_True by congruence. simpl.
    eexists. split; [done|]. by split.
Qed.

(** *** The one-body sum over Jordan-Wigner operators *)

Lemma compose_jw_pair n i j :
  compose (adjoint (jw n i)) (jw n j) = Ok (jw_pair n i j).
Proof. unfold compose. simpl. by rewrite decide_True. Qed.

Lemma index_jw n i :
  i < n → index (annihilation_operators_with_jordan_wigner n) i = Ok (jw n i).
Proof. intros Hi. unfold index. by rewrite jordan_wigner_lookup. Qed.

Lemma index_jw_adjoint n i :
  i < n →
  index (adjoint <$> annihilation_operators_with_jordan_wigner n) i
  = Ok (adjoint (jw n i)).
Proof.
  intros Hi. unfold index. by rewrite list_lookup_fmap, jordan_wigner_lookup.
Qed.

Lemma num_qubits_scalar_mul c a : num_qubits (scalar_mul c a) = num_qubits a.
Proof. unfold scalar_mul. by destruct (is_zero c). Qed.

Lemma one_body_sum_jw n (h : nat → nat → complex) one_body :
  (∀ i j, i < n → j < n → entry2 one_body i j = Ok (h i j)) →
  ∃ s,
    for_each (λ s i,
        for_each
          (one_body_step one_body (annihilation_operators_with_jordan_wigner n)
             (adjoint <$> annihilation_operators_with_jordan_wigner n) i)
          (seq 0 n) s)
      (seq 0 n) Zero = Ok s
    ∧ acc_on n s
    ∧ acc_terms s = (i ← seq 0 n; j ← seq 0 n; pair_rows n h i j).
Proof.
  intros Hh.
  change (i ← seq 0 n; j ← seq 0 n; pair_rows n h i j)
    with (acc_terms Zero ++ (i ← seq 0 n; j ← seq 0 n; pair_rows n h i j)).
  apply (for_each_collect n (λ i, j ← seq 0 n; pair_rows n h i j)); [|done].
  intros s i Hi%elem_of_seq_0 Hs.
  apply (for_each_collect n (pair_rows n h i)); [|done].
  intros s' j Hj%elem_of_seq_0 Hs'.
  unfold one_body_step. rewrite Hh by done. cbn [mbind result_bind].
  rewrite index_jw_adjoint, index_jw by done. cbn [mbind result_bind].
  rewrite compose_jw_pair. cbn [mbind result_bind].
  apply iadd_collect; [done|]. by rewrite num_qubits_scalar_mul.
Qed.

Lemma pair_rows_nonempty n h i j : pair_rows n h i j ≠ [].
Proof.
  unfold pair_rows, scalar_mul. destruct (is_zero (h i j)); simpl; done.
Qed.

Lemma one_body_hamiltonian_jw n (h : nat → nat → complex) one_body :
  0 < n →
  (∀ i j, i < n → j < n → entry2 one_body i j = Ok (h i j)) →
  one_body_hamiltonian one_body (annihilation_operators_with_jordan_wigner n)
    (adjoint <$> annihilation_operators_with_jordan_wigner n)
  = Ok (simplify (Op n (i ← seq 0 n; j ← seq 0 n; pair_rows n h i j))).
Proof.
  intros Hn Hh. unfold one_body_hamiltonian. rewrite length_jordan_wigner.
  destruct (one_body_sum_jw n h one_body Hh) as (s & -> & Hs & Ht).
  cbn [mbind result_bind]. destruct s as [|[nq ts]]; simpl in *.
  - exfalso. destruct n as [|n]; [lia|]. cbn [seq] in Ht.
    rewrite !bind_cons in Ht. symmetry in Ht.
    apply app_eq_nil in Ht as [Ht _]. apply app_eq_nil in Ht as [Ht _].
    by apply pair_rows_nonempty in Ht.
  - by subst.
Qed.

(** *** Conjugating the rows of a pair *)

Lemma is_zero_conj c : is_zero (cconj c) = is_zero c.
Proof.
  unfold is_zero. simpl. f_equal. apply bool_decide_ext. split.
  - intros H. rewrite <- (Qcopp_involutive (im c)), H. done.
  - intros ->. done.
Qed.

Lemma perm_cons_eq {A} (a b : A) l1 l2 :
  a = b → l1 ≡ₚ l2 → a :: l1 ≡ₚ b :: l2.
Proof. intros -> H. by apply perm_skip. Qed.

Ltac solve_conj_term n :=
  unfold conj_term; cbn [fst snd]; refine (f_equal2 pair _ _);
  [ apply pattern_ext; solve_support
  | eval_flags; apply complex_eq; simpl; apply Qc_is_canon; closed_coeff ].

Lemma jw_pair_conj n i j :
  i < n → j < n →
  conj_term <$> terms (jw_pair n i j) ≡ₚ terms (jw_pair n j i).
Proof.
  intros Hi Hj. unfold jw_pair, jw, adjoint.
  cbn [terms num_qubits fmap list_fmap fst snd mbind list_bind app].
  unfold z_below, z_upto, x_at. rewrite !compose_term_tab.
  destruct (decide (i = j)) as [->|Hij].
  - repeat (rewrite (popcount_tab_one n _ j) by (done || solve_support)).
    apply perm_cons_eq; [solve_conj_term n|].
    etrans; [|apply perm_swap].
    apply perm_cons_eq; [solve_conj_term n|].
    apply perm_cons_eq; [solve_conj_term n|].
    apply perm_cons_eq; [solve_conj_term n|]. done.
  - repeat (rewrite (popcount_tab_two n _ i j) by (done || solve_support)).
    apply perm_cons_eq; [destruct (decide (i < j)); solve_conj_term n|].
    etrans; [|apply perm_swap].
    apply perm_cons_eq; [destruct (decide (i < j)); solve_conj_term n|].
    apply perm_cons_eq; [destruct (decide (i < j)); solve_conj_term n|].
    apply perm_cons_eq; [destruct (decide (i < j)); solve_conj_term n|].
    done.
Qed.

Lemma scalar_mul_conj h (a b : SparsePauliOp) :
  num_qubits a = num_qubits b →
  conj_term <$> terms a ≡ₚ terms b →
  conj_term <$> terms (scalar_mul h a) ≡ₚ terms (scalar_mul (cconj h) b).
Proof.
  intros Hq Hab. unfold scalar_mul. rewrite is_zero_conj.
  destruct (is_zero h).
  - rewrite Hq. unfold zero_op. cbn [terms]. rewrite fmap_cons.
    unfold conj_term at 1. cbn [fst snd]. by rewrite cconj_zero.
  - destruct a as [na ta], b as [nb tb]. cbn [terms] in *.
    rewrite <- Hab, <- !list_fmap_compose. apply Permutation_refl'.
    apply list_fmap_ext. intros _ [p c] _. unfold conj_term. simpl.
    by rewrite cconj_mul.
Qed.

Lemma pair_rows_conj n (h : nat → nat → complex) i j :
  i < n → j < n → h j i = cconj (h i j) →
  conj_term <$> pair_rows n h i j ≡ₚ pair_rows n h j i.
Proof.
  intros Hi Hj Hh. unfold pair_rows. rewrite Hh.
  apply scalar_mul_conj; [done|]. by apply jw_pair_conj.
Qed.

Lemma one_body_rows_self_conjugate n (h : nat → nat → complex) :
  (∀ i j, i < n → j < n → h j i = cconj (h i j)) →
  self_conjugate (i ← seq 0 n; j ← seq 0 n; pair_rows n h i j).
Proof.
  intros Hh. unfold self_conjugate.
  rewrite fmap_bind_list. rewrite (bind_swap (pair_rows n h)).
  apply bind_perm_ext. intros j Hj%elem_of_seq_0.
  rewrite fmap_bind_list. apply bind_perm_ext. intros i Hi%elem_of_seq_0.
  symmetry. apply pair_rows_conj; [done|done|by apply Hh].
Qed.

Lemma jordan_wigner_acts_on n :
  Forall (acts_on n) (annihilation_operators_with_jordan_wigner n).
Proof.
  rewrite jordan_wigner_unfold. apply Forall_fmap, Forall_forall.
  intros i _. by split.
Qed.

Lemma jordan_wigner_adjoint_acts_on n :
  Forall (acts_on n) (adjoint <$> annihilation_operators_with_jordan_wigner n).
Proof.
  rewrite jordan_wigner_unfold. apply Forall_fmap, Forall_fmap, Forall_forall.
  intros i _. by split.
Qed.

(** C5, amended: for a Hermitian one-body tensor ([one_body[j][i]] is the
    conjugate of [one_body[i][j]], which every real symmetric tensor
    satisfies) and a zero two-body tensor, the Hamiltonian built from the
    [n >= 1] Jordan-Wigner annihilators and their adjoints exists and all
    its coefficients are real, hence it is Hermitian. *)
Theorem hermitian_one_body_gives_real_coefficients
    (n : nat) (one_body : one_body_tensor) (two_body : two_body_tensor) :
  0 < n →
  (∀ i j, i < n → j < n →
     ∃ c, entry2 one_body i j = Ok c ∧ entry2 one_body j i = Ok (cconj c)) →
  (∀ i j k l, i < n → j < n → k < n → l < n →
     entry4 two_body i j k l = Ok czero) →
  ∃ hamiltonian,
    build_qubit_hamiltonian one_body two_body
      (annihilation_operators_with_jordan_wigner n)
      (adjoint <$> annihilation_operators_with_jordan_wigner n)
    = Ok hamiltonian
    ∧ Forall (λ t : term, is_real t.2) (terms hamiltonian).
Proof.
  intros Hn Hh Hg.
  rewrite (build_zero_two_body one_body two_body _ _ n).
  - rewrite (one_body_hamiltonian_jw n (entry_or_zero one_body)); [|done|].
    + eexists. split; [done|]. apply simplify_real.
      apply one_body_rows_self_conjugate. intros i j Hi Hj.
      unfold entry_or_zero. destruct (Hh i j Hi Hj) as (c & -> & ->). done.
    + intros i j Hi Hj. unfold entry_or_zero.
      by destruct (Hh i j Hi Hj) as (c & -> & _).
  - by rewrite length_fmap.
  - apply jordan_wigner_acts_on.
  - apply jordan_wigner_adjoint_acts_on.
  - by rewrite length_jordan_wigner.
Qed.

Lemma entry4_zero_two_body n i j k l :
  i < n → j < n → k < n → l < n → entry4 (zero_two_body n) i j k l = Ok czero.
Proof.
  intros Hi Hj Hk Hl. unfold entry4, zero_two_body, index.
  rewrite lookup_replicate_2 by done. cbn [mbind result_bind].
  rewrite lookup_replicate_2 by done. cbn [mbind result_bind].
  rewrite lookup_replicate_2 by done. cbn [mbind result_bind].
  by rewrite lookup_replicate_2 by done.
Qed.

Lemma hermitian_one_body_gives_real_coefficients_witness :
  ∃ hamiltonian,
    build_qubit_hamiltonian [[cone; Cx 0 1]; [Cx 0 (-1); cone]]
      (zero_two_body 2)
      (annihilation_operators_with_jordan_wigner 2)
      (adjoint <$> annihilation_operators_with_jordan_wigner 2)
    = Ok hamiltonian
    ∧ Forall (λ t : term, is_real t.2) (terms hamiltonian).
Proof.
  apply (hermitian_one_body_gives_real_coefficients 2).
  - lia.
  - intros [|[|i]] [|[|j]] Hi Hj; try lia; eexists; split; try reflexivity;
      apply (bool_decide_eq_true_1 _); vm_compute; reflexivity.
  - apply entry4_zero_two_body.
Defined.

(** C5 as stated fails for a symmetric tensor that is not real: with
    [one_body = [[0, 1j], [1j, 0]]] the module returns
    [-0.5j YY - 0.5j XX], whose coefficients are neither real nor
    conjugates of one another. *)
Lemma symmetric_one_body_not_hermitian :
  let a := annihilation_operators_with_jordan_wigner 2 in
  let one_body := [[czero; Cx 0 1]; [Cx 0 1; czero]] in
  let hamiltonian :=
    Op 2 [(([true; true], [true; true]), Cx 0 (- half));
          (([false; false], [true; true]), Cx 0 (- half))] in
  (∀ i j, entry2 one_body i j = entry2 one_body j i)
  ∧ build_qubit_hamiltonian one_body (zero_two_body 2) a (adjoint <$> a)
    = Ok hamiltonian
  ∧ ¬ conjugate_paired hamiltonian.
Proof.
  split; [|split].
  - intros [|[|i]] [|[|j]]; reflexivity.
  - decide_by_computation.
  - apply (bool_decide_eq_false_1 _). vm_compute. reflexivity.
Qed.

(** C6: with operator lists of equal length whose operators act on the
    same qubits, and a two-body tensor that is zero at every index, the
    module returns what the one-body double sum alone gives after
    [simplify] (the same operator, or the same exception when an entry of
    the one-body tensor is missing). *)
Theorem zero_two_body_gives_one_body_term
    (one_body : one_body_tensor) (two_body : two_body_tensor)
    (annihilators creators : list SparsePauliOp) (nq : nat) :
  length creators = length annihilators →
  Forall (acts_on nq) annihilators →
  Forall (acts_on nq) creators →
  (∀ i j k l,
     i < length annihilators → j < length annihilators →
     k < length annihilators → l < length annihilators →
     entry4 two_body i j k l = Ok czero) →
  build_qubit_hamiltonian one_body two_body annihilators creators
  = one_body_hamiltonian one_body annihilators creators.
Proof. apply build_zero_two_body. Qed.

Lemma zero_two_body_gives_one_body_term_witness :
  build_qubit_hamiltonian [[cone; Cx 0 1]; [Cx 0 (-1); cone]]
    (zero_two_body 2)
    (annihilation_operators_with_jordan_wigner 2)
    (adjoint <$> annihilation_operators_with_jordan_wigner 2)
  = one_body_hamiltonian [[cone; Cx 0 1]; [Cx 0 (-1); cone]]
      (annihilation_operators_with_jordan_wigner 2)
      (adjoint <$> annihilation_operators_with_jordan_wigner 2).
Proof.
  apply (zero_two_body_gives_one_body_term _ _ _ _ 2).
  - reflexivity.
  - apply jordan_wigner_acts_on.
  - apply jordan_wigner_adjoint_acts_on.
  - apply entry4_zero_two_body.
Defined.

(** *** Missing tensor entries *)

Lemma for_each_ok_or {S A} e (Inv : S → Prop) (body : S → A → result S) xs s :
  (∀ s a, a ∈ xs → Inv s → ok_or e Inv (body s a)) →
  Inv s → ok_or e Inv (for_each body xs s).
Proof.
  revert s. induction xs as [|a xs IH]; intros s Hbody Hs; [done|].
  simpl. pose proof (Hbody s a (list_elem_of_here _ _) Hs) as Ha.
  destruct (body s a) as [s'|e']; simpl in *; [|done].
  apply IH; [|done]. intros ??? ?. apply Hbody; [by apply list_elem_of_further|done].
Qed.

Lemma for_each_fails {S A} e (Inv : S → Prop) (body : S → A → result S)
    xs a0 s :
  (∀ s a, a ∈ xs → Inv s → ok_or e Inv (body s a)) →
  a0 ∈ xs → (∀ s, Inv s → body s a0 = Err e) →
  Inv s → for_each body xs s = Err e.
Proof.
  revert s. induction xs as [|a xs IH]; intros s Hbody Hin Hfail Hs.
  - by apply elem_of_nil in Hin.
  - simpl. pose proof (Hbody s a (list_elem_of_here _ _) Hs) as Ha.
    apply elem_of_cons in Hin as [<-|Hin].
    + by rewrite Hfail.
    + destruct (body s a) as [s'|e']; simpl in *; [|by subst].
      apply IH; try done.
      intros ??? ?. apply Hbody; [by apply list_elem_of_further|done].
Qed.

Lemma index_error {A} (xs : list A) i e : index xs i = Err e → e = IndexError.
Proof. unfold index. destruct (xs !! i); congruence. Qed.

Lemma entry2_error one_body i j e :
  entry2 one_body i j = Err e → e = IndexError.
Proof.
  unfold entry2. destruct (index one_body i) as [r|e'] eqn:H1; simpl.
  - apply index_error.
  - intros [= <-]. by apply index_error in H1.
Qed.

Lemma entry4_error two_body i j k l e :
  entry4 two_body i j k l = Err e → e = IndexError.
Proof.
  unfold entry4.
  destruct (index two_body i) as [r1|e1] eqn:H1; simpl;
    [|intros [= <-]; by apply index_error in H1].
  destruct (index r1 j) as [r2|e2] eqn:H2; simpl;
    [|intros [= <-]; by apply index_error in H2].
  destruct (index r2 k) as [r3|e3] eqn:H3; simpl;
    [|intros [= <-]; by apply index_error in H3].
  apply index_error.
Qed.

Lemma elem_of_seq_0_2 n k : k < n → k ∈ seq 0 n.
Proof. rewrite elem_of_seq. lia. Qed.

Section MissingEntries.

Context (one_body : one_body_tensor) (two_body : two_body_tensor).
Context (annihilators creators : list SparsePauliOp) (nq : nat).

Let n := length annihilators.

Hypothesis same_length : length creators = n.
Hypothesis annihilators_ok : Forall (acts_on nq) annihilators.
Hypothesis creators_ok : Forall (acts_on nq) creators.

Lemma two_body_step_outcome a_ij i j k l s :
  acts_on nq a_ij → k < n → l < n → acc_on nq s →
  ok_or IndexError (acc_on nq)
    (two_body_step two_body annihilators a_ij i j k s l)
  ∧ (∀ e, entry4 two_body i j k l = Err e →
       two_body_step two_body annihilators a_ij i j k s l = Err IndexError).
Proof.
  intros Hij Hk Hl Hs. unfold two_body_step.
  destruct (index_annihilator annihilators nq annihilators_ok k Hk)
    as (a_k & -> & Hak).
  destruct (index_annihilator annihilators nq annihilators_ok l Hl)
    as (a_l & -> & Hal).
  cbn [mbind result_bind].
  destruct (compose_acts_on nq a_k a_l Hak Hal) as (a_kl & -> & Hakl).
  cbn [mbind result_bind].
  destruct (entry4 two_body i j k l) as [g|e] eqn:Hg; cbn [mbind result_bind].
  - split; [|done].
    destruct (compose_acts_on nq a_ij a_kl Hij Hakl) as (p & -> & [Hp _]).
    cbn [mbind result_bind].
    destruct (iadd_collect nq s (scalar_mul g p) Hs) as (s' & -> & Hs' & _);
      [by rewrite num_qubits_scalar_mul|done].
  - apply entry4_error in Hg as ->. split; [done|]. done.
Qed.

Lemma two_body_loops_outcome a_ij i j s :
  acts_on nq a_ij → acc_on nq s →
  ok_or IndexError (acc_on nq)
    (for_each (λ tbs k,
         for_each (two_body_step two_body annihilators a_ij i j k) (seq 0 n) tbs)
       (seq 0 n) s)
  ∧ (∀ k l e, k < n → l < n → entry4 two_body i j k l = Err e →
       for_each (λ tbs k,
           for_each (two_body_step two_body annihilators a_ij i j k)
             (seq 0 n) tbs)
         (seq 0 n) s = Err IndexError).
Proof.
  intros Hij Hs.
  assert (∀ s k, k ∈ seq 0 n → acc_on nq s →
    ok_or IndexError (acc_on nq)
      (for_each (two_body_step two_body annihilators a_ij i j k) (seq 0 n) s))
    as Hinner.
  { intros s1 k Hk%elem_of_seq_0 Hs1. apply for_each_ok_or; [|done].
    intros s2 l Hl%elem_of_seq_0 Hs2.
    by apply two_body_step_outcome. }
  split; [by apply for_each_ok_or|].
  intros k l e Hk Hl He.
  apply (for_each_fails _ (acc_on nq) _ _ k); try done.
  - by apply elem_of_seq_0_2.
  - intros s1 Hs1.
    apply (for_each_fails _ (acc_on nq) _ _ l); try done.
    + intros s2 l' Hl'%elem_of_seq_0 Hs2. by apply two_body_step_outcome.
    + by apply elem_of_seq_0_2.
    + intros s2 Hs2. by eapply two_body_step_outcome.
Qed.

Lemma pair_step_outcome i j sums :
  i < n → j < n → (sums_on nq) sums →
  ok_or IndexError (sums_on nq)
    (pair_step one_body two_body annihilators creators i sums j)
  ∧ (∀ e, entry2 one_body i j = Err e →
       pair_step one_body two_body annihilators creators i sums j
       = Err IndexError)
  ∧ (∀ k l e, k < n → l < n → entry4 two_body i j k l = Err e →
       pair_step one_body two_body annihilators creators i sums j
       = Err IndexError).
Proof.
  intros Hi Hj [Hs1 Hs2]. unfold pair_step.
  destruct (entry2 one_body i j) as [h|e] eqn:Hh; cbn [mbind result_bind].
  2:{ apply entry2_error in Hh as ->. done. }
  destruct (index_creator annihilators creators nq same_length creators_ok i Hi)
    as (c_i & Hci & Hci_ok).
  rewrite Hci.
  destruct (index_annihilator annihilators nq annihilators_ok j Hj)
    as (a_j & -> & Haj_ok).
  cbn [mbind result_bind].
  destruct (compose_acts_on nq c_i a_j Hci_ok Haj_ok) as (ca & -> & [Hca _]).
  cbn [mbind result_bind].
  destruct (iadd_collect nq sums.1 (scalar_mul h ca) Hs1)
    as (s1 & -> & Hs1' & _); [by rewrite num_qubits_scalar_mul|].
  cbn [mbind result_bind].
  destruct (index_creator annihilators creators nq same_length creators_ok j Hj)
    as (c_j & -> & Hcj_ok).
  cbn [mbind result_bind].
  destruct (compose_acts_on nq c_i c_j Hci_ok Hcj_ok) as (a_ij & -> & Haij).
  cbn [mbind result_bind].
  destruct (two_body_loops_outcome a_ij i j sums.2 Haij Hs2) as [Hok Hfail].
  fold n.
  split; [|split].
  - destruct (for_each _ _ sums.2) as [s2|e]; simpl in *; [by split|done].
  - done.
  - intros k l e Hk Hl He. by rewrite (Hfail k l e).
Qed.

Lemma build_missing_entry :
  (∃ i j, i < n ∧ j < n ∧
     ((∃ e, entry2 one_body i j = Err e)
      ∨ (∃ k l e, k < n ∧ l < n ∧ entry4 two_body i j k l = Err e))) →
  build_qubit_hamiltonian one_body two_body annihilators creators
  = Err IndexError.
Proof.
  intros (i & j & Hi & Hj & Hmiss). unfold build_qubit_hamiltonian. fold n.
  rewrite (for_each_fails IndexError (sums_on nq) _ _ i); try done.
  - intros s i' Hi'%elem_of_seq_0 Hs. apply for_each_ok_or; [|done].
    intros s' j' Hj'%elem_of_seq_0 Hs'. by apply pair_step_outcome.
  - by apply elem_of_seq_0_2.
  - intros s Hs. apply (for_each_fails _ (sums_on nq) _ _ j); try done.
    + intros s' j' Hj'%elem_of_seq_0 Hs'. by apply pair_step_outcome.
    + by apply elem_of_seq_0_2.
    + intros s' Hs'.
      destruct (pair_step_outcome i j s' Hi Hj Hs') as (_ & H2 & H4).
      destruct Hmiss as [[e He]|(k & l & e & Hk & Hl & He)]; eauto.
Qed.

End MissingEntries.

(** *** Entries that the loops do not read *)

Lemma for_each_ext {S A} (body1 body2 : S → A → result S) xs s :
  (∀ s a, a ∈ xs → body1 s a = body2 s a) →
  for_each body1 xs s = for_each body2 xs s.
Proof.
  revert s. induction xs as [|a xs IH]; intros s H; [done|].
  simpl. rewrite H by apply list_elem_of_here.
  destruct (body2 s a); simpl; [|done].
  apply IH. intros ???. by apply H, list_elem_of_further.
Qed.

Lemma build_reads_leading_block one_body one_body' two_body two_body'
    annihilators creators :
  (∀ i j, i < length annihilators → j < length annihilators →
     entry2 one_body i j = entry2 one_body' i j) →
  (∀ i j k l,
     i < length annihilators → j < length annihilators →
     k < length annihilators → l < length annihilators →
     entry4 two_body i j k l = entry4 two_body' i j k l) →
  build_qubit_hamiltonian one_body two_body annihilators creators
  = build_qubit_hamiltonian one_body' two_body' annihilators creators.
Proof.
  intros H2 H4. unfold build_qubit_hamiltonian. f_equal.
  apply for_each_ext. intros s i Hi%elem_of_seq_0.
  apply for_each_ext. intros s' j Hj%elem_of_seq_0.
  unfold pair_step. rewrite H2 by done.
  destruct (entry2 one_body' i j); cbn [mbind result_bind]; [|done].
  destruct (index creators i); cbn [mbind result_bind]; [|done].
  destruct (index annihilators j); cbn [mbind result_bind]; [|done].
  destruct (compose _ _); cbn [mbind result_bind]; [|done].
  destruct (iadd _ _); cbn [mbind result_bind]; [|done].
  destruct (index creators j); cbn [mbind result_bind]; [|done].
  destruct (compose _ _); cbn [mbind result_bind]; [|done].
  f_equal. apply for_each_ext. intros s1 k Hk%elem_of_seq_0.
  apply for_each_ext. intros s2 l Hl%elem_of_seq_0.
  unfold two_body_step. by rewrite H4.
Qed.

(** C8, amended: there is no DimensionError.  With operator lists of equal
    length on a common register, a tensor that lacks an entry the loops
    read (a tensor smaller than the operator list) makes
    [build_qubit_hamiltonian] raise Python's IndexError; the entries at
    indices beyond the length of the operator list are never read, so a
    larger tensor is accepted and gives what its leading block gives. *)
Theorem tensor_size_mismatch
    (one_body : one_body_tensor) (two_body : two_body_tensor)
    (annihilators creators : list SparsePauliOp) (nq : nat) :
  length creators = length annihilators →
  Forall (acts_on nq) annihilators →
  Forall (acts_on nq) creators →
  ((∃ i j, i < length annihilators ∧ j < length annihilators ∧
      ((∃ e, entry2 one_body i j = Err e)
       ∨ (∃ k l e, k < length annihilators ∧ l < length annihilators ∧
            entry4 two_body i j k l = Err e))) →
   build_qubit_hamiltonian one_body two_body annihilators creators
   = Err IndexError)
  ∧ (∀ one_body' two_body',
       (∀ i j, i < length annihilators → j < length annihilators →
          entry2 one_body i j = entry2 one_body' i j) →
       (∀ i j k l,
          i < length annihilators → j < length annihilators →
          k < length annihilators → l < length annihilators →
          entry4 two_body i j k l = entry4 two_body' i j k l) →
       build_qubit_hamiltonian one_body two_body annihilators creators
       = build_qubit_hamiltonian one_body' two_body' annihilators creators).
Proof.
  intros Hlen HA HC. split.
  - by apply (build_missing_entry one_body two_body annihilators creators nq).
  - intros one_body' two_body'. apply build_reads_leading_block.
Qed.

Lemma tensor_size_mismatch_witness :
  build_qubit_hamiltonian [[cone]] (zero_two_body 2)
    (annihilation_operators_with_jordan_wigner 2)
    (adjoint <$> annihilation_operators_with_jordan_wigner 2)
  = Err IndexError.
Proof.
  refine (proj1 (tensor_size_mismatch _ _ _ _ 2 _ _ _) _).
  - by rewrite length_fmap.
  - apply jordan_wigner_acts_on.
  - apply jordan_wigner_adjoint_acts_on.
  - rewrite length_jordan_wigner. exists 0, 1. repeat split; [lia..|].
    left. by exists IndexError.
Defined.

(** C8 as stated fails: a 2 x 2 one-body tensor and a 2 x 2 x 2 x 2
    two-body tensor given with the single operator of one orbital do not
    match it in size, yet the module raises nothing and returns the
    Hamiltonian of the leading entry. *)
Lemma oversized_tensors_are_accepted :
  let a := annihilation_operators_with_jordan_wigner 1 in
  let one_body := [[cone; cone]; [cone; cone]] in
  length one_body = 2 ∧ length (zero_two_body 2) = 2 ∧ length a = 1
  ∧ build_qubit_hamiltonian one_body (zero_two_body 2) a (adjoint <$> a)
    = Ok (Op 1 [(([false], [false]), c_half); (([true], [false]), c_half)]).
Proof. repeat split. decide_by_computation. Qed.

(** *** Arrays filled slot by slot *)

Lemma fill_insert {X} (k : nat) (v : X) (vs xs : list X) :
  k < length xs → fill (S k) vs (<[k:=v]> xs) = fill k (v :: vs) xs.
Proof.
  intros Hk. unfold fill.
  rewrite (take_S_r _ k v) by by apply list_lookup_insert_eq.
  rewrite take_insert_ge by done. rewrite drop_insert_lt by lia.
  rewrite <- app_assoc. simpl.
  by replace (k + S (length vs)) with (S (k + length vs)) by lia.
Qed.

Lemma fill_all {X} (vs xs : list X) : length vs = length xs → fill 0 vs xs = vs.
Proof.
  intros H. unfold fill. rewrite take_0, drop_ge by lia. simpl.
  by rewrite app_nil_r.
Qed.

Lemma length_fill {X} (k : nat) (vs xs : list X) :
  k + length vs ≤ length xs → length (fill k vs xs) = length xs.
Proof.
  intros H. unfold fill. rewrite !length_app, length_take, length_drop. lia.
Qed.

(** *** The cost function *)

Lemma foldl_cadd_parts (a : complex) (l : list complex) :
  foldl cadd a l
  = Cx (re a + foldr Qcplus 0%Qc (re <$> l))
       (im a + foldr Qcplus 0%Qc (im <$> l)).
Proof.
  revert a. induction l as [|c l IH]; intros a.
  - apply complex_eq; simpl; ring.
  - cbn [foldl]. rewrite IH. rewrite !fmap_cons. cbn [foldr].
    apply complex_eq; simpl; ring.
Qed.

Lemma np_dot_parts (cs : list complex) (vs : list Qc) :
  length cs = length vs →
  np_dot cs vs = Ok (Cx (real_dot (re <$> cs) vs) (real_dot (im <$> cs) vs)).
Proof.
  intros Hlen. unfold np_dot. rewrite decide_True by done. f_equal.
  rewrite foldl_cadd_parts. unfold real_dot.
  apply complex_eq; cbn [re im czero].
  - rewrite Qcplus_0_l. f_equal. clear Hlen. revert vs.
    induction cs as [|c cs IH]; intros [|v vs]; try done.
    cbn [zip_with]. rewrite !fmap_cons. cbn [zip_with]. rewrite IH.
    f_equal. unfold cmul, of_real. simpl. ring.
  - rewrite Qcplus_0_l. f_equal. clear Hlen. revert vs.
    induction cs as [|c cs IH]; intros [|v vs]; try done.
    cbn [zip_with]. rewrite !fmap_cons. cbn [zip_with]. rewrite IH.
    f_equal. unfold cmul, of_real. simpl. ring.
Qed.

Section DriverFacts.

Context {World Backend ExecuteOpts OptimizeResult : Type}.

Variable extract_data :
  string → @extern World (Qc * one_body_tensor * two_body_tensor * Qc).
Variable estimate_expectation_values :
  list pattern → QuantumCircuit → Backend → ExecuteOpts
  → @extern World (list Qc).
Variable minimize : @minimizer_fn World OptimizeResult.
Variable eigh : matrix → result (list Qc).
Variable uninitialized : nat → Qc.

(** C4, amended: when the parameters bind and the estimator answers one
    value per row, the cost function returns the complex number
    [Σ coefficient * estimate] itself: its real part is
    [Σ Re(coefficient) * estimate] and its imaginary part
    [Σ Im(coefficient) * estimate] is returned with it, not dropped. *)
Theorem cost_function_returns_the_complex_sum
    (observable : SparsePauliOp) (ansatz : QuantumCircuit) (backend : Backend)
    (execute_opts : ExecuteOpts) (params : list Qc) (w w' : World)
    (circuit : QuantumCircuit) (estimated_values : list Qc) :
  bind_parameters ansatz params = Ok circuit →
  estimate_expectation_values (paulis observable) circuit backend execute_opts w
  = (Ok estimated_values, w') →
  length estimated_values = length (terms observable) →
  cost_function estimate_expectation_values observable ansatz backend
    execute_opts params w
  = (Ok (Cx (real_dot (re <$> coeffs observable) estimated_values)
            (real_dot (im <$> coeffs observable) estimated_values)), w').
Proof.
  intros Hbind Hest Hlen. unfold cost_function. rewrite Hbind, Hest.
  rewrite np_dot_parts; [done|]. unfold coeffs. by rewrite length_fmap.
Qed.

(** **** One pass of the loop *)

Lemma file_step_process annihilators creators state_circuit backend
    execute_opts arr k file s :
  file_step extract_data estimate_expectation_values minimize eigh
    annihilators creators state_circuit backend execute_opts arr (k, file) s
  = match process_file extract_data estimate_expectation_values minimize eigh
            annihilators creators state_circuit backend execute_opts file s with
    | (Ok v, s') => (Ok (store arr k v), s')
    | (Err x, s') => (Err x, s')
    end.
Proof.
  unfold file_step, process_file, minimize_expectation_value.
  unfold mbind, M_bind, mret, M_ret, call, lift.
  destruct (extract_data file (world s)) as [[[[[d ob] tb] rep]|x] w]; [|done].
  destruct (build_qubit_hamiltonian ob tb annihilators creators) as [h|x];
    [|done].
  cbn [world calls].
  destruct (minimize _ _ _ w) as [[o|x] w1]; [|done].
  destruct (exact_minimal_eigenvalue eigh h) as [e|x]; done.
Qed.

Lemma process_file_calls annihilators creators state_circuit backend
    execute_opts file s :
  ∃ added,
    calls (process_file extract_data estimate_expectation_values minimize eigh
             annihilators creators state_circuit backend execute_opts file s).2
    = calls s ++ added
    ∧ added `prefix_of` expected_calls [file]
    ∧ (∀ v s',
         process_file extract_data estimate_expectation_values minimize eigh
           annihilators creators state_circuit backend execute_opts file s
         = (Ok v, s') → added = expected_calls [file]).
Proof.
  unfold process_file, minimize_expectation_value.
  unfold mbind, M_bind, mret, M_ret, call, lift.
  destruct (extract_data file (world s)) as [[[[[d ob] tb] rep]|x] w].
  2:{ exists [ExtractData file]. simpl. split; [done|].
      split; [by exists [Minimize [0%Qc] "COBYLA"]|done]. }
  destruct (build_qubit_hamiltonian ob tb annihilators creators) as [h|x].
  2:{ exists [ExtractData file]. simpl. split; [done|].
      split; [by exists [Minimize [0%Qc] "COBYLA"]|done]. }
  cbn [world calls].
  destruct (minimize _ _ _ w) as [[o|x] w1].
  2:{ exists [ExtractData file; Minimize [0%Qc] "COBYLA"]. simpl.
      split; [by rewrite <- app_assoc|]. done. }
  exists [ExtractData file; Minimize [0%Qc] "COBYLA"].
  destruct (exact_minimal_eigenvalue eigh h) as [e|x]; simpl;
    (split; [by rewrite <- app_assoc|done]).
Qed.

(** **** The whole loop *)

Lemma store_fill k v rs (arr : @arrays OptimizeResult) :
  arrays_at_least (S k) arr →
  fill_arrays (S k) rs (store arr k v) = fill_arrays k (v :: rs) arr.
Proof.
  intros (H1 & H2 & H3 & H4). unfold fill_arrays, store. cbn [distances
    repulsions optimized_results minimal_exact_eigenvalues].
  rewrite !fmap_cons. by rewrite !fill_insert by lia.
Qed.

Lemma arrays_at_least_store m k v (arr : @arrays OptimizeResult) :
  arrays_at_least m arr → arrays_at_least m (store arr k v).
Proof.
  intros (H1 & H2 & H3 & H4). unfold arrays_at_least, store. simpl.
  by rewrite !length_insert.
Qed.

Lemma loop_fill annihilators creators state_circuit backend execute_opts
    files k arr s :
  arrays_at_least (k + length files) arr →
  for_each_M
    (file_step extract_data estimate_expectation_values minimize eigh
       annihilators creators state_circuit backend execute_opts)
    (zip (seq k (length files)) files) arr s
  = match map_M
            (process_file extract_data estimate_expectation_values minimize
               eigh annihilators creators state_circuit backend execute_opts)
            files s with
    | (Ok rs, s') => (Ok (fill_arrays k rs arr), s')
    | (Err x, s') => (Err x, s')
    end.
Proof.
  revert k arr s. induction files as [|file files IH]; intros k arr s Harr.
  - simpl. unfold mret, M_ret. do 2 f_equal. destruct arr. unfold fill_arrays.
    simpl. unfold fill. simpl. rewrite !Nat.add_0_r.
    by rewrite !take_drop.
  - cbn [length seq zip_with for_each_M map_M]. unfold mbind, M_bind.
    rewrite file_step_process.
    destruct (process_file _ _ _ _ _ _ _ _ _ file s) as [[v|x] s1]; [|done].
    rewrite IH.
    2:{ apply arrays_at_least_store. simpl in Harr.
        destruct Harr as (?&?&?&?). repeat split; lia. }
    destruct (map_M _ files s1) as [[rs|x] s2]; [|done].
    unfold mret, M_ret. do 2 f_equal. apply store_fill.
    simpl in Harr. destruct Harr as (?&?&?&?). repeat split; lia.
Qed.

Lemma length_map_M {A B} (f : A → @M World B) xs s rs s' :
  map_M f xs s = (Ok rs, s') → length rs = length xs.
Proof.
  revert s rs s'. induction xs as [|a xs IH]; intros s rs s'.
  - by intros [= <- _].
  - cbn [map_M]. unfold mbind, M_bind.
    destruct (f a s) as [[b|x] s1]; [|done].
    destruct (map_M f xs s1) as [[bs|x] s2] eqn:Hbs; [|done].
    unfold mret, M_ret. intros [= <- _]. simpl. f_equal. by eapply IH.
Qed.

Lemma expected_calls_cons file files :
  expected_calls (file :: files)
  = [ExtractData file; Minimize [0%Qc] "COBYLA"] ++ expected_calls files.
Proof. unfold expected_calls. by rewrite bind_cons. Qed.

Lemma map_M_calls annihilators creators state_circuit backend execute_opts
    files s :
  ∃ added,
    calls (map_M
             (process_file extract_data estimate_expectation_values minimize
                eigh annihilators creators state_circuit backend execute_opts)
             files s).2
    = calls s ++ added
    ∧ added `prefix_of` expected_calls files
    ∧ (∀ rs s',
         map_M
           (process_file extract_data estimate_expectation_values minimize
              eigh annihilators creators state_circuit backend execute_opts)
           files s = (Ok rs, s') → added = expected_calls files).
Proof.
  revert s. induction files as [|file files IH]; intros s.
  - exists []. simpl. by rewrite app_nil_r.
  - cbn [map_M]. unfold mbind, M_bind.
    destruct (process_file_calls annihilators creators state_circuit backend
                execute_opts file s) as (added1 & Hc1 & Hp1 & Hok1).
    destruct (process_file _ _ _ _ _ _ _ _ _ file s) as [[v|x] s1].
    + specialize (Hok1 v s1 eq_refl). subst added1. cbn [snd] in Hc1.
      destruct (IH s1) as (added2 & Hc2 & Hp2 & Hok2).
      exists ([ExtractData file; Minimize [0%Qc] "COBYLA"] ++ added2).
      rewrite (expected_calls_cons file files).
      change (expected_calls [file])
        with [ExtractData file; Minimize [0%Qc] "COBYLA"] in *.
      destruct (map_M _ files s1) as [[rs|x] s2]; cbn [snd] in Hc2 |- *.
      * unfold mret, M_ret. cbn [snd]. rewrite Hc2, Hc1, <- app_assoc.
        split; [done|]. split; [by apply prefix_app|].
        intros ?? _. f_equal. by eapply Hok2.
      * rewrite Hc2, Hc1, <- app_assoc.
        split; [done|]. split; [by apply prefix_app|]. done.
    + exists added1. cbn [snd] in *. split; [done|]. split; [|done].
      rewrite (expected_calls_cons file files).
      change (expected_calls [file])
        with [ExtractData file; Minimize [0%Qc] "COBYLA"] in *.
      by apply prefix_app_r.
Qed.

Lemma map_M_lookup {A B} (f : A → @M World B) xs s rs s' i a :
  map_M f xs s = (Ok rs, s') → xs !! i = Some a →
  ∃ s_i s_i' b, f a s_i = (Ok b, s_i') ∧ rs !! i = Some b.
Proof.
  revert s rs s' i. induction xs as [|a0 xs IH]; intros s rs s' i; [done|].
  cbn [map_M]. unfold mbind, M_bind.
  destruct (f a0 s) as [[b|x] s1] eqn:Hb; [|done].
  destruct (map_M f xs s1) as [[bs|x] s2] eqn:Hbs; [|done].
  unfold mret, M_ret. intros [= <- _]. destruct i as [|i]; simpl.
  - intros [= ->]. by exists s, s1, b.
  - intros Hi. by eapply IH.
Qed.

Lemma calculate_unfold data_file_Paths annihilators state_circuit backend
    execute_opts s :
  calculate_hamiltonian_energy extract_data estimate_expectation_values
    minimize eigh uninitialized data_file_Paths annihilators state_circuit
    backend execute_opts s
  = match map_M
            (process_file extract_data estimate_expectation_values minimize
               eigh annihilators (adjoint <$> annihilators) state_circuit
               backend execute_opts)
            data_file_Paths s with
    | (Ok rs, s') =>
        (Ok ((λ v, v.1.1.1) <$> rs, (λ v, Some v.1.1.2) <$> rs,
             (λ v, v.1.2) <$> rs, (λ v, v.2) <$> rs), s')
    | (Err x, s') => (Err x, s')
    end.
Proof.
  unfold calculate_hamiltonian_energy. unfold mbind at 1. unfold M_bind.
  rewrite loop_fill.
  2:{ unfold arrays_at_least, np_empty. simpl.
      rewrite !length_fmap, !length_seq, length_replicate. lia. }
  destruct (map_M _ data_file_Paths s) as [[rs|x] s1] eqn:Hrs; [|done].
  apply length_map_M in Hrs. unfold mret, M_ret, fill_arrays. simpl.
  rewrite !fill_all; [done|..].
  all: unfold np_empty;
    rewrite ?length_fmap, ?length_seq, ?length_replicate; done.
Qed.

(** C9: [calculate_hamiltonian_energy] is the files handled one after the
    other, in order, the world passing from each to the next; when it
    returns, each of its four arrays has one slot per file path, the slot
    [i] of each holds the value computed from the file path [i], and the
    calls made are those of the files in order. *)
Theorem calculate_hamiltonian_energy_per_file
    (data_file_Paths : list string) (annihilators : list SparsePauliOp)
    (state_circuit : QuantumCircuit) (backend : Backend)
    (execute_opts : ExecuteOpts) (s : state) :
  let process :=
    process_file extract_data estimate_expectation_values minimize eigh
      annihilators (adjoint <$> annihilators) state_circuit backend
      execute_opts in
  let run :=
    calculate_hamiltonian_energy extract_data estimate_expectation_values
      minimize eigh uninitialized data_file_Paths annihilators state_circuit
      backend execute_opts s in
  run
  = match map_M process data_file_Paths s with
    | (Ok rs, s') =>
        (Ok ((λ v, v.1.1.1) <$> rs, (λ v, Some v.1.1.2) <$> rs,
             (λ v, v.1.2) <$> rs, (λ v, v.2) <$> rs), s')
    | (Err x, s') => (Err x, s')
    end
  ∧ ∀ distances optimized_results eigenvalues repulsions s',
      run = (Ok (distances, optimized_results, eigenvalues, repulsions), s') →
      length distances = length data_file_Paths
      ∧ length optimized_results = length data_file_Paths
      ∧ length eigenvalues = length data_file_Paths
      ∧ length repulsions = length data_file_Paths
      ∧ calls s' = calls s ++ expected_calls data_file_Paths
      ∧ ∀ i file, data_file_Paths !! i = Some file →
          ∃ s_i s_i' v,
            process file s_i = (Ok v, s_i')
            ∧ distances !! i = Some v.1.1.1
            ∧ optimized_results !! i = Some (Some v.1.1.2)
            ∧ eigenvalues !! i = Some v.1.2
            ∧ repulsions !! i = Some v.2.
Proof.
  intros process run. subst run. rewrite calculate_unfold. fold process.
  split; [done|]. intros d o e r s'.
  destruct (map_M_calls annihilators (adjoint <$> annihilators) state_circuit
              backend execute_opts data_file_Paths s)
    as (added & Hc & _ & Hok).
  fold process in Hc, Hok.
  destruct (map_M process data_file_Paths s) as [[rs|x] s1] eqn:Hrs; [|done].
  intros [= <- <- <- <- <-]. rewrite !length_fmap.
  pose proof (length_map_M _ _ _ _ _ Hrs) as Hlen.
  repeat split; try done.
  - rewrite (Hok rs s1 eq_refl) in Hc. done.
  - intros i file Hi.
    destruct (map_M_lookup _ _ _ _ _ _ _ Hrs Hi) as (s_i & s_i' & v & Hv & Hrv).
    exists s_i, s_i', v. rewrite !list_lookup_fmap, Hrv. done.
Qed.

Lemma append_ok n data g :
  Forall (λ q, q < n) (gate_qubits g) → NoDup (gate_qubits g) →
  append (Circ n data) g = Ok (Circ n (data ++ [g])).
Proof.
  intros Hq Hnd. unfold append. cbn [circ_qubits circ_data].
  rewrite (bool_decide_eq_true_2 (NoDup _)) by done.
  replace (forallb _ _) with true; [done|].
  symmetry. apply forallb_forall. intros q Hin%list_elem_of_In.
  apply bool_decide_eq_true_2. by eapply Forall_forall in Hq.
Qed.

Lemma create_initial_quantum_circuit_ok num_qubits :
  4 ≤ num_qubits →
  create_initial_quantum_circuit num_qubits
  = Ok (Circ num_qubits
          [RY (Free "theta") 1; X 1; CX 1 0; X 1; CX 0 2; CX 1 3]).
Proof.
  intros Hn. unfold create_initial_quantum_circuit, empty_circuit.
  repeat (rewrite append_ok;
          [cbn [mbind result_bind app]
          |repeat constructor; simpl; lia
          |apply (bool_decide_eq_true_1 _); reflexivity]).
  done.
Qed.

Lemma create_initial_quantum_circuit_small num_qubits :
  num_qubits < 4 → create_initial_quantum_circuit num_qubits = Err CircuitError.
Proof.
  intros Hn. destruct num_qubits as [|[|[|[|n]]]]; try lia; reflexivity.
Qed.

(** C10: [minimize_expectation_value] calls the minimizer it is given
    with its cost function, the starting parameters and the method
    'COBYLA', whatever the other arguments; every call of the minimizer
    made by [calculate_hamiltonian_energy], also in a run that raises,
    starts from [[0]] with 'COBYLA'; the circuit of
    [create_initial_quantum_circuit], built for 4 qubits or more, has the
    single free parameter theta. *)
Theorem minimizations_start_at_zero_with_cobyla :
  (∀ (observable : SparsePauliOp) (ansatz : QuantumCircuit)
     (starting_params : list Qc) (backend : Backend)
     (minimizer : @minimizer_fn World OptimizeResult)
     (execute_opts : ExecuteOpts) (s : state),
     minimize_expectation_value estimate_expectation_values observable ansatz
       starting_params backend minimizer execute_opts s
     = let '(r, w) :=
         minimizer
           (cost_function estimate_expectation_values observable ansatz
              backend execute_opts)
           starting_params "COBYLA" (world s) in
       (r, State w (calls s ++ [Minimize starting_params "COBYLA"])))
  ∧ (∀ (data_file_Paths : list string) (annihilators : list SparsePauliOp)
       (state_circuit : QuantumCircuit) (backend : Backend)
       (execute_opts : ExecuteOpts) (s : state),
       ∃ added,
         calls
           (calculate_hamiltonian_energy extract_data
              estimate_expectation_values minimize eigh uninitialized
              data_file_Paths annihilators state_circuit backend execute_opts
              s).2
         = calls s ++ added
         ∧ ∀ starting_params method,
             Minimize starting_params method ∈ added →
             starting_params = [0%Qc] ∧ method = "COBYLA")
  ∧ (∀ num_qubits,
       (4 ≤ num_qubits →
        ∃ qc, create_initial_quantum_circuit num_qubits = Ok qc)
       ∧ ∀ qc, create_initial_quantum_circuit num_qubits = Ok qc →
           parameters qc = ["theta"]).
Proof.
  split; [done|]. split.
  - intros paths annihilators state_circuit backend execute_opts s.
    destruct (map_M_calls annihilators (adjoint <$> annihilators)
                state_circuit backend execute_opts paths s)
      as (added & Hc & Hp & _).
    exists added. rewrite calculate_unfold. split.
    + by destruct (map_M _ paths s) as [[rs|x] s1].
    + intros sp m Hin. destruct Hp as [rest Hp].
      assert (Minimize sp m ∈ expected_calls paths) as Hin'.
      { rewrite Hp. apply elem_of_app. by left. }
      unfold expected_calls in Hin'.
      apply list_elem_of_bind in Hin' as (file & Hin' & _).
      apply elem_of_cons in Hin' as [Hin'|Hin']; [done|].
      apply list_elem_of_singleton in Hin' as [= -> ->]. done.
  - intros n. split.
    + intros Hn. eexists. by apply create_initial_quantum_circuit_ok.
    + intros qc. destruct (decide (4 ≤ n)) as [Hn|Hn].
      * rewrite create_initial_quantum_circuit_ok by done. by intros [= <-].
      * rewrite create_initial_quantum_circuit_small by lia. done.
Qed.

End DriverFacts.

Lemma cost_function_returns_the_complex_sum_witness :
  cost_function unit_estimator imaginary_z one_parameter_circuit () () [0%Qc] ()
  = (Ok (Cx (real_dot (re <$> coeffs imaginary_z) [1%Qc])
            (real_dot (im <$> coeffs imaginary_z) [1%Qc])), ()).
Proof.
  apply (cost_function_returns_the_complex_sum unit_estimator imaginary_z
           one_parameter_circuit () () [0%Qc] () ()
           (Circ 1 [RY (Bound 0%Qc) 0])); reflexivity.
Defined.

(** C4 as stated fails: for the observable [1j * Z] and an estimate of 1
    the cost function returns [1j], not the real part 0 of the sum. *)
Lemma cost_function_keeps_the_imaginary_part :
  cost_function unit_estimator imaginary_z one_parameter_circuit () () [0%Qc] ()
  = (Ok (Cx 0 1), ())
  ∧ Cx 0 1 ≠ of_real (re (Cx 0 1)).
Proof.
  split.
  - decide_by_computation.
  - by intros [=].
Qed.

(** *** The least of the eigenvalues *)

Local Open Scope Qc_scope.

Lemma foldl_min_spec (xs : list Qc) (x : Qc) :
  let m := foldl (λ m y, if bool_decide (y < m) then y else m) x xs in
  m ∈ x :: xs ∧ ∀ y, y ∈ x :: xs → m ≤ y.
Proof.
  revert x. induction xs as [|z xs IH]; intros x; simpl.
  - split; [apply list_elem_of_here|].
    intros y ->%list_elem_of_singleton. apply Qcle_refl.
  - destruct (IH (if bool_decide (z < x) then z else x)) as [Hin Hle].
    split.
    + apply elem_of_cons in Hin as [Hin|Hin].
      * rewrite Hin. case_bool_decide; [apply list_elem_of_further|];
          apply list_elem_of_here.
      * by do 2 apply list_elem_of_further.
    + intros y Hy.
      assert ((if bool_decide (z < x) then z else x) ≤ x
              ∧ (if bool_decide (z < x) then z else x) ≤ z) as [Hx Hz].
      { case_bool_decide as Hzx.
        - split; [by apply Qclt_le_weak|apply Qcle_refl].
        - split; [apply Qcle_refl|]. by apply Qcnot_lt_le. }
      apply elem_of_cons in Hy as [->|Hy].
      * etrans; [|exact Hx]. apply Hle, list_elem_of_here.
      * apply elem_of_cons in Hy as [->|Hy].
        -- etrans; [|exact Hz]. apply Hle, list_elem_of_here.
        -- by apply Hle, list_elem_of_further.
Qed.

(** [exact_minimal_eigenvalue] returns the least of the eigenvalues that
    numpy's [eigh] gives for the dense matrix of the observable, and
    that value is one of them. *)
Theorem exact_minimal_eigenvalue_is_least
    (eigh : matrix → result (list Qc)) (observable : SparsePauliOp)
    (eigenvalues : list Qc) :
  eigh (to_matrix observable) = Ok eigenvalues → eigenvalues ≠ [] →
  ∃ m, exact_minimal_eigenvalue eigh observable = Ok m
       ∧ m ∈ eigenvalues ∧ ∀ x, x ∈ eigenvalues → m ≤ x.
Proof.
  intros Heigh Hne. unfold exact_minimal_eigenvalue. rewrite Heigh.
  cbn [mbind result_bind]. destruct eigenvalues as [|x xs]; [done|].
  eexists. split; [done|]. apply foldl_min_spec.
Qed.

Lemma exact_minimal_eigenvalue_is_least_witness :
  ∃ m, exact_minimal_eigenvalue (λ _, Ok [1; -1]) imaginary_z = Ok m
       ∧ m ∈ [1; -1] ∧ ∀ x, x ∈ [1; -1] → m ≤ x.
Proof.
  apply (exact_minimal_eigenvalue_is_least (λ _, Ok [1; -1]) imaginary_z);
    done.
Defined.

Local Open Scope nat_scope.

(** *** Products of two annihilators, and of an operator with its adjoint *)

Lemma simplify_four_rows_cancel n (P1 P2 Q1 Q2 Q3 Q4 : pattern) c1 c2 c3 c4 :
  Q1 = P1 → Q2 = P2 → Q3 = P2 → Q4 = P1 → P1 ≠ P2 →
  is_close_zero c1 = false → is_close_zero c2 = false →
  is_close_zero c3 = false → is_close_zero c4 = false →
  is_close_zero (cadd (cadd czero c1) c4) = true →
  is_close_zero (cadd (cadd czero c2) c3) = true →
  simplify (Op n [(Q1, c1); (Q2, c2); (Q3, c3); (Q4, c4)]) = zero_op n.
Proof.
  intros -> -> -> -> H12 Hc1 Hc2 Hc3 Hc4 H1 H2.
  unfold simplify. cbn [terms num_qubits].
  rewrite !filter_cons_True
    by (unfold non_zero; cbn [snd]; by rewrite ?Hc1, ?Hc2, ?Hc3, ?Hc4).
  rewrite filter_nil. unfold group_sums. cbn [foldl fst snd].
  repeat first [ rewrite add_at_nil | rewrite add_at_cons_eq
               | rewrite add_at_cons_ne by congruence ].
  cbn [length]. rewrite (bool_decide_eq_false_2 (2 = 4)) by lia.
  rewrite andb_false_r.
  rewrite !filter_cons_False by (unfold non_zero; cbn [snd]; by rewrite ?H1, ?H2).
  by rewrite filter_nil.
Qed.

Lemma simplify_four_rows_keep n (P1 P2 Q1 Q2 Q3 Q4 : pattern) c1 c2 c3 c4 :
  Q1 = P1 → Q2 = P2 → Q3 = P2 → Q4 = P1 → P1 ≠ P2 →
  is_close_zero c1 = false → is_close_zero c2 = false →
  is_close_zero c3 = false → is_close_zero c4 = false →
  is_close_zero (cadd (cadd czero c1) c4) = false →
  is_close_zero (cadd (cadd czero c2) c3) = false →
  simplify (Op n [(Q1, c1); (Q2, c2); (Q3, c3); (Q4, c4)])
  = Op n [(P1, cadd (cadd czero c1) c4); (P2, cadd (cadd czero c2) c3)].
Proof.
  intros -> -> -> -> H12 Hc1 Hc2 Hc3 Hc4 H1 H2.
  unfold simplify. cbn [terms num_qubits].
  rewrite !filter_cons_True
    by (unfold non_zero; cbn [snd]; by rewrite ?Hc1, ?Hc2, ?Hc3, ?Hc4).
  rewrite filter_nil. unfold group_sums. cbn [foldl fst snd].
  repeat first [ rewrite add_at_nil | rewrite add_at_cons_eq
               | rewrite add_at_cons_ne by congruence ].
  cbn [length]. rewrite (bool_decide_eq_false_2 (2 = 4)) by lia.
  rewrite andb_false_r.
  rewrite !filter_cons_True by (unfold non_zero; cbn [snd]; by rewrite ?H1, ?H2).
  by rewrite filter_nil.
Qed.

Lemma annihilator_squares_to_zero n i :
  i < n → (x ← compose (jw n i) (jw n i); Ok (simplify x)) = Ok (zero_op n).
Proof.
  intros Hi. unfold jw. rewrite compose_two_rows. cbn [mbind result_bind].
  unfold z_below, z_upto, x_at. rewrite !compose_term_tab.
  repeat (rewrite (popcount_tab_one n _ i) by (done || solve_support)).
  f_equal.
  apply (simplify_four_rows_cancel n (identity_pattern n) (z_only n i)).
  all: try (unfold z_only; solve_pattern_eq n).
  all: try (unfold z_only; solve_pattern_ne n i).
  all: solve_coeff.
Qed.

Lemma annihilators_anticommute_distinct n i j :
  i < n → j < n → i ≠ j →
  (x ← compose (jw n i) (jw n j);
   y ← compose (jw n j) (jw n i);
   s ← add x y; Ok (simplify s))
  = Ok (zero_op n).
Proof.
  intros Hi Hj Hij. unfold jw.
  rewrite !compose_two_rows. cbn [mbind result_bind].
  rewrite add_same_qubits. cbn [mbind result_bind app].
  unfold z_below, z_upto, x_at. rewrite !compose_term_tab.
  repeat (rewrite (popcount_tab_two n _ i j) by (done || solve_support)).
  f_equal.
  apply simplify_cancel_pairs.
  all: try solve_pattern_eq n.
  all: try first [solve_pattern_ne n i | solve_pattern_ne n j].
  all: destruct (decide (i < j)); solve_coeff.
Qed.

Lemma simplify_two_patterns_cancel n (P1 P2 Q1 Q2 Q3 Q4 Q5 Q6 Q7 Q8 : pattern)
    c1 c2 c3 c4 c5 c6 c7 c8 :
  Q1 = P1 → Q2 = P2 → Q3 = P2 → Q4 = P1 →
  Q5 = P1 → Q6 = P2 → Q7 = P2 → Q8 = P1 →
  P1 ≠ P2 →
  is_close_zero c1 = false → is_close_zero c2 = false →
  is_close_zero c3 = false → is_close_zero c4 = false →
  is_close_zero c5 = false → is_close_zero c6 = false →
  is_close_zero c7 = false → is_close_zero c8 = false →
  is_close_zero (cadd (cadd (cadd (cadd czero c1) c4) c5) c8) = true →
  is_close_zero (cadd (cadd (cadd (cadd czero c2) c3) c6) c7) = true →
  simplify (Op n [(Q1, c1); (Q2, c2); (Q3, c3); (Q4, c4);
                  (Q5, c5); (Q6, c6); (Q7, c7); (Q8, c8)])
  = zero_op n.
Proof.
  intros -> -> -> -> -> -> -> -> H12.
  intros Hc1 Hc2 Hc3 Hc4 Hc5 Hc6 Hc7 Hc8 H1 H2.
  unfold simplify. cbn [terms num_qubits].
  rewrite !filter_cons_True
    by (unfold non_zero; cbn [snd];
        by rewrite ?Hc1, ?Hc2, ?Hc3, ?Hc4, ?Hc5, ?Hc6, ?Hc7, ?Hc8).
  rewrite filter_nil.
  unfold group_sums. cbn [foldl fst snd].
  repeat first [ rewrite add_at_nil | rewrite add_at_cons_eq
               | rewrite add_at_cons_ne by congruence ].
  cbn [length]. rewrite (bool_decide_eq_false_2 (2 = 8)) by lia.
  rewrite andb_false_r.
  rewrite !filter_cons_False by (unfold non_zero; cbn [snd]; by rewrite ?H1, ?H2).
  by rewrite filter_nil.
Qed.

Lemma annihilators_anticommute_same n i :
  i < n →
  (x ← compose (jw n i) (jw n i);
   y ← compose (jw n i) (jw n i);
   s ← add x y; Ok (simplify s))
  = Ok (zero_op n).
Proof.
  intros Hi. unfold jw.
  rewrite !compose_two_rows. cbn [mbind result_bind].
  rewrite add_same_qubits. cbn [mbind result_bind app].
  unfold z_below, z_upto, x_at. rewrite !compose_term_tab.
  repeat (rewrite (popcount_tab_one n _ i) by (done || solve_support)).
  f_equal.
  apply (simplify_two_patterns_cancel n (identity_pattern n) (z_only n i)).
  all: try (unfold z_only; solve_pattern_eq n).
  all: try (unfold z_only; solve_pattern_ne n i).
  all: solve_coeff.
Qed.

Lemma creators_anticommute_same n i :
  i < n →
  (x ← compose (adjoint (jw n i)) (adjoint (jw n i));
   y ← compose (adjoint (jw n i)) (adjoint (jw n i));
   s ← add x y; Ok (simplify s))
  = Ok (zero_op n).
Proof.
  intros Hi. unfold jw, adjoint. cbn [terms num_qubits fmap list_fmap fst snd].
  rewrite !compose_two_rows. cbn [mbind result_bind].
  rewrite add_same_qubits. cbn [mbind result_bind app].
  unfold z_below, z_upto, x_at. rewrite !compose_term_tab.
  repeat (rewrite (popcount_tab_one n _ i) by (done || solve_support)).
  f_equal.
  apply (simplify_two_patterns_cancel n (identity_pattern n) (z_only n i)).
  all: try (unfold z_only; solve_pattern_eq n).
  all: try (unfold z_only; solve_pattern_ne n i).
  all: solve_coeff.
Qed.

Lemma creators_anticommute_distinct n i j :
  i < n → j < n → i ≠ j →
  (x ← compose (adjoint (jw n i)) (adjoint (jw n j));
   y ← compose (adjoint (jw n j)) (adjoint (jw n i));
   s ← add x y; Ok (simplify s))
  = Ok (zero_op n).
Proof.
  intros Hi Hj Hij. unfold jw, adjoint.
  cbn [terms num_qubits fmap list_fmap fst snd].
  rewrite !compose_two_rows. cbn [mbind result_bind].
  rewrite add_same_qubits. cbn [mbind result_bind app].
  unfold z_below, z_upto, x_at. rewrite !compose_term_tab.
  repeat (rewrite (popcount_tab_two n _ i j) by (done || solve_support)).
  f_equal.
  apply simplify_cancel_pairs.
  all: try solve_pattern_eq n.
  all: try first [solve_pattern_ne n i | solve_pattern_ne n j].
  all: destruct (decide (i < j)); solve_coeff.
Qed.

(** The occupation of one orbital. *)
Lemma occupation_rows n i :
  i < n →
  (x ← compose (jw n i) (adjoint (jw n i)); Ok (simplify x))
  = Ok (Op n [(identity_pattern n, c_half); (z_only n i, Cx (- half) 0)])
  ∧ (x ← compose (adjoint (jw n i)) (jw n i); Ok (simplify x))
    = Ok (Op n [(identity_pattern n, c_half); (z_only n i, c_half)]).
Proof.
  intros Hi. unfold jw, adjoint. cbn [terms num_qubits fmap list_fmap fst snd].
  rewrite !compose_two_rows. cbn [mbind result_bind].
  unfold z_below, z_upto, x_at. rewrite !compose_term_tab.
  repeat (rewrite (popcount_tab_one n _ i) by (done || solve_support)).
  split; f_equal.
  - erewrite (simplify_four_rows_keep n (identity_pattern n) (z_only n i)).
    + do 2 f_equal; [|f_equal]; f_equal; eval_flags;
        apply complex_eq; simpl; apply Qc_is_canon; closed_coeff.
    + unfold z_only; solve_pattern_eq n.
    + unfold z_only; solve_pattern_eq n.
    + unfold z_only; solve_pattern_eq n.
    + unfold z_only; solve_pattern_eq n.
    + unfold z_only; solve_pattern_ne n i.
    + solve_coeff.
    + solve_coeff.
    + solve_coeff.
    + solve_coeff.
    + solve_coeff.
    + solve_coeff.
  - erewrite (simplify_four_rows_keep n (identity_pattern n) (z_only n i)).
    + do 2 f_equal; [|f_equal]; f_equal; eval_flags;
        apply complex_eq; simpl; apply Qc_is_canon; closed_coeff.
    + unfold z_only; solve_pattern_eq n.
    + unfold z_only; solve_pattern_eq n.
    + unfold z_only; solve_pattern_eq n.
    + unfold z_only; solve_pattern_eq n.
    + unfold z_only; solve_pattern_ne n i.
    + solve_coeff.
    + solve_coeff.
    + solve_coeff.
    + solve_coeff.
    + solve_coeff.
    + solve_coeff.
Qed.

(** For all orbitals [i, j < n] two annihilation operators anticommute,
    [compose(a_i, a_j) + compose(a_j, a_i)] simplifies to the zero
    operator, and so do two creation operators. *)
Theorem jordan_wigner_annihilators_anticommute (n i j : nat) :
  i < n → j < n →
  ∃ a_i a_j,
    annihilation_operators_with_jordan_wigner n !! i = Some a_i ∧
    annihilation_operators_with_jordan_wigner n !! j = Some a_j ∧
    (x ← compose a_i a_j; y ← compose a_j a_i; s ← add x y; Ok (simplify s))
    = Ok (zero_op n) ∧
    (x ← compose (adjoint a_i) (adjoint a_j);
     y ← compose (adjoint a_j) (adjoint a_i);
     s ← add x y; Ok (simplify s))
    = Ok (zero_op n).
Proof.
  intros Hi Hj. exists (jw n i), (jw n j).
  split; [by apply jordan_wigner_lookup|].
  split; [by apply jordan_wigner_lookup|].
  destruct (decide (i = j)) as [->|Hij].
  - split; [by apply annihilators_anticommute_same
           |by apply creators_anticommute_same].
  - split; [by apply annihilators_anticommute_distinct
           |by apply creators_anticommute_distinct].
Qed.

Lemma jordan_wigner_annihilators_anticommute_witness :
  ∃ a_i a_j,
    annihilation_operators_with_jordan_wigner 4 !! 1 = Some a_i ∧
    annihilation_operators_with_jordan_wigner 4 !! 3 = Some a_j ∧
    (x ← compose a_i a_j; y ← compose a_j a_i; s ← add x y; Ok (simplify s))
    = Ok (zero_op 4) ∧
    (x ← compose (adjoint a_i) (adjoint a_j);
     y ← compose (adjoint a_j) (adjoint a_i);
     s ← add x y; Ok (simplify s))
    = Ok (zero_op 4).
Proof. apply (jordan_wigner_annihilators_anticommute 4 1 3); lia. Defined.

(** For every orbital [i < n]: annihilating twice gives the zero operator;
    [compose(a_i, a_i†)], the matrix product [a_i† a_i], simplifies to
    [0.5 I - 0.5 Z_i]; [compose(a_i†, a_i)], the product [a_i a_i†],
    simplifies to [0.5 I + 0.5 Z_i]. *)
Theorem jordan_wigner_single_orbital_products (n i : nat) :
  i < n →
  ∃ a_i,
    annihilation_operators_with_jordan_wigner n !! i = Some a_i ∧
    (x ← compose a_i a_i; Ok (simplify x)) = Ok (zero_op n) ∧
    (x ← compose a_i (adjoint a_i); Ok (simplify x))
    = Ok (Op n [(identity_pattern n, c_half); (z_only n i, Cx (- half) 0)]) ∧
    (x ← compose (adjoint a_i) a_i; Ok (simplify x))
    = Ok (Op n [(identity_pattern n, c_half); (z_only n i, c_half)]).
Proof.
  intros Hi. exists (jw n i). split; [by apply jordan_wigner_lookup|].
  split; [by apply annihilator_squares_to_zero|]. by apply occupation_rows.
Qed.

Lemma jordan_wigner_single_orbital_products_witness :
  ∃ a_i,
    annihilation_operators_with_jordan_wigner 4 !! 2 = Some a_i ∧
    (x ← compose a_i a_i; Ok (simplify x)) = Ok (zero_op 4) ∧
    (x ← compose a_i (adjoint a_i); Ok (simplify x))
    = Ok (Op 4 [(identity_pattern 4, c_half); (z_only 4 2, Cx (- half) 0)]) ∧
    (x ← compose (adjoint a_i) a_i; Ok (simplify x))
    = Ok (Op 4 [(identity_pattern 4, c_half); (z_only 4 2, c_half)]).
Proof. apply (jordan_wigner_single_orbital_products 4 2); lia. Defined.

(** *** The form of a simplified operator *)

Lemma NoDup_keys_foldl_add_at (ts acc : list term) :
  NoDup acc.*1 → NoDup (foldl (λ acc (t : term), add_at acc t.1 t.2) acc ts).*1.
Proof.
  revert acc. induction ts as [|t ts IH]; intros acc Hnd; [done|].
  simpl. by apply IH, NoDup_keys_add_at.
Qed.

Lemma NoDup_keys_group_sums ts : NoDup (group_sums ts).*1.
Proof. apply NoDup_keys_foldl_add_at, NoDup_nil_2. Qed.

Lemma add_at_new acc p c : p ∉ acc.*1 → add_at acc p c = acc ++ [(p, c)].
Proof.
  intros Hp. apply add_at_fresh.
  rewrite <- (length_fmap fst (add_at acc p c)), keys_add_at.
  rewrite decide_False by done. rewrite length_app, length_fmap. simpl. lia.
Qed.

Lemma foldl_add_at_NoDup (ts acc : list term) :
  NoDup (acc ++ ts).*1 →
  foldl (λ acc (t : term), add_at acc t.1 t.2) acc ts = acc ++ ts.
Proof.
  revert acc. induction ts as [|[p c] ts IH]; intros acc Hnd; simpl.
  - by rewrite app_nil_r.
  - rewrite add_at_new.
    + rewrite IH; [by rewrite <- app_assoc|]. by rewrite <- app_assoc.
    + rewrite fmap_app, fmap_cons in Hnd. apply NoDup_app in Hnd as (_ & Hd & _).
      intros Hin. apply (Hd p Hin). apply list_elem_of_here.
Qed.

Lemma group_sums_NoDup ts : NoDup ts.*1 → group_sums ts = ts.
Proof. intros H. unfold group_sums. by rewrite foldl_add_at_NoDup. Qed.

Lemma filter_non_zero_all (ts : list term) :
  Forall (λ t : term, is_close_zero t.2 = false) ts →
  filter (λ t, non_zero t = true) ts = ts.
Proof.
  induction 1 as [|t ts Ht _ IH]; [done|].
  rewrite filter_cons_True by (unfold non_zero; by rewrite Ht). by rewrite IH.
Qed.

Lemma NoDup_keys_filter (P : term → Prop) `{∀ t, Decision (P t)} (ts : list term) :
  NoDup ts.*1 → NoDup (filter P ts).*1.
Proof.
  intros Hnd. eapply sublist_NoDup; [exact Hnd|].
  apply fmap_sublist, sublist_filter.
Qed.

Lemma simplify_simplified a : simplified (simplify a).
Proof.
  unfold simplify.
  destruct (bool_decide (length (filter _ (terms a)) = length (terms a))) eqn:H1;
    simpl.
  - destruct (bool_decide (length (group_sums (filter _ (terms a))) = _)) eqn:H2;
      simpl.
    + apply bool_decide_eq_true_1 in H1, H2.
      pose proof (filter_all _ _ H1) as Hf.
      pose proof (NoDup_keys_group_sums (filter (λ t, non_zero t = true) (terms a)))
        as Hnd.
      rewrite (group_sums_all _ H2), Hf in Hnd.
      split; [done|]. right. rewrite <- Hf.
      apply Forall_forall. intros t [Ht _]%list_elem_of_filter.
      unfold non_zero in Ht. by destruct (is_close_zero t.2).
    + destruct (filter _ (group_sums _)) as [|k ks] eqn:Hk.
      * split; [apply NoDup_singleton|by left].
      * rewrite <- Hk. split.
        -- unfold paulis. cbn [terms]. apply NoDup_keys_filter, NoDup_keys_group_sums.
        -- right. cbn [terms]. apply Forall_forall.
           intros t [Ht _]%list_elem_of_filter.
           unfold non_zero in Ht. by destruct (is_close_zero t.2).
  - destruct (filter _ (group_sums _)) as [|k ks] eqn:Hk.
    + split; [apply NoDup_singleton|by left].
    + rewrite <- Hk. split.
      * unfold paulis. cbn [terms]. apply NoDup_keys_filter, NoDup_keys_group_sums.
      * right. cbn [terms]. apply Forall_forall.
        intros t [Ht _]%list_elem_of_filter.
        unfold non_zero in Ht. by destruct (is_close_zero t.2).
Qed.

Lemma simplify_fixed a : simplified a → simplify a = a.
Proof.
  intros [Hnd [Hz|Hnz]]; unfold simplify.
  - rewrite Hz. rewrite filter_cons_False by (intros H; vm_compute in H; done).
    rewrite filter_nil. simpl. destruct a as [n ts]. simpl in *. by subst.
  - rewrite filter_non_zero_all by done.
    rewrite group_sums_NoDup by done.
    by rewrite !bool_decide_eq_true_2.
Qed.

Lemma finish_simplified s1 s2 h : finish s1 s2 = Ok h → simplified h.
Proof.
  destruct s1 as [|a], s2 as [|b]; simpl; try done.
  - intros [= <-]. apply simplify_simplified.
  - intros [= <-]. apply simplify_simplified.
  - destruct (add a (scalar_mul c_half b)); simpl; [|done].
    intros [= <-]. apply simplify_simplified.
Qed.

(** The Hamiltonian that [build_qubit_hamiltonian] returns is in simplified
    form: no Pauli string occurs twice, the coefficients are not close to
    zero unless the operator is the single row (identity, 0), and
    simplifying it again changes nothing. *)
Theorem build_qubit_hamiltonian_is_simplified
    (one_body : one_body_tensor) (two_body : two_body_tensor)
    (annihilators creators : list SparsePauliOp) (hamiltonian : SparsePauliOp) :
  build_qubit_hamiltonian one_body two_body annihilators creators
  = Ok hamiltonian →
  NoDup (paulis hamiltonian)
  ∧ (terms hamiltonian = [(identity_pattern (num_qubits hamiltonian), czero)]
     ∨ Forall (λ t : term, is_close_zero t.2 = false) (terms hamiltonian))
  ∧ simplify hamiltonian = hamiltonian.
Proof.
  unfold build_qubit_hamiltonian.
  destruct (for_each _ _ (Zero, Zero)) as [sums|e]; simpl; [|done].
  intros H%finish_simplified. destruct (H) as [Hnd Hc].
  split; [done|]. split; [done|]. by apply simplify_fixed.
Qed.

Lemma build_qubit_hamiltonian_is_simplified_witness :
  NoDup (paulis (Op 1 [(([false], [false]), c_half); (([true], [false]), c_half)]))
  ∧ (terms (Op 1 [(([false], [false]), c_half); (([true], [false]), c_half)])
     = [(identity_pattern 1, czero)]
     ∨ Forall (λ t : term, is_close_zero t.2 = false)
         (terms (Op 1 [(([false], [false]), c_half);
                       (([true], [false]), c_half)])))
  ∧ simplify (Op 1 [(([false], [false]), c_half); (([true], [false]), c_half)])
    = Op 1 [(([false], [false]), c_half); (([true], [false]), c_half)].
Proof.
  apply (build_qubit_hamiltonian_is_simplified [[cone]] [[[[czero]]]]
           (annihilation_operators_with_jordan_wigner 1)
           (adjoint <$> annihilation_operators_with_jordan_wigner 1)).
  apply (bool_decide_eq_true_1 _); vm_compute; reflexivity.
Defined.

(** *** Operator lists that do not match *)

Lemma index_acts_on nq (ops : list SparsePauliOp) i a :
  Forall (acts_on nq) ops → index ops i = Ok a → acts_on nq a.
Proof.
  intros Hops. unfold index. destruct (ops !! i) as [b|] eqn:Hb; [|done].
  intros [= <-]. by eapply acts_on_lookup.
Qed.

Lemma index_take {A} (xs : list A) n i : i < n → index (take n xs) i = index xs i.
Proof. intros Hi. unfold index. by rewrite lookup_take_lt. Qed.

Section UnequalLists.

Context (one_body : one_body_tensor) (two_body : two_body_tensor).
Context (annihilators creators : list SparsePauliOp) (nq : nat).

Let n := length annihilators.

Hypothesis annihilators_ok : Forall (acts_on nq) annihilators.
Hypothesis creators_ok : Forall (acts_on nq) creators.

Lemma pair_step_raises_index_only i j sums :
  j < n → sums_on nq sums →
  ok_or IndexError (sums_on nq)
    (pair_step one_body two_body annihilators creators i sums j).
Proof.
  intros Hj [Hs1 Hs2]. unfold pair_step.
  destruct (entry2 one_body i j) as [h|e] eqn:Hh; cbn [mbind result_bind].
  2:{ by apply entry2_error in Hh as ->. }
  destruct (index creators i) as [c_i|e] eqn:Hci; cbn [mbind result_bind].
  2:{ by apply index_error in Hci as ->. }
  pose proof (index_acts_on nq creators i c_i creators_ok Hci) as Hci_ok.
  destruct (index_annihilator annihilators nq annihilators_ok j Hj)
    as (a_j & -> & Haj_ok).
  cbn [mbind result_bind].
  destruct (compose_acts_on nq c_i a_j Hci_ok Haj_ok) as (ca & -> & [Hca _]).
  cbn [mbind result_bind].
  destruct (iadd_collect nq sums.1 (scalar_mul h ca) Hs1)
    as (s1 & -> & Hs1' & _); [by rewrite num_qubits_scalar_mul|].
  cbn [mbind result_bind].
  destruct (index creators j) as [c_j|e] eqn:Hcj; cbn [mbind result_bind].
  2:{ by apply index_error in Hcj as ->. }
  pose proof (index_acts_on nq creators j c_j creators_ok Hcj) as Hcj_ok.
  destruct (compose_acts_on nq c_i c_j Hci_ok Hcj_ok) as (a_ij & -> & Haij).
  cbn [mbind result_bind].
  destruct (two_body_loops_outcome two_body annihilators nq annihilators_ok
              a_ij i j sums.2 Haij Hs2) as [Hok _].
  fold n in Hok |- *.
  destruct (for_each _ _ sums.2) as [s2|e]; simpl in *; [by split|done].
Qed.

Lemma pair_step_short_creators i sums :
  length creators < n → sums_on nq sums →
  pair_step one_body two_body annihilators creators i sums (length creators)
  = Err IndexError.
Proof.
  intros Hlen Hs.
  pose proof (pair_step_raises_index_only i (length creators) sums Hlen Hs)
    as Hok.
  unfold ok_or, pair_step in *.
  destruct (entry2 one_body i (length creators)) as [h|e];
    cbn [mbind result_bind] in *; [|by subst].
  destruct (index creators i) as [c_i|e]; cbn [mbind result_bind] in *;
    [|by subst].
  destruct (index annihilators (length creators)) as [a_j|e];
    cbn [mbind result_bind] in *; [|by subst].
  destruct (compose c_i a_j) as [ca|e]; cbn [mbind result_bind] in *;
    [|by subst].
  destruct (iadd sums.1 (scalar_mul h ca)) as [s1|e];
    cbn [mbind result_bind] in *; [|by subst].
  unfold index at 1. by rewrite lookup_ge_None_2.
Qed.

Lemma build_short_creators :
  length creators < n →
  build_qubit_hamiltonian one_body two_body annihilators creators
  = Err IndexError.
Proof.
  intros Hlen. unfold build_qubit_hamiltonian. fold n.
  rewrite (for_each_fails IndexError (sums_on nq) _ _ 0); try done.
  - intros s i Hi%elem_of_seq_0 Hs. apply for_each_ok_or; [|done].
    intros s' j Hj%elem_of_seq_0 Hs'. by apply pair_step_raises_index_only.
  - apply elem_of_seq_0_2. lia.
  - intros s Hs.
    apply (for_each_fails _ (sums_on nq) _ _ (length creators)); try done.
    + intros s' j Hj%elem_of_seq_0 Hs'. by apply pair_step_raises_index_only.
    + by apply elem_of_seq_0_2.
    + intros s' Hs'. by apply pair_step_short_creators.
Qed.

End UnequalLists.

Lemma build_reads_leading_creators one_body two_body annihilators creators :
  build_qubit_hamiltonian one_body two_body annihilators creators
  = build_qubit_hamiltonian one_body two_body annihilators
      (take (length annihilators) creators).
Proof.
  unfold build_qubit_hamiltonian. f_equal.
  apply for_each_ext. intros s i Hi%elem_of_seq_0.
  apply for_each_ext. intros s' j Hj%elem_of_seq_0.
  unfold pair_step. by rewrite !index_take.
Qed.

(** The two operator lists of [build_qubit_hamiltonian] need not have the
    same length: a list of creators shorter than the list of annihilators
    makes the module raise IndexError, and of a longer list only the
    leading operators, as many as there are annihilators, are read. *)
Theorem operator_lists_of_unequal_length
    (one_body : one_body_tensor) (two_body : two_body_tensor)
    (annihilators creators : list SparsePauliOp) (nq : nat) :
  Forall (acts_on nq) annihilators →
  Forall (acts_on nq) creators →
  (length creators < length annihilators →
   build_qubit_hamiltonian one_body two_body annihilators creators
   = Err IndexError)
  ∧ build_qubit_hamiltonian one_body two_body annihilators creators
    = build_qubit_hamiltonian one_body two_body annihilators
        (take (length annihilators) creators).
Proof.
  intros HA HC. split.
  - by apply (build_short_creators one_body two_body annihilators creators nq).
  - apply build_reads_leading_creators.
Qed.

Lemma operator_lists_of_unequal_length_witness :
  build_qubit_hamiltonian [[cone; cone]; [cone; cone]] (zero_two_body 2)
    (annihilation_operators_with_jordan_wigner 2)
    (take 1 (adjoint <$> annihilation_operators_with_jordan_wigner 2))
  = Err IndexError.
Proof.
  refine (proj1 (operator_lists_of_unequal_length _ _ _ _ 2 _ _) _).
  - apply jordan_wigner_acts_on.
  - apply Forall_take, jordan_wigner_adjoint_acts_on.
  - vm_compute. lia.
Defined.

(** *** No operator at all, and operators of different widths *)

(** With an empty list of annihilation operators no loop body runs, both
    sums stay the integer 0 and [.simplify()] is looked up on a float:
    the module raises AttributeError, whatever the tensors and creators. *)
Theorem build_qubit_hamiltonian_without_operators
    (one_body : one_body_tensor) (two_body : two_body_tensor)
    (creators : list SparsePauliOp) :
  build_qubit_hamiltonian one_body two_body [] creators = Err AttributeError.
Proof. reflexivity. Qed.

(** When the first creation operator and the first annihilation operator
    act on different numbers of qubits and [one_body[0][0]] exists, the
    first [compose] refuses them and the module raises QiskitError. *)
Theorem operators_of_different_widths
    (one_body : one_body_tensor) (two_body : two_body_tensor)
    (annihilators creators : list SparsePauliOp) (a c : SparsePauliOp)
    (h : complex) :
  annihilators !! 0 = Some a → creators !! 0 = Some c →
  num_qubits c ≠ num_qubits a →
  entry2 one_body 0 0 = Ok h →
  build_qubit_hamiltonian one_body two_body annihilators creators
  = Err QiskitError.
Proof.
  intros Ha Hc Hne Hh. unfold build_qubit_hamiltonian.
  destruct annihilators as [|a0 rest]; [done|]. injection Ha as ->.
  cbn [length seq for_each].
  replace (pair_step one_body two_body (a :: rest) creators 0 (Zero, Zero) 0)
    with (@Err (accumulator * accumulator) QiskitError); [done|].
  unfold pair_step. rewrite Hh. cbn [mbind result_bind]. unfold index.
  rewrite Hc. cbn [lookup list_lookup mbind result_bind].
  replace (compose c a) with (@Err SparsePauliOp QiskitError); [done|].
  unfold compose. by rewrite decide_False.
Qed.

Lemma operators_of_different_widths_witness :
  build_qubit_hamiltonian [[cone]] (zero_two_body 1)
    (annihilation_operators_with_jordan_wigner 1)
    (adjoint <$> annihilation_operators_with_jordan_wigner 2)
  = Err QiskitError.
Proof.
  apply (operators_of_different_widths _ _ _ _ (jw 1 0) (adjoint (jw 2 0)) cone);
    [reflexivity|reflexivity|vm_compute; lia|reflexivity].
Defined.

(** *** Tensors that are zero throughout *)

(** A loop over a sequence that is not empty, whose every pass keeps [P]
    and establishes [Q]. *)
Lemma for_each_inv_progress {S A} (P Q : S → Prop)
    (body : S → A → result S) xs s :
  xs ≠ [] →
  (∀ s a, a ∈ xs → P s → ∃ s', body s a = Ok s' ∧ P s' ∧ Q s') →
  P s → ∃ s', for_each body xs s = Ok s' ∧ P s' ∧ Q s'.
Proof.
  revert s. induction xs as [|a xs IH]; intros s Hne Hbody HP; [done|].
  simpl. destruct (Hbody s a (list_elem_of_here _ _) HP) as (s1 & -> & HP1 & HQ1).
  simpl. destruct xs as [|b xs]; [by exists s1|].
  apply IH; [done| |done].
  intros ??? ?. apply Hbody; [by apply list_elem_of_further|done].
Qed.

Lemma seq_nonempty n : 0 < n → seq 0 n ≠ [].
Proof. by destruct n; [lia|]. Qed.

Lemma iadd_zero_rows_nonempty nq s a :
  zero_rows nq s → num_qubits a = nq →
  ∃ s', iadd s (scalar_mul czero a) = Ok s' ∧ zero_rows nq s' ∧ holds_rows s'.
Proof.
  intros Hs Ha. unfold scalar_mul. rewrite is_zero_czero.
  destruct s as [|b]; simpl.
  - eexists. split; [done|]. split; [|done]. split; [done|].
    simpl. by repeat constructor.
  - destruct Hs as [Hb Hz]. unfold add. simpl. rewrite decide_True by congruence.
    simpl. eexists. split; [done|]. split.
    + split; [done|]. simpl. apply Forall_app. split; [done|].
      by repeat constructor.
    + simpl. by destruct (terms b).
Qed.

Lemma simplify_all_zero nq (ts : list term) :
  ts ≠ [] → Forall (λ t : term, t.2 = czero) ts →
  simplify (Op nq ts) = zero_op nq.
Proof.
  intros Hne Hz. unfold simplify. cbn [terms num_qubits].
  rewrite filter_none.
  2:{ eapply Forall_impl; [done|]. intros t Ht. unfold non_zero. by rewrite Ht. }
  rewrite (bool_decide_eq_false_2 (length [] = length ts)); [done|].
  by destruct ts.
Qed.

Section ZeroTensors.

Context (one_body : one_body_tensor) (two_body : two_body_tensor).
Context (annihilators creators : list SparsePauliOp) (nq : nat).

Let n := length annihilators.

Hypothesis some_operator : 0 < n.
Hypothesis same_length : length creators = n.
Hypothesis annihilators_ok : Forall (acts_on nq) annihilators.
Hypothesis creators_ok : Forall (acts_on nq) creators.
Hypothesis one_body_zero :
  ∀ i j, i < n → j < n → entry2 one_body i j = Ok czero.

Lemma one_body_step_zero i j s :
  i < n → j < n → zero_rows nq s →
  ∃ s', one_body_step one_body annihilators creators i s j = Ok s'
        ∧ zero_rows nq s' ∧ holds_rows s'.
Proof.
  intros Hi Hj Hs. unfold one_body_step. rewrite one_body_zero by done.
  cbn [mbind result_bind].
  destruct (index_creator annihilators creators nq same_length creators_ok i Hi)
    as (c_i & -> & Hci).
  destruct (index_annihilator annihilators nq annihilators_ok j Hj)
    as (a_j & -> & Haj).
  cbn [mbind result_bind].
  destruct (compose_acts_on nq c_i a_j Hci Haj) as (ca & -> & [Hca _]).
  cbn [mbind result_bind]. by apply iadd_zero_rows_nonempty.
Qed.

Lemma one_body_hamiltonian_zero :
  one_body_hamiltonian one_body annihilators creators = Ok (zero_op nq).
Proof.
  unfold one_body_hamiltonian. fold n.
  destruct (for_each_inv_progress (zero_rows nq) holds_rows
              (λ s i, for_each (one_body_step one_body annihilators creators i)
                        (seq 0 n) s)
              (seq 0 n) Zero) as (s & -> & Hz & Hr); [by apply seq_nonempty| |done|].
  - intros s i Hi%elem_of_seq_0 Hs.
    apply for_each_inv_progress; [by apply seq_nonempty| |done].
    intros s' j Hj%elem_of_seq_0 Hs'. by apply one_body_step_zero.
  - cbn [mbind result_bind]. destruct s as [|[nq' ts]]; [done|].
    simpl in *. destruct Hz as [-> Hz]. f_equal. by apply simplify_all_zero.
Qed.

End ZeroTensors.

(** With one operator or more in each list, all on the same qubits, and
    tensors whose entries are all zero, the module returns the zero
    operator: the single row (identity, 0). *)
Theorem zero_integrals_give_the_zero_operator
    (one_body : one_body_tensor) (two_body : two_body_tensor)
    (annihilators creators : list SparsePauliOp) (nq : nat) :
  0 < length annihilators →
  length creators = length annihilators →
  Forall (acts_on nq) annihilators →
  Forall (acts_on nq) creators →
  (∀ i j, i < length annihilators → j < length annihilators →
     entry2 one_body i j = Ok czero) →
  (∀ i j k l,
     i < length annihilators → j < length annihilators →
     k < length annihilators → l < length annihilators →
     entry4 two_body i j k l = Ok czero) →
  build_qubit_hamiltonian one_body two_body annihilators creators
  = Ok (Op nq [(identity_pattern nq, czero)]).
Proof.
  intros Hn Hlen HA HC H2 H4.
  rewrite (build_zero_two_body one_body two_body annihilators creators nq)
    by done.
  by apply one_body_hamiltonian_zero.
Qed.

Lemma zero_integrals_give_the_zero_operator_witness :
  build_qubit_hamiltonian [[czero; czero]; [czero; czero]] (zero_two_body 2)
    (annihilation_operators_with_jordan_wigner 2)
    (adjoint <$> annihilation_operators_with_jordan_wigner 2)
  = Ok (Op 2 [(identity_pattern 2, czero)]).
Proof.
  apply (zero_integrals_give_the_zero_operator _ _ _ _ 2).
  - vm_compute. lia.
  - reflexivity.
  - apply jordan_wigner_acts_on.
  - apply jordan_wigner_adjoint_acts_on.
  - intros [|[|i]] [|[|j]] Hi Hj; try reflexivity; vm_compute in Hi, Hj; lia.
  - apply entry4_zero_two_body.
Defined.

(** *** A one-body tensor with a single entry *)

Lemma filter_filter_same {A} (P : A → Prop) `{∀ x, Decision (P x)} (l : list A) :
  filter P (filter P l) = filter P l.
Proof.
  induction l as [|x l IH]; [done|]. rewrite filter_cons.
  destruct (decide (P x)); [|done]. by rewrite filter_cons_True, IH.
Qed.

Lemma simplify_drops_zero_rows nq (ts : list term) :
  filter (λ t, non_zero t = true) ts ≠ [] →
  simplify (Op nq ts) = simplify (Op nq (filter (λ t, non_zero t = true) ts)).
Proof.
  intros Hne. unfold simplify. cbn [terms num_qubits].
  rewrite filter_filter_same.
  rewrite (bool_decide_eq_true_2 (length (filter _ ts) = length (filter _ ts)))
    by done.
  destruct (bool_decide (length (filter _ ts) = length ts)) eqn:H1.
  - apply bool_decide_eq_true_1 in H1. by rewrite (filter_all _ _ H1).
  - cbn [andb].
    destruct (bool_decide (length (group_sums (filter _ ts)) = _)) eqn:H2;
      [|done].
    apply bool_decide_eq_true_1 in H2. rewrite (group_sums_all _ H2).
    rewrite filter_filter_same. by destruct (filter _ ts).
Qed.

Lemma filter_bind_list {A B} (P : B → Prop) `{∀ x, Decision (P x)}
    (f : A → list B) (l : list A) :
  filter P (l ≫= f) = l ≫= (λ a, filter P (f a)).
Proof.
  induction l as [|a l IH]; [done|]. by rewrite !bind_cons, filter_app, IH.
Qed.

Lemma bind_seq_single {B} (f : nat → list B) a n i :
  a ≤ i < a + n → (∀ k, a ≤ k < a + n → k ≠ i → f k = []) →
  seq a n ≫= f = f i.
Proof.
  revert a. induction n as [|n IH]; intros a Hi Hf; [lia|].
  cbn [seq]. rewrite bind_cons. destruct (decide (a = i)) as [->|Hne].
  - replace (seq (S i) n ≫= f) with (@nil B); [by rewrite app_nil_r|].
    symmetry. clear IH. assert (∀ k, S i ≤ k < S i + n → f k = []) as Hz.
    { intros k Hk. apply Hf; lia. }
    clear Hf Hi. revert Hz. generalize (S i). induction n as [|n IH];
      intros b Hz; [done|].
    cbn [seq]. rewrite bind_cons, Hz by lia. apply IH. intros k Hk. apply Hz. lia.
  - rewrite Hf by lia. apply IH; [lia|]. intros k Hk. apply Hf. lia.
Qed.

Lemma pair_rows_unit_entry n i a b :
  filter (λ t, non_zero t = true) (pair_rows n (unit_entry i) a b)
  = if decide (a = i ∧ b = i)
    then filter (λ t, non_zero t = true)
           ((λ t : term, (t.1, cmul cone t.2)) <$> terms (jw_pair n i i))
    else [].
Proof.
  unfold pair_rows, unit_entry. destruct (decide (a = i ∧ b = i)) as [[-> ->]|].
  - done.
  - unfold scalar_mul. rewrite is_zero_czero. done.
Qed.

Lemma unit_entry_rows n i :
  i < n →
  filter (λ t, non_zero t = true)
    (a ← seq 0 n; b ← seq 0 n; pair_rows n (unit_entry i) a b)
  = filter (λ t, non_zero t = true) (terms (jw_pair n i i)).
Proof.
  intros Hi. rewrite filter_bind_list.
  rewrite (bind_seq_single _ 0 n i) by first
    [ lia
    | intros k Hk Hne; rewrite filter_bind_list;
      induction (seq 0 n) as [|b l IH]; [done|];
      rewrite bind_cons, pair_rows_unit_entry, decide_False by tauto; done ].
  rewrite filter_bind_list.
  rewrite (bind_seq_single _ 0 n i) by first
    [ lia
    | intros k Hk Hne; rewrite pair_rows_unit_entry, decide_False by tauto;
      done ].
  rewrite pair_rows_unit_entry, decide_True by done.
  f_equal. rewrite <- (list_fmap_id (terms (jw_pair n i i))) at 2.
  apply list_fmap_ext. intros _ [p c] _. simpl. by rewrite cmul_one_l.
Qed.

Lemma jw_pair_same_nonzero n i :
  i < n →
  Forall (λ t : term, is_close_zero t.2 = false) (terms (jw_pair n i i)).
Proof.
  intros Hi. unfold jw_pair, jw, adjoint.
  cbn [terms num_qubits fmap list_fmap fst snd mbind list_bind app].
  unfold z_below, z_upto, x_at. rewrite !compose_term_tab.
  repeat (rewrite (popcount_tab_one n _ i) by (done || solve_support)).
  repeat constructor; cbn [snd]; solve_coeff.
Qed.

Lemma Ok_inj {A} (x y : A) : Ok x = Ok y → x = y.
Proof. by intros [=]. Qed.

Lemma jw_pair_same_rows n i :
  i < n →
  simplify (Op n (filter (λ t, non_zero t = true) (terms (jw_pair n i i))))
  = Op n [(identity_pattern n, c_half); (z_only n i, c_half)]
  ∧ filter (λ t, non_zero t = true) (terms (jw_pair n i i)) ≠ [].
Proof.
  intros Hi. rewrite filter_non_zero_all by by apply jw_pair_same_nonzero.
  split.
  - destruct (occupation_rows n i Hi) as [_ Hocc].
    rewrite compose_jw_pair in Hocc. by apply Ok_inj in Hocc.
  - intros H. apply (f_equal length) in H. done.
Qed.

(** For every number [n] of orbitals and every orbital [i < n]: with a
    one-body tensor whose only entry that is not zero is
    [one_body[i][i] = 1] and a zero two-body tensor, the module returns
    [0.5 I + 0.5 Z_i] (the product [a_i a_i†]), not the occupation
    [0.5 I - 0.5 Z_i] of the orbital. *)
Theorem single_orbital_term (n i : nat)
    (one_body : one_body_tensor) (two_body : two_body_tensor) :
  i < n →
  (∀ a b, a < n → b < n → entry2 one_body a b = Ok (unit_entry i a b)) →
  (∀ a b c d, a < n → b < n → c < n → d < n →
     entry4 two_body a b c d = Ok czero) →
  build_qubit_hamiltonian one_body two_body
    (annihilation_operators_with_jordan_wigner n)
    (adjoint <$> annihilation_operators_with_jordan_wigner n)
  = Ok (Op n [(identity_pattern n, c_half); (z_only n i, c_half)]).
Proof.
  intros Hi H2 H4.
  rewrite (build_zero_two_body one_body two_body _ _ n).
  - rewrite (one_body_hamiltonian_jw n (unit_entry i)); [|lia|done].
    f_equal. destruct (jw_pair_same_rows n i Hi) as [Hs Hne].
    rewrite simplify_drops_zero_rows; rewrite unit_entry_rows by done; done.
  - by rewrite length_fmap.
  - apply jordan_wigner_acts_on.
  - apply jordan_wigner_adjoint_acts_on.
  - by rewrite length_jordan_wigner.
Qed.

Lemma single_orbital_term_witness :
  build_qubit_hamiltonian [[czero; czero]; [czero; cone]] (zero_two_body 2)
    (annihilation_operators_with_jordan_wigner 2)
    (adjoint <$> annihilation_operators_with_jordan_wigner 2)
  = Ok (Op 2 [(identity_pattern 2, c_half); (z_only 2 1, c_half)]).
Proof.
  apply (single_orbital_term 2 1).
  - lia.
  - intros [|[|a]] [|[|b]] Ha Hb; try lia; reflexivity.
  - apply entry4_zero_two_body.
Defined.

(** *** The register of the Hamiltonian and the size of its matrix *)

Lemma bind_Ok {A B} (m : result A) (k : A → result B) r :
  m ≫= k = Ok r → ∃ x, m = Ok x ∧ k x = Ok r.
Proof. destruct m as [x|e]; [|done]. intros H. by exists x. Qed.

Lemma for_each_preserves {S A} (P : S → Prop) (body : S → A → result S)
    xs s s' :
  (∀ s a s', a ∈ xs → P s → body s a = Ok s' → P s') →
  P s → for_each body xs s = Ok s' → P s'.
Proof.
  revert s. induction xs as [|a xs IH]; intros s Hbody HP; simpl.
  - by intros [= <-].
  - intros (s1 & H1 & H2)%bind_Ok. apply (IH s1); [| |done].
    + intros s0 a0 s0' Hin HP0 Hb.
      eapply Hbody; [by apply list_elem_of_further|done|done].
    + eapply Hbody; [apply list_elem_of_here|done|done].
Qed.

Lemma index_Forall {A} (P : A → Prop) (xs : list A) i x :
  Forall P xs → index xs i = Ok x → P x.
Proof.
  intros HP. unfold index. destruct (xs !! i) as [y|] eqn:Hy; [|done].
  intros [= <-]. by eapply Forall_lookup_1.
Qed.

Lemma length_bxor a b n : length a = n → length b = n → length (bxor a b) = n.
Proof. intros Ha Hb. unfold bxor. rewrite length_zip_with. lia. Qed.

Lemma compose_term_rows nq (t1 t2 : term) :
  length t1.1.1 = nq ∧ length t1.1.2 = nq →
  length t2.1.1 = nq ∧ length t2.1.2 = nq →
  length (compose_term t1 t2).1.1 = nq ∧ length (compose_term t1 t2).1.2 = nq.
Proof.
  destruct t1 as [[z1 x1] c1], t2 as [[z2 x2] c2]. simpl.
  intros [? ?] [? ?]. split; by apply length_bxor.
Qed.

Lemma compose_well_formed nq a b c :
  well_formed nq a → well_formed nq b → compose a b = Ok c → well_formed nq c.
Proof.
  intros [Ha Hta] [Hb Htb]. unfold compose. destruct (decide _); [|done].
  intros [= <-]. split; [done|]. unfold rows_on in *. cbn [terms].
  apply Forall_forall. intros t (t1 & Ht & Ht1)%list_elem_of_bind.
  apply list_elem_of_fmap in Ht as (t2 & -> & Ht2).
  apply compose_term_rows.
  - by eapply Forall_forall in Hta.
  - by eapply Forall_forall in Htb.
Qed.

Lemma zero_op_well_formed nq : well_formed nq (zero_op nq).
Proof.
  split; [done|]. repeat constructor; simpl; apply length_replicate.
Qed.

Lemma scalar_mul_well_formed nq c a :
  well_formed nq a → well_formed nq (scalar_mul c a).
Proof.
  intros [Ha Hta]. unfold scalar_mul. destruct (is_zero c).
  - rewrite Ha. apply zero_op_well_formed.
  - split; [done|]. unfold rows_on in *. cbn [terms]. apply Forall_fmap.
    eapply Forall_impl; [done|]. by intros [[z x] c'].
Qed.

Lemma add_well_formed nq a b c :
  well_formed nq a → well_formed nq b → add a b = Ok c → well_formed nq c.
Proof.
  intros [Ha Hta] [Hb Htb]. unfold add. destruct (decide _); [|done].
  intros [= <-]. split; [done|]. by apply Forall_app.
Qed.

Lemma iadd_well_formed nq s a s' :
  acc_well_formed nq s → well_formed nq a → iadd s a = Ok s' →
  acc_well_formed nq s'.
Proof.
  destruct s as [|b]; cbn [iadd acc_well_formed].
  - by intros _ Ha [= <-].
  - intros Hb Ha (c & Hc & [= <-])%bind_Ok.
    exact (add_well_formed nq b a c Hb Ha Hc).
Qed.

Lemma rows_on_add_at nq acc p c :
  rows_on nq acc → length p.1 = nq ∧ length p.2 = nq →
  rows_on nq (add_at acc p c).
Proof.
  intros Hacc Hp. unfold rows_on in *.
  induction Hacc as [|[q s] acc Hq Hacc IH]; cbn [add_at].
  - constructor; [done|constructor].
  - destruct (decide (q = p)); constructor; done.
Qed.

Lemma rows_on_group_sums nq ts : rows_on nq ts → rows_on nq (group_sums ts).
Proof.
  intros Hts. unfold group_sums.
  assert (rows_on nq []) as Hacc by constructor.
  revert Hacc. generalize (@nil term).
  induction Hts as [|t ts Ht _ IH]; intros acc Hacc; [done|].
  simpl. apply IH. by apply rows_on_add_at.
Qed.

Lemma rows_on_filter nq (P : term → Prop) `{∀ t, Decision (P t)} ts :
  rows_on nq ts → rows_on nq (filter P ts).
Proof.
  intros Hts. apply Forall_forall. intros t [_ Ht]%list_elem_of_filter.
  by eapply Forall_forall in Hts.
Qed.

Lemma simplify_well_formed nq a : well_formed nq a → well_formed nq (simplify a).
Proof.
  intros [Ha Hta]. unfold simplify.
  destruct (_ && _); [done|].
  destruct (filter _ (group_sums _)) as [|k ks] eqn:Hk.
  - rewrite Ha. apply zero_op_well_formed.
  - split; [done|]. cbn [terms]. rewrite <- Hk.
    by apply rows_on_filter, rows_on_group_sums, rows_on_filter.
Qed.

Lemma finish_well_formed nq s1 s2 h :
  acc_well_formed nq s1 → acc_well_formed nq s2 → finish s1 s2 = Ok h →
  well_formed nq h.
Proof.
  destruct s1 as [|a], s2 as [|b]; cbn [finish acc_well_formed]; try done.
  - intros _ Hb [= <-]. by apply simplify_well_formed, scalar_mul_well_formed.
  - intros Ha _ [= <-]. by apply simplify_well_formed.
  - intros Ha Hb (q & Hq & [= <-])%bind_Ok. apply simplify_well_formed.
    refine (add_well_formed nq a _ q Ha _ Hq). by apply scalar_mul_well_formed.
Qed.

Section Registers.

Context (one_body : one_body_tensor) (two_body : two_body_tensor).
Context (annihilators creators : list SparsePauliOp) (nq : nat).

Hypothesis annihilators_ok : Forall (well_formed nq) annihilators.
Hypothesis creators_ok : Forall (well_formed nq) creators.

Lemma two_body_step_well_formed a_ij i j k l s s' :
  well_formed nq a_ij → acc_well_formed nq s →
  two_body_step two_body annihilators a_ij i j k s l = Ok s' →
  acc_well_formed nq s'.
Proof.
  intros Hij Hs. unfold two_body_step.
  intros (a_k & Hk & H)%bind_Ok. apply bind_Ok in H as (a_l & Hl & H).
  apply bind_Ok in H as (a_kl & Hkl & H). apply bind_Ok in H as (g & Hg & H).
  apply bind_Ok in H as (p & Hp & H).
  apply (index_Forall _ _ _ _ annihilators_ok) in Hk, Hl.
  pose proof (compose_well_formed nq _ _ _ Hk Hl Hkl) as Hakl.
  pose proof (compose_well_formed nq _ _ _ Hij Hakl Hp) as Hpw.
  refine (iadd_well_formed nq s _ s' Hs _ H). by apply scalar_mul_well_formed.
Qed.

Lemma pair_step_well_formed i j sums sums' :
  acc_well_formed nq sums.1 ∧ acc_well_formed nq sums.2 →
  pair_step one_body two_body annihilators creators i sums j = Ok sums' →
  acc_well_formed nq sums'.1 ∧ acc_well_formed nq sums'.2.
Proof.
  intros [Hs1 Hs2]. unfold pair_step.
  intros (h & Hh & H)%bind_Ok. apply bind_Ok in H as (c_i & Hci & H).
  apply bind_Ok in H as (a_j & Haj & H). apply bind_Ok in H as (ca & Hca & H).
  apply bind_Ok in H as (s1 & H1 & H). apply bind_Ok in H as (c_i' & Hci' & H).
  apply bind_Ok in H as (c_j & Hcj & H). apply bind_Ok in H as (a_ij & Hij & H).
  apply bind_Ok in H as (s2 & H2 & [= <-]).
  apply (index_Forall _ _ _ _ creators_ok) in Hci, Hci', Hcj.
  apply (index_Forall _ _ _ _ annihilators_ok) in Haj.
  pose proof (compose_well_formed nq _ _ _ Hci Haj Hca) as Hcaw.
  pose proof (compose_well_formed nq _ _ _ Hci' Hcj Hij) as Hijw.
  split; cbn [fst snd].
  - refine (iadd_well_formed nq sums.1 _ s1 Hs1 _ H1).
    by apply scalar_mul_well_formed.
  - revert H2. apply for_each_preserves; [|done].
    intros t k t' _ Ht. apply for_each_preserves; [|done].
    intros u l u' _ Hu. by apply two_body_step_well_formed.
Qed.

Lemma build_well_formed h :
  build_qubit_hamiltonian one_body two_body annihilators creators = Ok h →
  well_formed nq h.
Proof.
  unfold build_qubit_hamiltonian. intros (sums & Hsums & H)%bind_Ok.
  assert (acc_well_formed nq sums.1 ∧ acc_well_formed nq sums.2) as [H1 H2].
  { revert Hsums.
    apply (for_each_preserves
             (λ s, acc_well_formed nq s.1 ∧ acc_well_formed nq s.2)); [|done].
    intros s i s' _ Hs.
    apply (for_each_preserves
             (λ s, acc_well_formed nq s.1 ∧ acc_well_formed nq s.2)); [|done].
    intros t j t' _ Ht. by apply pair_step_well_formed. }
  exact (finish_well_formed nq sums.1 sums.2 h H1 H2 H).
Qed.

End Registers.

(** *** The size of the dense matrix *)

Lemma length_kron_row (ra rb : list complex) :
  length (x ← ra; cmul x <$> rb) = length ra * length rb.
Proof.
  induction ra as [|x ra IH]; [done|].
  rewrite bind_cons, length_app, length_fmap, IH. simpl. lia.
Qed.

Lemma kron_shape ca cb (a b : matrix) :
  Forall (λ r : list complex, length r = ca) a →
  Forall (λ r : list complex, length r = cb) b →
  length (kron a b) = length a * length b
  ∧ Forall (λ r : list complex, length r = ca * cb) (kron a b).
Proof.
  intros Ha Hb. unfold kron. induction Ha as [|ra a Hr _ [IH1 IH2]].
  - split; [done|]. constructor.
  - rewrite bind_cons. split.
    + rewrite length_app, length_fmap, IH1. simpl. lia.
    + apply Forall_app. split; [|done]. apply Forall_fmap.
      eapply Forall_impl; [exact Hb|]. intros rb Hrb. simpl.
      by rewrite length_kron_row, Hr, Hrb.
Qed.

Lemma kron_square da db (a b : matrix) :
  square da a → square db b → square (da * db) (kron a b).
Proof.
  intros [Ha Hra] [Hb Hrb].
  destruct (kron_shape da db a b Hra Hrb) as [H1 H2].
  split; [by rewrite H1, Ha, Hb|done].
Qed.

Lemma pauli_matrix_square z x : square 2 (pauli_matrix z x).
Proof. destruct z, x; split; try done; by repeat constructor. Qed.

Lemma foldl_kron_square (l : list (bool * bool)) d (m : matrix) :
  square d m →
  square (2 ^ length l * d)
    (foldl (λ m (zx : bool * bool), kron (pauli_matrix zx.1 zx.2) m) m l).
Proof.
  revert d m. induction l as [|zx l IH]; intros d m Hm.
  - cbn [length foldl]. by replace (2 ^ 0 * d) with d by (simpl; lia).
  - cbn [length foldl].
    replace (2 ^ S (length l) * d) with (2 ^ length l * (2 * d))
      by (rewrite Nat.pow_succ_r'; lia).
    apply IH. apply kron_square; [apply pauli_matrix_square|done].
Qed.

Lemma pattern_matrix_square nq (p : pattern) :
  length p.1 = nq → length p.2 = nq → square (2 ^ nq) (pattern_matrix p).
Proof.
  intros H1 H2. unfold pattern_matrix.
  replace (2 ^ nq) with (2 ^ length (zip p.1 p.2) * 1).
  - apply foldl_kron_square. split; [done|by repeat constructor].
  - rewrite length_zip_with, H1, H2. rewrite Nat.mul_1_r. f_equal. lia.
Qed.

Lemma mscale_square d c m : square d m → square d (mscale c m).
Proof.
  intros [H1 H2]. unfold mscale. split; [by rewrite length_fmap|].
  apply Forall_fmap. eapply Forall_impl; [done|]. intros r Hr. simpl.
  by rewrite length_fmap.
Qed.

Lemma madd_square d a b : square d a → square d b → square d (madd a b).
Proof.
  intros [Ha Hra] [Hb Hrb]. unfold madd. split.
  - rewrite length_zip_with. lia.
  - apply Forall_forall. intros r Hr.
    apply list_elem_of_lookup in Hr as [i Hi].
    apply lookup_zip_with_Some in Hi as (ra & rb & -> & Hia & Hib).
    rewrite length_zip_with.
    eapply Forall_lookup_1 in Hra; [|done]. eapply Forall_lookup_1 in Hrb; [|done].
    simpl in *. lia.
Qed.

Lemma zeros_square d : square d (zeros d).
Proof.
  unfold zeros. split; [apply length_replicate|].
  apply Forall_replicate. apply length_replicate.
Qed.

Lemma to_matrix_square nq a :
  well_formed nq a → square (2 ^ nq) (to_matrix a).
Proof.
  intros [Ha Hta]. unfold to_matrix. rewrite Ha.
  pose proof (zeros_square (2 ^ nq)) as Hz. revert Hz. generalize (zeros (2 ^ nq)).
  induction Hta as [|t ts [H1 H2] _ IH]; intros m Hm; [done|].
  cbn [foldl]. apply IH. apply madd_square; [done|].
  by apply mscale_square, pattern_matrix_square.
Qed.

Lemma jordan_wigner_well_formed n :
  Forall (well_formed n) (annihilation_operators_with_jordan_wigner n).
Proof.
  rewrite jordan_wigner_unfold. apply Forall_fmap, Forall_forall.
  intros i _. split; [done|]. unfold jw, z_below, z_upto, x_at.
  repeat constructor; simpl; apply length_tab.
Qed.

Lemma adjoint_well_formed nq a : well_formed nq a → well_formed nq (adjoint a).
Proof.
  intros [Ha Hta]. split; [done|]. unfold adjoint, rows_on in *. cbn [terms].
  apply Forall_fmap. eapply Forall_impl; [done|]. by intros [[z x] c].
Qed.

(** Operators whose rows have as many flags as the operator has qubits,
    all on [nq] qubits, give a Hamiltonian on [nq] qubits of the same
    kind, and the dense matrix that [exact_minimal_eigenvalue] hands to
    [eigh] has [2 ^ nq] rows of [2 ^ nq] entries. *)
Theorem hamiltonian_register_and_matrix_size
    (one_body : one_body_tensor) (two_body : two_body_tensor)
    (annihilators creators : list SparsePauliOp) (nq : nat)
    (hamiltonian : SparsePauliOp) :
  Forall (well_formed nq) annihilators →
  Forall (well_formed nq) creators →
  build_qubit_hamiltonian one_body two_body annihilators creators
  = Ok hamiltonian →
  num_qubits hamiltonian = nq
  ∧ Forall (λ t : term, length t.1.1 = nq ∧ length t.1.2 = nq)
      (terms hamiltonian)
  ∧ length (to_matrix hamiltonian) = 2 ^ nq
  ∧ Forall (λ r : list complex, length r = 2 ^ nq) (to_matrix hamiltonian).
Proof.
  intros HA HC Hb.
  pose proof (build_well_formed one_body two_body annihilators creators nq
                HA HC hamiltonian Hb) as Hw.
  destruct (to_matrix_square nq hamiltonian Hw) as [H1 H2].
  destruct Hw as [Hn Hr]. done.
Qed.

Lemma hamiltonian_register_and_matrix_size_witness :
  let hamiltonian :=
    Op 1 [(([false], [false]), c_half); (([true], [false]), c_half)] in
  num_qubits hamiltonian = 1
  ∧ Forall (λ t : term, length t.1.1 = 1 ∧ length t.1.2 = 1)
      (terms hamiltonian)
  ∧ length (to_matrix hamiltonian) = 2 ^ 1
  ∧ Forall (λ r : list complex, length r = 2 ^ 1) (to_matrix hamiltonian).
Proof.
  apply (hamiltonian_register_and_matrix_size [[cone]] [[[[czero]]]]
           (annihilation_operators_with_jordan_wigner 1)
           (adjoint <$> annihilation_operators_with_jordan_wigner 1)).
  - apply jordan_wigner_well_formed.
  - apply Forall_fmap. eapply Forall_impl; [apply jordan_wigner_well_formed|].
    apply adjoint_well_formed.
  - apply (bool_decide_eq_true_1 _); vm_compute; reflexivity.
Defined.

(** *** The dense matrix of an observable with real coefficients *)

Lemma lookup_bind_chunks {A B} (f : A → list B) (l : list A) k i1 i2 x :
  Forall (λ a, length (f a) = k) l → l !! i1 = Some x → i2 < k →
  (l ≫= f) !! (i1 * k + i2) = f x !! i2.
Proof.
  intros Hl. revert i1. induction Hl as [|a l Ha _ IH]; intros i1; [done|].
  rewrite bind_cons. destruct i1 as [|i1]; simpl.
  - intros [= ->] Hi2. by rewrite lookup_app_l by lia.
  - intros Hx Hi2. rewrite lookup_app_r by lia.
    replace (k + i1 * k + i2 - length (f a)) with (i1 * k + i2) by lia.
    by apply IH.
Qed.

Lemma matrix_entry_kron da db (a b : matrix) i1 j1 i2 j2 :
  square da a → square db b → i1 < da → j1 < da → i2 < db → j2 < db →
  matrix_entry (kron a b) (i1 * db + i2) (j1 * db + j2)
  = cmul (matrix_entry a i1 j1) (matrix_entry b i2 j2).
Proof.
  intros [Ha Hra] [Hb Hrb] Hi1 Hj1 Hi2 Hj2. unfold matrix_entry, kron.
  destruct (lookup_lt_is_Some_2 a i1) as [ra Hia]; [lia|].
  destruct (lookup_lt_is_Some_2 b i2) as [rb Hib]; [lia|].
  pose proof (Forall_lookup_1 _ _ _ _ Hra Hia) as Hlra.
  pose proof (Forall_lookup_1 _ _ _ _ Hrb Hib) as Hlrb. simpl in Hlra, Hlrb.
  destruct (lookup_lt_is_Some_2 ra j1) as [x Hx]; [lia|].
  destruct (lookup_lt_is_Some_2 rb j2) as [y Hy]; [lia|].
  rewrite (lookup_bind_chunks _ a db i1 i2 ra); [|..|done|lia].
  2:{ apply Forall_forall. intros r _. by rewrite length_fmap. }
  rewrite list_lookup_fmap, Hib, Hia. cbn [fmap option_fmap option_map mbind option_bind].
  rewrite (lookup_bind_chunks _ ra db j1 j2 x); [|..|done|lia].
  2:{ apply Forall_forall. intros c _. by rewrite length_fmap. }
  rewrite list_lookup_fmap, Hy, Hx. done.
Qed.

Lemma hermitian_kron da db a b :
  square da a → square db b → hermitian da a → hermitian db b →
  hermitian (da * db) (kron a b).
Proof.
  intros Ha Hb Hha Hhb i j Hi Hj.
  assert (0 < db) as Hdb by (destruct db; lia).
  rewrite (Nat.div_mod_eq i db), (Nat.div_mod_eq j db).
  rewrite !(Nat.mul_comm db).
  assert (i / db < da) by (apply Nat.Div0.div_lt_upper_bound; lia).
  assert (j / db < da) by (apply Nat.Div0.div_lt_upper_bound; lia).
  assert (i mod db < db) by (apply Nat.mod_upper_bound; lia).
  assert (j mod db < db) by (apply Nat.mod_upper_bound; lia).
  rewrite !(matrix_entry_kron da db) by done.
  rewrite cconj_mul. by rewrite <- Hha, <- Hhb.
Qed.

Lemma hermitian_pauli_matrix z x : hermitian 2 (pauli_matrix z x).
Proof.
  intros [|[|i]] [|[|j]] Hi Hj; try lia;
    destruct z, x; apply (bool_decide_eq_true_1 _); vm_compute; reflexivity.
Qed.

Lemma hermitian_foldl_kron (l : list (bool * bool)) d (m : matrix) :
  square d m → hermitian d m →
  hermitian (2 ^ length l * d)
    (foldl (λ m (zx : bool * bool), kron (pauli_matrix zx.1 zx.2) m) m l).
Proof.
  revert d m. induction l as [|zx l IH]; intros d m Hm Hh.
  - cbn [length foldl]. by replace (2 ^ 0 * d) with d by (simpl; lia).
  - cbn [length foldl].
    replace (2 ^ S (length l) * d) with (2 ^ length l * (2 * d))
      by (rewrite Nat.pow_succ_r'; lia).
    apply IH.
    + apply kron_square; [apply pauli_matrix_square|done].
    + apply hermitian_kron; try done;
        [apply pauli_matrix_square|apply hermitian_pauli_matrix].
Qed.

Lemma hermitian_pattern_matrix nq (p : pattern) :
  length p.1 = nq → length p.2 = nq → hermitian (2 ^ nq) (pattern_matrix p).
Proof.
  intros H1 H2. unfold pattern_matrix.
  replace (2 ^ nq) with (2 ^ length (zip p.1 p.2) * 1).
  - apply hermitian_foldl_kron.
    + split; [done|by repeat constructor].
    + intros [|i] [|j] Hi Hj; try lia.
      apply (bool_decide_eq_true_1 _); vm_compute; reflexivity.
  - rewrite length_zip_with, H1, H2. rewrite Nat.mul_1_r. f_equal. lia.
Qed.

Lemma matrix_entry_mscale c m i j :
  matrix_entry (mscale c m) i j = cmul c (matrix_entry m i j).
Proof.
  unfold matrix_entry, mscale. rewrite list_lookup_fmap.
  destruct (m !! i) as [r|]; simpl.
  - rewrite list_lookup_fmap. destruct (r !! j); simpl; [done|].
    apply complex_eq; simpl; ring.
  - apply complex_eq; simpl; ring.
Qed.

Lemma matrix_entry_madd d a b i j :
  square d a → square d b → i < d → j < d →
  matrix_entry (madd a b) i j = cadd (matrix_entry a i j) (matrix_entry b i j).
Proof.
  intros [Ha Hra] [Hb Hrb] Hi Hj. unfold matrix_entry, madd.
  destruct (lookup_lt_is_Some_2 a i) as [ra Hia]; [lia|].
  destruct (lookup_lt_is_Some_2 b i) as [rb Hib]; [lia|].
  pose proof (Forall_lookup_1 _ _ _ _ Hra Hia) as Hlra.
  pose proof (Forall_lookup_1 _ _ _ _ Hrb Hib) as Hlrb. simpl in Hlra, Hlrb.
  destruct (lookup_lt_is_Some_2 ra j) as [x Hx]; [lia|].
  destruct (lookup_lt_is_Some_2 rb j) as [y Hy]; [lia|].
  rewrite lookup_zip_with, Hia, Hib. simpl.
  by rewrite lookup_zip_with, Hx, Hy.
Qed.

Lemma hermitian_zeros d : hermitian d (zeros d).
Proof.
  intros i j Hi Hj. unfold matrix_entry, zeros.
  rewrite !lookup_replicate_2 by done. simpl.
  by rewrite !lookup_replicate_2 by done.
Qed.

Lemma is_real_conj c : is_real c → cconj c = c.
Proof.
  unfold is_real. intros H. apply complex_eq; simpl; [done|]. rewrite H. ring.
Qed.

Lemma to_matrix_hermitian nq a :
  well_formed nq a → Forall (λ t : term, is_real t.2) (terms a) →
  hermitian (2 ^ nq) (to_matrix a).
Proof.
  intros [Ha Hta] Hreal. unfold to_matrix. rewrite Ha.
  pose proof (zeros_square (2 ^ nq)) as Hz.
  pose proof (hermitian_zeros (2 ^ nq)) as Hh.
  revert Hz Hh. generalize (zeros (2 ^ nq)).
  induction Hta as [|t ts [H1 H2] Hts IH]; intros m Hm Hh; [done|].
  apply Forall_cons in Hreal as [Ht Hreal].
  cbn [foldl]. apply IH; [done|..].
  - apply madd_square; [done|]. by apply mscale_square, pattern_matrix_square.
  - intros i j Hi Hj.
    rewrite !(matrix_entry_madd (2 ^ nq)); try done;
      try by apply mscale_square, pattern_matrix_square.
    rewrite !matrix_entry_mscale, cconj_add, cconj_mul.
    rewrite (is_real_conj _ Ht), <- Hh by done.
    by rewrite <- (hermitian_pattern_matrix nq t.1 H1 H2) by done.
Qed.

(** The dense matrix of an observable whose coefficients are all real
    (and whose rows have one flag pair per qubit) is Hermitian: its entry
    [(i, j)] is the conjugate of its entry [(j, i)].  This is what
    [numpy.linalg.eigh] assumes of the matrix that
    [exact_minimal_eigenvalue] gives it. *)
Theorem real_coefficients_give_a_hermitian_matrix
    (nq : nat) (observable : SparsePauliOp) (i j : nat) :
  num_qubits observable = nq →
  Forall (λ t : term, length t.1.1 = nq ∧ length t.1.2 = nq)
    (terms observable) →
  Forall (λ t : term, is_real t.2) (terms observable) →
  i < 2 ^ nq → j < 2 ^ nq →
  matrix_entry (to_matrix observable) i j
  = cconj (matrix_entry (to_matrix observable) j i).
Proof.
  intros Hn Hrows Hreal Hi Hj. by apply (to_matrix_hermitian nq).
Qed.

Lemma real_coefficients_give_a_hermitian_matrix_witness :
  matrix_entry (to_matrix (Op 1 [(([true], [true]), c_half)])) 0 1
  = cconj (matrix_entry (to_matrix (Op 1 [(([true], [true]), c_half)])) 1 0).
Proof.
  apply (real_coefficients_give_a_hermitian_matrix 1).
  - reflexivity.
  - by repeat constructor.
  - by repeat constructor.
  - simpl; lia.
  - simpl; lia.
Defined.

(** *** The circuit and its parameter *)

(** [create_initial_quantum_circuit] raises CircuitError below four
    qubits; from four qubits on it returns the six gates of the source,
    whose parameter theta binds to exactly one value: one value leaves no
    free parameter, any other number of values raises ValueError. *)
Theorem initial_circuit_needs_four_qubits_and_one_value (num_qubits : nat) :
  (num_qubits < 4 →
   create_initial_quantum_circuit num_qubits = Err CircuitError)
  ∧ (4 ≤ num_qubits →
     ∃ qc,
       create_initial_quantum_circuit num_qubits = Ok qc
       ∧ circ_qubits qc = num_qubits
       ∧ circ_data qc = [RY (Free "theta") 1; X 1; CX 1 0; X 1; CX 0 2; CX 1 3]
       ∧ (∀ theta : Qc,
            ∃ bound,
              bind_parameters qc [theta] = Ok bound
              ∧ circ_data bound
                = [RY (Bound theta) 1; X 1; CX 1 0; X 1; CX 0 2; CX 1 3]
              ∧ parameters bound = [])
       ∧ (∀ values : list Qc,
            length values ≠ 1 → bind_parameters qc values = Err ValueError)).
Proof.
  split; [apply create_initial_quantum_circuit_small|].
  intros Hn. eexists. split; [by apply create_initial_quantum_circuit_ok|].
  split; [done|]. split; [done|]. split.
  - intros theta. eexists. split; [reflexivity|]. by split.
  - intros values Hlen. unfold bind_parameters.
    by rewrite decide_False.
Qed.

(** *** More on the cost function *)

Lemma real_dot_zeros (rs vs : list Qc) :
  Forall (λ r, r = 0%Qc) rs → real_dot rs vs = 0%Qc.
Proof.
  intros H. revert vs. induction H as [|r rs -> _ IH]; intros vs; [done|].
  destruct vs as [|v vs]; [done|]. unfold real_dot in *. cbn [zip_with foldr].
  rewrite IH. ring.
Qed.

Section CostFacts.

Context {World Backend ExecuteOpts : Type}.

Variable estimate_expectation_values :
  list pattern → QuantumCircuit → Backend → ExecuteOpts
  → @extern World (list Qc).

(** When every coefficient of the observable is real, every value that
    the cost function returns is real. *)
Theorem real_coefficients_give_a_real_cost
    (observable : SparsePauliOp) (ansatz : QuantumCircuit) (backend : Backend)
    (execute_opts : ExecuteOpts) (params : list Qc) (w w' : World)
    (energy : complex) :
  Forall (λ t : term, is_real t.2) (terms observable) →
  cost_function estimate_expectation_values observable ansatz backend
    execute_opts params w = (Ok energy, w') →
  is_real energy.
Proof.
  intros Hreal. unfold cost_function.
  destruct (bind_parameters ansatz params) as [circuit|e]; [|done].
  destruct (estimate_expectation_values _ _ _ _ w) as [[vs|e] w1]; [|done].
  unfold np_dot at 1. destruct (decide _) as [Hlen|]; [|done].
  pose proof (np_dot_parts _ _ Hlen) as Hd. unfold np_dot in Hd.
  rewrite decide_True in Hd by done. injection Hd as ->.
  intros [= <- _]. unfold is_real. cbn [im]. apply real_dot_zeros.
  unfold coeffs. rewrite <- list_fmap_compose. apply Forall_fmap.
  eapply Forall_impl; [done|]. by intros t Ht.
Qed.

(** The ways in which the cost function raises: a number of parameter
    values that the ansatz does not take is a ValueError, raised before the
    estimator is called; an estimator that raises passes its exception on;
    an answer of the estimator with another number of values than the
    observable has rows is a ValueError of [numpy.dot]. *)
Theorem cost_function_exceptions
    (observable : SparsePauliOp) (ansatz : QuantumCircuit) (backend : Backend)
    (execute_opts : ExecuteOpts) (params : list Qc) (w : World) :
  (length params ≠ length (parameters ansatz) →
   cost_function estimate_expectation_values observable ansatz backend
     execute_opts params w = (Err ValueError, w))
  ∧ (∀ circuit e w',
       bind_parameters ansatz params = Ok circuit →
       estimate_expectation_values (paulis observable) circuit backend
         execute_opts w = (Err e, w') →
       cost_function estimate_expectation_values observable ansatz backend
         execute_opts params w = (Err e, w'))
  ∧ (∀ circuit estimated_values w',
       bind_parameters ansatz params = Ok circuit →
       estimate_expectation_values (paulis observable) circuit backend
         execute_opts w = (Ok estimated_values, w') →
       length estimated_values ≠ length (terms observable) →
       cost_function estimate_expectation_values observable ansatz backend
         execute_opts params w = (Err ValueError, w')).
Proof.
  unfold cost_function. split; [|split].
  - intros Hlen. unfold bind_parameters. by rewrite decide_False.
  - intros circuit e w' -> ->. done.
  - intros circuit vs w' -> -> Hlen. unfold np_dot.
    rewrite decide_False; [done|]. unfold coeffs. rewrite length_fmap. congruence.
Qed.

End CostFacts.

Lemma real_coefficients_give_a_real_cost_witness :
  is_real (Cx half 0).
Proof.
  apply (real_coefficients_give_a_real_cost unit_estimator
           (Op 1 [(([true], [false]), c_half)]) one_parameter_circuit () ()
           [0%Qc] () ()).
  - by repeat constructor.
  - apply (bool_decide_eq_true_1 _); vm_compute; reflexivity.
Defined.

(** *** Runs that raise, and what a run does not depend on *)

Section DriverEdges.

Context {World Backend ExecuteOpts OptimizeResult : Type}.

Variable extract_data :
  string → @extern World (Qc * one_body_tensor * two_body_tensor * Qc).
Variable estimate_expectation_values :
  list pattern → QuantumCircuit → Backend → ExecuteOpts
  → @extern World (list Qc).
Variable minimize : @minimizer_fn World OptimizeResult.
Variable eigh : matrix → result (list Qc).

Lemma map_M_first_failure {A B} (f : A → @M World B) done a rest s rs s1 x s2 :
  map_M f done s = (Ok rs, s1) → f a s1 = (Err x, s2) →
  map_M f (done ++ a :: rest) s = (Err x, s2).
Proof.
  revert s rs. induction done as [|d done IH]; intros s rs.
  - intros [= _ <-] Ha. cbn [app map_M]. unfold mbind, M_bind. by rewrite Ha.
  - cbn [app map_M]. unfold mbind, M_bind.
    destruct (f d s) as [[b|y] s'] eqn:Hd; [|done].
    destruct (map_M f done s') as [[bs|y] s''] eqn:Hbs; [|done].
    unfold mret, M_ret. intros [= _ <-] Ha.
    by rewrite (IH s' bs Hbs Ha).
Qed.

(** The first file whose processing raises ends the run: the exception is
    the outcome of [calculate_hamiltonian_energy], the world and the calls
    made are those at the point of failure, and nothing is done for the
    files that follow. *)
Theorem first_failing_file_ends_the_run
    (uninitialized : nat → Qc)
    (done rest : list string) (file : string)
    (annihilators : list SparsePauliOp) (state_circuit : QuantumCircuit)
    (backend : Backend) (execute_opts : ExecuteOpts)
    (s s1 s2 : state) (rs : list (Qc * OptimizeResult * Qc * Qc)) (x : exn) :
  let process :=
    process_file extract_data estimate_expectation_values minimize eigh
      annihilators (adjoint <$> annihilators) state_circuit backend
      execute_opts in
  map_M process done s = (Ok rs, s1) →
  process file s1 = (Err x, s2) →
  calculate_hamiltonian_energy extract_data estimate_expectation_values
    minimize eigh uninitialized (done ++ file :: rest) annihilators
    state_circuit backend execute_opts s
  = (Err x, s2).
Proof.
  intros process Hdone Hfile. rewrite calculate_unfold. fold process.
  by rewrite (map_M_first_failure process done file rest s rs s1 x s2).
Qed.

(** The arrays come from [numpy.empty], whose content is arbitrary; what
    [calculate_hamiltonian_energy] returns does not depend on that
    content: every slot is overwritten before the arrays are returned. *)
Theorem no_uninitialized_slot_is_returned
    (uninitialized uninitialized' : nat → Qc)
    (data_file_Paths : list string) (annihilators : list SparsePauliOp)
    (state_circuit : QuantumCircuit) (backend : Backend)
    (execute_opts : ExecuteOpts) (s : state) :
  calculate_hamiltonian_energy extract_data estimate_expectation_values
    minimize eigh uninitialized data_file_Paths annihilators state_circuit
    backend execute_opts s
  = calculate_hamiltonian_energy extract_data estimate_expectation_values
      minimize eigh uninitialized' data_file_Paths annihilators state_circuit
      backend execute_opts s.
Proof. by rewrite !calculate_unfold. Qed.

(** [get_dissociation_curve_parameters] raises CircuitError for fewer than
    four orbitals, before any file is read; from four orbitals on it is
    [calculate_hamiltonian_energy] on the Jordan-Wigner operators and the
    six-gate circuit, and with no file path it returns four empty arrays
    without any call to the outside. *)
Theorem dissociation_curve_needs_four_orbitals
    (uninitialized : nat → Qc)
    (data_file_Paths : list string) (num_orbitals : nat) (backend : Backend)
    (execute_opts : ExecuteOpts) (s : state) :
  (num_orbitals < 4 →
   get_dissociation_curve_parameters extract_data estimate_expectation_values
     minimize eigh uninitialized data_file_Paths num_orbitals backend
     execute_opts s
   = (Err CircuitError, s))
  ∧ (4 ≤ num_orbitals →
     get_dissociation_curve_parameters extract_data
       estimate_expectation_values minimize eigh uninitialized
       data_file_Paths num_orbitals backend execute_opts s
     = calculate_hamiltonian_energy extract_data estimate_expectation_values
         minimize eigh uninitialized data_file_Paths
         (annihilation_operators_with_jordan_wigner num_orbitals)
         (Circ num_orbitals
            [RY (Free "theta") 1; X 1; CX 1 0; X 1; CX 0 2; CX 1 3])
         backend execute_opts s)
  ∧ (4 ≤ num_orbitals →
     get_dissociation_curve_parameters extract_data
       estimate_expectation_values minimize eigh uninitialized
       [] num_orbitals backend execute_opts s
     = (Ok ([], [], [], []), s)).
Proof.
  unfold get_dissociation_curve_parameters, lift.
  split; [|split]; intros Hn; unfold mbind at 1; unfold M_bind.
  - by rewrite create_initial_quantum_circuit_small.
  - by rewrite create_initial_quantum_circuit_ok.
  - by rewrite create_initial_quantum_circuit_ok.
Qed.

End DriverEdges.

Lemma first_failing_file_ends_the_run_witness :
  calculate_hamiltonian_energy
    (λ _ (w : unit), (@Err (Qc * one_body_tensor * two_body_tensor * Qc)
                        ValueError, w))
    unit_estimator
    (λ _ _ _ (w : unit), (Ok (), w))
    (λ _, Ok [0%Qc]) (λ _, 0%Qc) ([] ++ "a" :: ["b"])
    (annihilation_operators_with_jordan_wigner 1)
    one_parameter_circuit () () (State () [])
  = (Err ValueError, State () [ExtractData "a"]).
Proof.
  apply (first_failing_file_ends_the_run _ unit_estimator _ _ _ [] ["b"] "a"
           _ _ () () (State () []) (State () []) _ []);
    reflexivity.
Defined.

(** *** Adding the repulsion energy *)

Section Curves.

Context {World Backend ExecuteOpts OptimizeResult : Type}.

Variable extract_data :
  string → @extern World (Qc * one_body_tensor * two_body_tensor * Qc).
Variable estimate_expectation_values :
  list pattern → QuantumCircuit → Backend → ExecuteOpts
  → @extern World (list Qc).
Variable minimize : @minimizer_fn World OptimizeResult.
Variable eigh : matrix → result (list Qc).
Variable uninitialized : nat → Qc.

(** The exact curve of a run that returned: adding the repulsion energies
    to the exact eigenvalues never raises and gives one value per file
    path, the float64 sum of the two slots; Python's [min] of that curve is
    its least value when there is a file path and raises ValueError when
    there is none. *)
Theorem exact_curve_of_a_run
    (float_add : Qc → Qc → Qc) (data_file_Paths : list string) (annihilators : list SparsePauliOp)
    (state_circuit : QuantumCircuit) (backend : Backend)
    (execute_opts : ExecuteOpts) (s s' : state)
    (distances : list Qc) (optimized_results : list (option OptimizeResult))
    (eigenvalues repulsions : list Qc) :
  calculate_hamiltonian_energy extract_data estimate_expectation_values
    minimize eigh uninitialized data_file_Paths annihilators state_circuit
    backend execute_opts s
  = (Ok (distances, optimized_results, eigenvalues, repulsions), s') →
  ∃ curve,
    add_repulsion_energy float_add eigenvalues repulsions = Ok curve
    ∧ length curve = length data_file_Paths
    ∧ (∀ i x y, eigenvalues !! i = Some x → repulsions !! i = Some y →
         curve !! i = Some (float_add x y))
    ∧ (data_file_Paths = [] → py_min curve = Err ValueError)
    ∧ (data_file_Paths ≠ [] →
       ∃ m, py_min curve = Ok m ∧ m ∈ curve ∧ ∀ x, x ∈ curve → (m ≤ x)%Qc).
Proof.
  rewrite calculate_unfold.
  destruct (map_M _ data_file_Paths s) as [[rs|x] s1] eqn:Hrs; [|done].
  intros [= <- <- <- <- <-]. apply length_map_M in Hrs.
  unfold add_repulsion_energy, np_add.
  rewrite decide_True by (by rewrite !length_fmap).
  eexists. split; [done|].
  assert (length (zip_with float_add ((λ v, v.1.2) <$> rs)
                    ((λ v, v.2) <$> rs))
          = length data_file_Paths) as Hlen.
  { rewrite length_zip_with, !length_fmap. lia. }
  split; [done|]. split; [|split].
  - intros i x y Hx Hy. by rewrite lookup_zip_with, Hx, Hy.
  - intros ->. by destruct (zip_with _ _ _).
  - intros Hne. destruct (zip_with _ _ _) as [|c curve].
    + destruct data_file_Paths; done.
    + eexists. split; [done|]. apply foldl_min_spec.
Qed.

End Curves.

Lemma exact_curve_of_a_run_witness :
  ∃ curve,
    add_repulsion_energy Qcplus [2%Qc] [1%Qc] = Ok curve
    ∧ length curve = length ["a"]
    ∧ (∀ i x y, [2%Qc] !! i = Some x → [1%Qc] !! i = Some y →
         curve !! i = Some (x + y)%Qc)
    ∧ (["a"] = [] → py_min curve = Err ValueError)
    ∧ (["a"] ≠ [] →
       ∃ m, py_min curve = Ok m ∧ m ∈ curve ∧ ∀ x, x ∈ curve → (m ≤ x)%Qc).
Proof.
  apply (exact_curve_of_a_run
           (λ _ (w : unit), (Ok (0%Qc, [[cone]], zero_two_body 1, 1%Qc), w))
           unit_estimator (λ _ _ _ (w : unit), (Ok (), w))
           (λ _, Ok [2%Qc]) (λ _, 0%Qc) Qcplus ["a"]
           (annihilation_operators_with_jordan_wigner 1)
           one_parameter_circuit () () (State () [])
           (State () [ExtractData "a"; Minimize [0%Qc] "COBYLA"])
           [0%Qc] [Some ()]).
  vm_compute. reflexivity.
Defined.

(** *** The module's loops against the formula with [compose] *)

Lemma formula_hamiltonian_with_dot one_body two_body annihilators creators :
  formula_hamiltonian one_body two_body annihilators creators
  = formula_with dot one_body two_body annihilators creators.
Proof. reflexivity. Qed.

Lemma result_bind_ret {A} (m : result A) : m ≫= Ok = m.
Proof. by destruct m. Qed.

Lemma for_each_app {S A} (body : S → A → result S) xs ys s :
  for_each body (xs ++ ys) s = (s' ← for_each body xs s; for_each body ys s').
Proof.
  revert s. induction xs as [|a xs IH]; intros s; [done|].
  cbn [app for_each]. destruct (body s a) as [s1|e]; [|done].
  cbn [mbind result_bind]. apply IH.
Qed.

Lemma for_each_bind {S A B} (body : S → B → result S) (f : A → list B) xs s :
  for_each body (xs ≫= f) s = for_each (λ s a, for_each body (f a) s) xs s.
Proof.
  revert s. induction xs as [|a xs IH]; intros s; [done|].
  rewrite bind_cons, for_each_app. cbn [for_each].
  destruct (for_each body (f a) s) as [s1|e]; [|done].
  cbn [mbind result_bind]. apply IH.
Qed.

Lemma for_each_singleton {S A} (body : S → A → result S) a s :
  for_each body [a] s = body s a.
Proof. cbn [for_each]. apply result_bind_ret. Qed.

(** A loop on a pair of states whose body works on each component by
    itself is the two loops run one after the other, when the only
    exception that a body raises is [e]. *)
Lemma for_each_split {S1 S2 A} (e : exn) (P1 : S1 → Prop) (P2 : S2 → Prop)
    (b1 : S1 → A → result S1) (b2 : S2 → A → result S2)
    (body : S1 * S2 → A → result (S1 * S2)) xs s1 s2 :
  (∀ s1 s2 a, a ∈ xs → P1 s1 → P2 s2 →
     body (s1, s2) a = (t1 ← b1 s1 a; t2 ← b2 s2 a; Ok (t1, t2))) →
  (∀ s a, a ∈ xs → P1 s → ok_or e P1 (b1 s a)) →
  (∀ s a, a ∈ xs → P2 s → ok_or e P2 (b2 s a)) →
  P1 s1 → P2 s2 →
  for_each body xs (s1, s2)
  = (t1 ← for_each b1 xs s1; t2 ← for_each b2 xs s2; Ok (t1, t2)).
Proof.
  revert s1 s2. induction xs as [|a xs IH]; intros s1 s2 Hbody H1 H2 HP1 HP2;
    [done|].
  cbn [for_each]. rewrite Hbody by (done || apply list_elem_of_here).
  pose proof (H1 s1 a (list_elem_of_here _ _) HP1) as Ha1.
  pose proof (H2 s2 a (list_elem_of_here _ _) HP2) as Ha2.
  assert (∀ s, P1 s → ok_or e P1 (for_each b1 xs s)) as Hrest1.
  { intros s Hs. apply for_each_ok_or; [|done].
    intros ??? ?. apply H1; [by apply list_elem_of_further|done]. }
  destruct (b1 s1 a) as [t1|e1]; cbn [mbind result_bind ok_or] in *;
    [|by subst].
  destruct (b2 s2 a) as [t2|e2]; cbn [mbind result_bind ok_or] in *.
  - apply IH; try done.
    + intros ????? ?. apply Hbody; [by apply list_elem_of_further|done..].
    + intros ??? ?. apply H1; [by apply list_elem_of_further|done].
    + intros ??? ?. apply H2; [by apply list_elem_of_further|done].
  - subst e2. specialize (Hrest1 t1 Ha1).
    destruct (for_each b1 xs t1) as [t1'|e1]; cbn [mbind result_bind ok_or] in *;
      [done|by subst].
Qed.

Section ComposeFormula.

Context (one_body : one_body_tensor) (two_body : two_body_tensor).
Context (annihilators creators : list SparsePauliOp) (nq : nat).

Let n := length annihilators.

Hypothesis same_length : length creators = n.
Hypothesis annihilators_ok : Forall (acts_on nq) annihilators.
Hypothesis creators_ok : Forall (acts_on nq) creators.

(** The part of one pass over [j] that works on the two-body sum. *)
Let two_body_pass (i : nat) (s : accumulator) (j : nat) : result accumulator :=
  c_i ← index creators i;
  c_j ← index creators j;
  a_ij ← compose c_i c_j;
  for_each (λ tbs k,
      for_each (two_body_step two_body annihilators a_ij i j k) (seq 0 n) tbs)
    (seq 0 n) s.

(** The body of the formula's quadruple sum. *)
Let quadruple_step (s : accumulator) (ijkl : nat * nat * nat * nat)
  : result accumulator :=
  let '(i, j, k, l) := ijkl in
  g ← entry4 two_body i j k l;
  c_i ← index creators i; c_j ← index creators j;
  a_k ← index annihilators k; a_l ← index annihilators l;
  cc ← compose c_i c_j; aa ← compose a_k a_l;
  p ← compose cc aa;
  iadd s (scalar_mul g p).

Lemma pair_step_components i j s1 s2 :
  pair_step one_body two_body annihilators creators i (s1, s2) j
  = (t1 ← one_body_step one_body annihilators creators i s1 j;
     t2 ← two_body_pass i s2 j; Ok (t1, t2)).
Proof.
  unfold pair_step, one_body_step, two_body_pass. cbn [fst snd]. fold n.
  destruct (entry2 one_body i j); cbn [mbind result_bind]; [|done].
  destruct (index creators i); cbn [mbind result_bind]; [|done].
  destruct (index annihilators j); cbn [mbind result_bind]; [|done].
  destruct (compose _ _); cbn [mbind result_bind]; [|done].
  destruct (iadd _ _); cbn [mbind result_bind]; [|done].
  destruct (index creators j); cbn [mbind result_bind]; [|done].
  destruct (compose _ _); cbn [mbind result_bind]; [|done].
  by destruct (for_each _ _ s2).
Qed.

Lemma one_body_step_outcome i j s :
  i < n → j < n → acc_on nq s →
  ok_or IndexError (acc_on nq)
    (one_body_step one_body annihilators creators i s j).
Proof.
  intros Hi Hj Hs. unfold one_body_step.
  destruct (entry2 one_body i j) as [h|e] eqn:Hh; cbn [mbind result_bind].
  2:{ by apply entry2_error in Hh as ->. }
  destruct (index_creator annihilators creators nq same_length creators_ok i Hi)
    as (c_i & -> & Hci).
  destruct (index_annihilator annihilators nq annihilators_ok j Hj)
    as (a_j & -> & Haj).
  cbn [mbind result_bind].
  destruct (compose_acts_on nq c_i a_j Hci Haj) as (ca & -> & [Hca _]).
  cbn [mbind result_bind].
  destruct (iadd_collect nq s (scalar_mul h ca) Hs) as (s' & -> & Hs' & _);
    [by rewrite num_qubits_scalar_mul|done].
Qed.

Lemma two_body_pass_outcome i j s :
  i < n → j < n → acc_on nq s →
  ok_or IndexError (acc_on nq) (two_body_pass i s j).
Proof.
  intros Hi Hj Hs. unfold two_body_pass.
  destruct (index_creator annihilators creators nq same_length creators_ok i Hi)
    as (c_i & -> & Hci).
  destruct (index_creator annihilators creators nq same_length creators_ok j Hj)
    as (c_j & -> & Hcj).
  cbn [mbind result_bind].
  destruct (compose_acts_on nq c_i c_j Hci Hcj) as (a_ij & -> & Haij).
  cbn [mbind result_bind].
  by apply (two_body_loops_outcome two_body annihilators nq annihilators_ok).
Qed.

Lemma two_body_pass_quadruple i j s :
  i < n → j < n →
  two_body_pass i s j
  = for_each (λ s k, for_each (λ s l, quadruple_step s (i, j, k, l)) (seq 0 n) s)
      (seq 0 n) s.
Proof.
  intros Hi Hj. unfold two_body_pass.
  destruct (index_creator annihilators creators nq same_length creators_ok i Hi)
    as (c_i & Hci & Hci_ok).
  destruct (index_creator annihilators creators nq same_length creators_ok j Hj)
    as (c_j & Hcj & Hcj_ok).
  rewrite Hci, Hcj. cbn [mbind result_bind].
  destruct (compose_acts_on nq c_i c_j Hci_ok Hcj_ok) as (a_ij & Hij & Haij).
  rewrite Hij. cbn [mbind result_bind].
  apply for_each_ext. intros s1 k Hk%elem_of_seq_0.
  apply for_each_ext. intros s2 l Hl%elem_of_seq_0.
  unfold two_body_step, quadruple_step. rewrite Hci, Hcj.
  destruct (index_annihilator annihilators nq annihilators_ok k Hk)
    as (a_k & -> & Hak).
  destruct (index_annihilator annihilators nq annihilators_ok l Hl)
    as (a_l & -> & Hal).
  cbn [mbind result_bind]. rewrite Hij.
  destruct (compose_acts_on nq a_k a_l Hak Hal) as (a_kl & -> & Hakl).
  cbn [mbind result_bind]. by destruct (entry4 two_body i j k l).
Qed.

Lemma build_is_formula_with_compose :
  build_qubit_hamiltonian one_body two_body annihilators creators
  = formula_with compose one_body two_body annihilators creators.
Proof.
  unfold build_qubit_hamiltonian, formula_with. fold n. cbv zeta.
  (* the module's loops, split into their two components *)
  rewrite (for_each_split IndexError (acc_on nq) (acc_on nq)
             (λ s i, for_each (one_body_step one_body annihilators creators i)
                       (seq 0 n) s)
             (λ s i, for_each (two_body_pass i) (seq 0 n) s)); try done.
  - (* the formula's loops over flattened index lists *)
    rewrite (for_each_bind _ (λ i, j ← seq 0 n; [(i, j)])).
    rewrite (for_each_bind _ (λ i, j ← seq 0 n; k ← seq 0 n; l ← seq 0 n;
                                   [(i, j, k, l)])).
    replace (for_each (λ s i, for_each _ (j ← seq 0 n; [(i, j)]) s) (seq 0 n) Zero)
      with (for_each (λ s i, for_each
                (one_body_step one_body annihilators creators i) (seq 0 n) s)
              (seq 0 n) Zero).
    2:{ apply for_each_ext. intros s i _. rewrite for_each_bind.
        apply for_each_ext. intros s' j _. by rewrite for_each_singleton. }
    destruct (for_each (λ s i, for_each (one_body_step _ _ _ i) _ s) _ Zero)
      as [t1|e]; cbn [mbind result_bind]; [|done].
    replace (for_each (λ s i, for_each (two_body_pass i) (seq 0 n) s)
               (seq 0 n) Zero)
      with (for_each (λ s i, for_each quadruple_step
                (j ← seq 0 n; k ← seq 0 n; l ← seq 0 n; [(i, j, k, l)]) s)
              (seq 0 n) Zero).
    2:{ apply for_each_ext. intros s i Hi%elem_of_seq_0. rewrite for_each_bind.
        apply for_each_ext. intros s' j Hj%elem_of_seq_0.
        rewrite two_body_pass_quadruple by done. rewrite for_each_bind.
        apply for_each_ext. intros s1 k _. rewrite for_each_bind.
        apply for_each_ext. intros s2 l _. by rewrite for_each_singleton. }
    by destruct (for_each _ _ Zero).
  - intros s1 s2 i Hi%elem_of_seq_0 Hs1 Hs2.
    apply (for_each_split IndexError (acc_on nq) (acc_on nq)); try done.
    + intros t1 t2 j _ _ _. apply pair_step_components.
    + intros t j Hj%elem_of_seq_0 Ht. by apply one_body_step_outcome.
    + intros t j Hj%elem_of_seq_0 Ht. by apply two_body_pass_outcome.
  - intros s i Hi%elem_of_seq_0 Hs. apply for_each_ok_or; [|done].
    intros t j Hj%elem_of_seq_0 Ht. by apply one_body_step_outcome.
  - intros s i Hi%elem_of_seq_0 Hs. apply for_each_ok_or; [|done].
    intros t j Hj%elem_of_seq_0 Ht. by apply two_body_pass_outcome.
Qed.

End ComposeFormula.

(** *** [compose] against the product taken left to right *)

Lemma zip_with_comm {A B} (op : A → A → B) (xs ys : list A) :
  (∀ x y, op x y = op y x) → zip_with op xs ys = zip_with op ys xs.
Proof.
  intros Hop. revert ys. induction xs as [|x xs IH]; intros [|y ys]; try done.
  cbn [zip_with]. by rewrite IH, Hop.
Qed.

Lemma cmul_comm a b : cmul a b = cmul b a.
Proof. apply complex_eq; simpl; ring. Qed.

Lemma compose_term_dot_term t1 t2 : compose_term t1 t2 = dot_term t2 t1.
Proof.
  destruct t1 as [[z1 x1] c1], t2 as [[z2 x2] c2]. unfold compose_term, dot_term.
  unfold bxor, band.
  rewrite (zip_with_comm xorb z1 z2) by apply xorb_comm.
  rewrite (zip_with_comm xorb x1 x2) by apply xorb_comm.
  rewrite (zip_with_comm andb z1 x2) by apply andb_comm.
  rewrite (cmul_comm c1 c2).
  by rewrite (Z.add_comm (count_y (z1, x1) mod 4) (count_y (z2, x2) mod 4)).
Qed.

Lemma compose_is_dot_reversed a b :
  num_qubits a = num_qubits b →
  ∃ x y, compose a b = Ok x ∧ dot b a = Ok y
         ∧ num_qubits x = num_qubits y ∧ terms x ≡ₚ terms y.
Proof.
  intros Hq. unfold compose, dot. rewrite !decide_True by done.
  eexists _, _. split; [done|]. split; [done|]. split; [done|].
  cbn [terms].
  transitivity (t1 ← terms a; t2 ← terms b; [dot_term t2 t1]).
  - apply Permutation_refl'. apply list_bind_ext; [|done]. intros t1.
    induction (terms b) as [|t2 l IH]; [done|].
    by rewrite fmap_cons, bind_cons, IH, compose_term_dot_term.
  - rewrite (bind_swap (λ t1 t2, [dot_term t2 t1])).
    apply Permutation_refl'. apply list_bind_ext; [|done]. intros t2.
    induction (terms a) as [|t1 l IH]; [done|].
    by rewrite fmap_cons, bind_cons, IH.
Qed.

(** C2, amended: for operator lists of equal length on a common register,
    [build_qubit_hamiltonian] returns what the spec's formula gives when
    its [compose] is the method the source calls, qiskit's
    [SparsePauliOp.compose]: the simplification of the one-body double sum
    plus 0.5 times the two-body quadruple sum, or the same exception.  In
    that method the receiver is the right factor: [compose(A, B)] has the
    rows of the product [B . A] taken left to right ([B.dot(A)]), so the
    creators are applied as right factors, not as left ones. *)
Theorem build_qubit_hamiltonian_is_the_compose_formula
    (one_body : one_body_tensor) (two_body : two_body_tensor)
    (annihilators creators : list SparsePauliOp) (nq : nat) :
  length creators = length annihilators →
  Forall (acts_on nq) annihilators →
  Forall (acts_on nq) creators →
  build_qubit_hamiltonian one_body two_body annihilators creators
  = formula_with compose one_body two_body annihilators creators
  ∧ ∀ a b, num_qubits a = num_qubits b →
      ∃ x y, compose a b = Ok x ∧ dot b a = Ok y
             ∧ num_qubits x = num_qubits y ∧ terms x ≡ₚ terms y.
Proof.
  intros Hlen HA HC. split.
  - by apply (build_is_formula_with_compose one_body two_body annihilators
                creators nq).
  - apply compose_is_dot_reversed.
Qed.

Lemma build_qubit_hamiltonian_is_the_compose_formula_witness :
  build_qubit_hamiltonian [[cone; Cx 0 1]; [Cx 0 (-1); cone]] (zero_two_body 2)
    (annihilation_operators_with_jordan_wigner 2)
    (adjoint <$> annihilation_operators_with_jordan_wigner 2)
  = formula_with compose [[cone; Cx 0 1]; [Cx 0 (-1); cone]] (zero_two_body 2)
      (annihilation_operators_with_jordan_wigner 2)
      (adjoint <$> annihilation_operators_with_jordan_wigner 2).
Proof.
  refine (proj1 (build_qubit_hamiltonian_is_the_compose_formula _ _ _ _ 2 _ _ _)).
  - reflexivity.
  - apply jordan_wigner_acts_on.
  - apply jordan_wigner_adjoint_acts_on.
Defined.

Local Open Scope Qc_scope.

(** *** The least eigenvalue *)








